(** * Guitar Pro tremolo converter: a model of [tremolo_converter.py]

    The document graph of the converter (measures, voices, beats, notes) is
    embedded with the beats as objects of a store: a voice holds a list of
    beat references, and the rewriting functions mutate the beats and the
    lists the way the Python code does.  Durations are exact rationals that
    are kept in lowest terms, as [fractions.Fraction] keeps them.  The
    functions run in a state-and-exception monad; what [print] writes is
    collected in the state.  Notes and effect descriptors are part of the
    value of the beat that holds them, and every voice has its own list of
    beats: a note or an effect object that two beats share, and a list
    object that two voices share, are outside the model.  What is stated
    below about beats other than the one at hand, and about counts, is
    stated so that it does not depend on this. *)

From Equations Require Import Equations.
From stdpp Require Import base list gmap.
From Stdlib Require Import QArith Qround Sorted.
From Stdlib Require String.

Close Scope Q_scope.

Set Default Proof Using "Type".

(** ** Python outcomes and the monad of the program *)

Inductive exn : Set :=
| ZeroDivisionError
| AttributeError
| TypeError
| ValueError
| IndexError.

(** A call returns a value, raises, or never returns. *)
Inductive outcome (A : Type) : Type :=
| Ok (a : A)
| Raise (e : exn)
| Diverges.
Arguments Ok {A} a.
Arguments Raise {A} e.
Arguments Diverges {A}.

Definition obind {A B} (r : outcome A) (f : A -> outcome B) : outcome B :=
  match r with
  | Ok a => f a
  | Raise e => Raise e
  | Diverges => Diverges
  end.

(** ** The document graph *)

(** References to beat objects. *)
Abbreviation loc := nat (only parsing).

Module Duration.
(** [value] is the denominator of the note value.  The dot flags are
    probed with [hasattr] by the program: [None] is an absent attribute. *)
Record t := mk {
  value : Z;
  isDotted : option bool;
  isDoubleDotted : option bool;
  dotted : option bool;
  doubleDotted : option bool }.
End Duration.

Module TremoloPicking.
Record t := mk { duration : Duration.t }.
End TremoloPicking.

Module Effect.
(** The effect descriptor of a beat or of a note.  The outer option is
    [hasattr(effect, 'tremoloPicking')], the inner one tells [None] from a
    marker object (which is truthy). *)
Record t := mk { tremoloPicking : option (option TremoloPicking.t) }.
End Effect.

Module NoteType.
Inductive t : Set := rest | normal | tie | dead.
End NoteType.

Module Note.
Record t := mk {
  value : Z;
  string : Z;
  type : NoteType.t;
  velocity : Z;
  effect : Effect.t }.
End Note.

Module Beat.
Record t := mk {
  duration : Duration.t;
  effect : Effect.t;
  notes : list Note.t }.
End Beat.

Module Voice.
(** [voice.beats] refers to a list object: [beats_id] is the identity of
    that list, [beats] its content, the references to the beats. *)
Record t := mk { beats_id : nat; beats : list loc }.
End Voice.

(** What an attribute of a time signature may hold, as far as [int(...)] can
    tell: nothing, an integer, a string (given by what [int] parses it to,
    if anything), or an object that has no conversion to an integer.  A
    value on which [int] raises another exception (an infinite float, an
    object whose conversion raises) is outside the model. *)
Inductive pyval : Type :=
| VNone
| VInt (z : Z)
| VStr (parsed : option Z)
| VObj.

Module TimeSignature.
Record t := mk { numerator : option pyval; denominator : option pyval }.
End TimeSignature.

Module Header.
Record t := mk { timeSignature : option (option TimeSignature.t) }.
End Header.

Module Measure.
Record t := mk { header : option Header.t; voices : list Voice.t }.
End Measure.

(** ** Console output *)

Inductive msg : Type :=
| WarnTimeSignatureUnreadable
| WarnTimeSignatureNotNumbers
| WarnUnknownTremoloValue (speed_value : Z)
| WarnSpeedObjectNotFound
| FoundTremolo (position : Q) (original_duration : Z) (fraction : Q)
               (speed : option TremoloPicking.t)
| ConvertingTremolo (position : Q)
| RemovedTremolo
| CreatedNotes (count : nat) (duration : Z) (original_duration : Z)
| WarnVoiceExceeds (voice_number : nat)
| TrimmedBeats (count : nat).

(** ** The store *)

Global Instance duration_inhabited : Inhabited Duration.t :=
  populate (Duration.mk 4 None None None None).
Global Instance effect_inhabited : Inhabited Effect.t :=
  populate (Effect.mk None).
Global Instance beat_inhabited : Inhabited Beat.t :=
  populate (Beat.mk inhabitant inhabitant []).

Record state := mkState {
  heap : gmap loc Beat.t;
  next_id : nat;
  stdout : list msg }.

Definition M (A : Type) : Type := state -> outcome A * state.

Definition ret {A} (a : A) : M A := fun s => (Ok a, s).

Definition bind {A B} (m : M A) (f : A -> M B) : M B :=
  fun s =>
    match m s with
    | (Ok a, s') => f a s'
    | (Raise e, s') => (Raise e, s')
    | (Diverges, s') => (Diverges, s')
    end.

Definition lift {A} (r : outcome A) : M A := fun s => (r, s).

Definition raise {A} (e : exn) : M A := lift (Raise e).

Declare Scope py_scope.
Delimit Scope py_scope with py.
Notation "x <- m ;; k" := (bind m (fun x => k))
  (at level 100, m at next level, right associativity) : py_scope.
Notation "m ;;; k" := (bind m (fun _ => k))
  (at level 100, right associativity) : py_scope.
Local Open Scope py_scope.

(** [try: m except e: h] for the exceptions that [catches] selects. *)
Definition try_except {A} (m : M A) (catches : exn -> bool) (h : exn -> M A) : M A :=
  fun s =>
    match m s with
    | (Raise e, s') => if catches e then h e s' else (Raise e, s')
    | r => r
    end.

Definition print (m : msg) : M unit :=
  fun s => (Ok tt, mkState (heap s) (next_id s) (stdout s ++ [m])).

(** Reading the beat object behind a reference. *)
Definition load (l : loc) : M Beat.t := fun s => (Ok (heap s !!! l), s).

(** A new object: the next unused identity. *)
Definition fresh_id : M nat :=
  fun s => (Ok (next_id s), mkState (heap s) (S (next_id s)) (stdout s)).

Definition alloc (b : Beat.t) : M loc :=
  fun s => (Ok (next_id s), mkState (<[next_id s := b]> (heap s)) (S (next_id s)) (stdout s)).

Definition store (l : loc) (b : Beat.t) : M unit :=
  fun s => (Ok tt, mkState (<[l := b]> (heap s)) (next_id s) (stdout s)).

(** ** Exact rationals *)

(** [Fraction(n, d)]: the quotient in lowest terms with a positive
    denominator; a zero denominator raises. *)
Definition Fraction (n d : Z) : outcome Q :=
  match d with
  | Z0 => Raise ZeroDivisionError
  | Zpos p => Ok (Qred (n # p))
  | Zneg p => Ok (Qred ((- n) # p))
  end.

Definition Fraction_mul (a b : Q) : Q := Qred (a * b).
Definition Fraction_add (a b : Q) : Q := Qred (a + b).
Definition Fraction_sub (a b : Q) : Q := Qred (a - b).

(** [hasattr(o, a) and o.a], as a truth value. *)
Definition truthy_flag (a : option bool) : bool := default false a.

Definition has_marker (e : Effect.t) : bool :=
  match Effect.tremoloPicking e with
  | Some (Some _) => true
  | _ => false
  end.

(** ** Tremolo detection and removal *)

Definition has_tremolo_picking (beat : Beat.t) : bool :=
  if has_marker (Beat.effect beat) then true
  else existsb (fun note => has_marker (Note.effect note)) (Beat.notes beat).

Definition clear_marker (e : Effect.t) : Effect.t :=
  match Effect.tremoloPicking e with
  | Some _ => Effect.mk (Some None)
  | None => e
  end.

(** The beat after [remove_tremolo_effect] has run on it: the marker of
    its effect and of the effect of each of its notes is set to [None]
    where the attribute exists. *)
Definition tremolo_removed (beat : Beat.t) : Beat.t :=
  Beat.mk (Beat.duration beat)
          (clear_marker (Beat.effect beat))
          (map (fun note =>
                  Note.mk (Note.value note) (Note.string note) (Note.type note)
                          (Note.velocity note) (clear_marker (Note.effect note)))
               (Beat.notes beat)).

Definition remove_tremolo_effect (beat : loc) : M unit :=
  b <- load beat ;;
  store beat (tremolo_removed b).

(** ** Duration arithmetic *)

Definition duration_to_fraction (duration_value : Z) (is_dotted is_double_dotted : bool)
  : outcome Q :=
  obind (Fraction 1 duration_value) (fun base_fraction =>
    if is_double_dotted then Ok (Fraction_mul base_fraction (7 # 4))
    else if is_dotted then Ok (Fraction_mul base_fraction (3 # 2))
    else Ok base_fraction).

Definition get_beat_duration_fraction (beat : Beat.t) : outcome Q :=
  let is_dotted := truthy_flag (Duration.isDotted (Beat.duration beat)) in
  let is_double_dotted := truthy_flag (Duration.isDoubleDotted (Beat.duration beat)) in
  duration_to_fraction (Duration.value (Beat.duration beat)) is_dotted is_double_dotted.

(** The loop of [calculate_beat_positions], over the beats that remain. *)
Fixpoint beat_positions_from (current_pos : Q) (beats : list loc) (positions : list Q)
  : M (list Q) :=
  match beats with
  | [] => ret positions
  | beat :: rest =>
      b <- load beat ;;
      d <- lift (get_beat_duration_fraction b) ;;
      beat_positions_from (Fraction_add current_pos d) rest (positions ++ [current_pos])
  end.

Definition calculate_beat_positions (voice : Voice.t) : M (list Q) :=
  beat_positions_from 0 (Voice.beats voice) [].

(** ** The capacity of a measure *)

(** [int(v)] *)
Definition py_int (v : pyval) : outcome Z :=
  match v with
  | VInt z => Ok z
  | VStr (Some z) => Ok z
  | VStr None => Raise ValueError
  | VNone => Raise TypeError
  | VObj => Raise TypeError
  end.

(** [ts.a], where [ts] may be [None] and the attribute may be absent. *)
Definition ts_attribute (ts : option TimeSignature.t)
    (a : TimeSignature.t -> option pyval) : outcome pyval :=
  match ts with
  | None => Raise AttributeError
  | Some t =>
      match a t with
      | None => Raise AttributeError
      | Some v => Ok v
      end
  end.

(** The body shared by the two [try] blocks: read both attributes,
    convert them, build the fraction. *)
Definition read_time_signature (ts : option TimeSignature.t) : outcome Q :=
  obind (ts_attribute ts TimeSignature.numerator) (fun n =>
  obind (py_int n) (fun numerator =>
  obind (ts_attribute ts TimeSignature.denominator) (fun d =>
  obind (py_int d) (fun denominator =>
  Fraction numerator denominator)))).

Definition is_AttributeError_or_TypeError (e : exn) : bool :=
  match e with
  | AttributeError | TypeError => true
  | _ => false
  end.

Definition get_time_signature_duration (measure : Measure.t) : M Q :=
  match Measure.header measure with
  | Some header =>
      match Header.timeSignature header with
      | Some ts =>
          try_except (lift (read_time_signature ts))
            is_AttributeError_or_TypeError
            (fun e =>
               match e with
               | AttributeError =>
                   try_except (lift (read_time_signature ts))
                     (fun _ => true)
                     (fun _ => print WarnTimeSignatureUnreadable ;;; ret 1%Q)
               | _ =>
                   print WarnTimeSignatureNotNumbers ;;; ret 1%Q
               end)
      | None => ret 1%Q
      end
  | None => ret 1%Q
  end.

(** ** The subdivider *)

Definition reset_if_present (flag : option bool) : option bool :=
  match flag with
  | Some _ => Some false
  | None => None
  end.

(** Modelled from the spec: the [Duration] class of the guitarpro library
    is not part of the sources.  [type(d)()] is a plain quarter note with no
    dot, carrying the flags that the class of [d] declares. *)
Definition new_duration_like (d : Duration.t) : Duration.t :=
  Duration.mk 4
    (reset_if_present (Duration.isDotted d))
    (reset_if_present (Duration.isDoubleDotted d))
    (reset_if_present (Duration.dotted d))
    (reset_if_present (Duration.doubleDotted d)).

(** Modelled from the spec: the effect classes of the guitarpro library are
    not part of the sources.  [type(e)()] is a neutral descriptor: it
    carries no tremolo marker, and has the attribute when the class of [e]
    declares it. *)
Definition new_effect_like (e : Effect.t) : Effect.t :=
  match Effect.tremoloPicking e with
  | Some _ => Effect.mk (Some None)
  | None => Effect.mk None
  end.

(** The duration of the beats built in the [while] loop: all four flags
    are reset when present. *)
Definition subdivision_duration (original : Duration.t) (target_duration : Z) : Duration.t :=
  let d := new_duration_like original in
  Duration.mk target_duration
    (reset_if_present (Duration.isDotted d))
    (reset_if_present (Duration.isDoubleDotted d))
    (reset_if_present (Duration.dotted d))
    (reset_if_present (Duration.doubleDotted d)).

(** The duration of the chord beats: [doubleDotted] is left as built. *)
Definition chord_duration (original : Duration.t) (target_duration : Z) : Duration.t :=
  let d := new_duration_like original in
  Duration.mk target_duration
    (reset_if_present (Duration.isDotted d))
    (reset_if_present (Duration.isDoubleDotted d))
    (reset_if_present (Duration.dotted d))
    (Duration.doubleDotted d).

Definition clone_note (original_note : Note.t) : Note.t :=
  Note.mk (Note.value original_note) (Note.string original_note)
          (Note.type original_note) (Note.velocity original_note)
          (new_effect_like (Note.effect original_note)).

(** [rows[i].append(x)] *)
Definition append_at (i : nat) (x : loc) (rows : list (list loc)) : M (list (list loc)) :=
  match rows !! i with
  | Some row => ret (<[i := row ++ [x]]> rows)
  | None => raise IndexError
  end.

(** The [for] loop inside the [while] loop: one single-note beat per note
    of the original beat, appended to the stream of that note. *)
Fixpoint subdivision_row (original_beat : Beat.t) (target_duration : Z) (i : nat)
    (notes : list Note.t) (notes_per_subdivision : list (list loc)) : M (list (list loc)) :=
  match notes with
  | [] => ret notes_per_subdivision
  | original_note :: rest =>
      new_beat <- alloc (Beat.mk
                           (subdivision_duration (Beat.duration original_beat) target_duration)
                           (new_effect_like (Beat.effect original_beat))
                           [clone_note original_note]) ;;
      rows <- append_at i new_beat notes_per_subdivision ;;
      subdivision_row original_beat target_duration (S i) rest rows
  end.

(** The floor of a rational is the one integer just below it. *)
Lemma Qfloor_unique (x : Q) (z : Z) :
  (inject_Z z <= x)%Q -> (x < inject_Z (z + 1))%Q -> Qfloor x = z.
Proof.
  intros Hle Hlt.
  apply Z.le_antisymm.
  - apply Z.lt_succ_r. rewrite Zlt_Qlt.
    eapply Qle_lt_trans; [apply Qfloor_le|]. exact Hlt.
  - rewrite <- (Qfloor_Z z). apply Qfloor_resp_le. exact Hle.
Qed.

Lemma Qfloor_minus_1 (x : Q) : Qfloor (x - 1) = (Qfloor x - 1)%Z.
Proof.
  apply Qfloor_unique.
  - unfold Z.sub, Qminus. rewrite inject_Z_plus, inject_Z_opp.
    apply Qplus_le_compat; [apply Qfloor_le | apply Qle_refl].
  - replace (Qfloor x - 1 + 1)%Z with (Qfloor x + 1 + - (1))%Z by lia.
    unfold Qminus. rewrite (inject_Z_plus (Qfloor x + 1)), inject_Z_opp.
    apply Qplus_lt_le_compat; [apply Qlt_floor | apply Qle_refl].
Qed.

(** One turn of the subdivision loop brings the remainder one target unit
    closer to the exit. *)
Lemma subdivision_step_floor (t r : Q) :
  (0 < t)%Q -> Qfloor (Fraction_sub r t / t) = (Qfloor (r / t) - 1)%Z.
Proof.
  intros Hpos. unfold Fraction_sub.
  assert (Hne : ~ (t == 0)%Q).
  { intro E. rewrite E in Hpos. exact (Qlt_irrefl _ Hpos). }
  assert (Hd : (Qred (r - t) / t == r / t - 1)%Q).
  { rewrite Qred_correct. field. exact Hne. }
  rewrite (Qfloor_comp _ _ Hd). apply Qfloor_minus_1.
Qed.

Lemma subdivision_measure_decreases (t r : Q) :
  (0 < t)%Q -> (t <= r)%Q ->
  (Z.to_nat (Qfloor (Fraction_sub r t / t)) < Z.to_nat (Qfloor (r / t)))%nat.
Proof.
  intros Hpos Hge.
  rewrite subdivision_step_floor by exact Hpos.
  assert (H1 : (1 <= r / t)%Q).
  { apply Qle_shift_div_l; [exact Hpos|]. rewrite Qmult_1_l. exact Hge. }
  assert (Hf : (1 <= Qfloor (r / t))%Z).
  { change 1%Z with (Qfloor 1). apply Qfloor_resp_le. exact H1. }
  lia.
Qed.

(** The [while remaining_duration >= target_duration_fraction] loop.  With a
    target that is not positive the loop would never end: that is the
    outcome [Diverges]. *)
Equations? subdivision_loop (original_beat : Beat.t) (target_duration : Z)
    (target_duration_fraction remaining_duration : Q)
    (notes_per_subdivision : list (list loc)) (s : state)
  : outcome (list (list loc)) * state
  by wf (Z.to_nat (Qfloor (remaining_duration / target_duration_fraction))) lt :=
  subdivision_loop original_beat target_duration target_duration_fraction
      remaining_duration notes_per_subdivision s
    with Qlt_le_dec remaining_duration target_duration_fraction := {
    | left _ => (Ok notes_per_subdivision, s)
    | right Hge
        with subdivision_row original_beat target_duration 0
               (Beat.notes original_beat) notes_per_subdivision s := {
        | (Ok rows, s') with Qlt_le_dec 0 target_duration_fraction := {
            | left Hpos =>
                subdivision_loop original_beat target_duration target_duration_fraction
                  (Fraction_sub remaining_duration target_duration_fraction) rows s'
            | right _ => (Diverges, s') }
        | (Raise e, s') => (Raise e, s')
        | (Diverges, s') => (Diverges, s') } }.
Proof.
  exact (subdivision_measure_decreases _ _ Hpos Hge).
Defined.

(** Lines 92-107: the target duration that the speed object resolves to. *)
Definition resolve_target_duration (tremolo_speed_object : option TremoloPicking.t)
  : M (option Z) :=
  match tremolo_speed_object with
  | Some speed =>
      let speed_value := Duration.value (TremoloPicking.duration speed) in
      if (speed_value =? 8)%Z then ret (Some 8%Z)
      else if (speed_value =? 16)%Z then ret (Some 16%Z)
      else if (speed_value =? 32)%Z then ret (Some 32%Z)
      else (print (WarnUnknownTremoloValue speed_value) ;;; ret (Some 16%Z))
  | None =>
      print WarnSpeedObjectNotFound ;;; ret (Some 16%Z)
  end.

(** Lines 144-160: one chord beat per subdivision, each with a clone of
    every note of the original beat. *)
Fixpoint chord_beats (num_subdivisions : nat) (original_beat : Beat.t)
    (target_duration : Z) (new_beats : list loc) : M (list loc) :=
  match num_subdivisions with
  | O => ret new_beats
  | S n =>
      new_chord_beat <- alloc (Beat.mk
                                 (chord_duration (Beat.duration original_beat) target_duration)
                                 (new_effect_like (Beat.effect original_beat))
                                 (map clone_note (Beat.notes original_beat))) ;;
      chord_beats n original_beat target_duration (new_beats ++ [new_chord_beat])
  end.

Definition create_individual_notes (original_beat : loc) (voice : Voice.t)
    (tremolo_speed_object : option TremoloPicking.t) : M (list loc) :=
  ob <- load original_beat ;;
  original_duration_fraction <- lift (get_beat_duration_fraction ob) ;;
  target <- resolve_target_duration tremolo_speed_object ;;
  match target with
  | None => ret []
  | Some target_duration =>
      target_duration_fraction <- lift (duration_to_fraction target_duration false false) ;;
      let num_original_notes := length (Beat.notes ob) in
      if (0 <? num_original_notes)%nat then
        notes_per_subdivision <-
          subdivision_loop ob target_duration target_duration_fraction
            original_duration_fraction (replicate num_original_notes []) ;;
        match notes_per_subdivision with
        | (_ :: _) as first :: _ => chord_beats (length first) ob target_duration []
        | _ => ret []
        end
      else ret []
  end.

(** ** The measure rewriter *)

Module TremoloBeat.
(** The tuples collected by the detection pass. *)
Record t := mk {
  beat_idx : nat;
  beat : loc;
  beat_position : Q;
  original_duration : Z;
  tremolo_speed_value : option TremoloPicking.t }.
End TremoloBeat.

Definition marker_of (e : Effect.t) : option TremoloPicking.t :=
  match Effect.tremoloPicking e with
  | Some (Some marker) => Some marker
  | _ => None
  end.

(** Lines 180-183: the scan of the notes, left at the first marker. *)
Fixpoint scan_notes (notes : list Note.t) (tremolo_speed_value : option TremoloPicking.t)
  : option TremoloPicking.t :=
  match notes with
  | [] => tremolo_speed_value
  | note :: rest =>
      match marker_of (Note.effect note) with
      | Some marker => Some marker
      | None => scan_notes rest tremolo_speed_value
      end
  end.

(** Lines 177-183: the speed object that detection records for a beat. *)
Definition detected_speed (b : Beat.t) : option TremoloPicking.t :=
  let tremolo_speed_value := None in
  let tremolo_speed_value :=
    if has_marker (Beat.effect b) then marker_of (Beat.effect b)
    else tremolo_speed_value in
  scan_notes (Beat.notes b) tremolo_speed_value.

(** [l[i]] *)
Definition index {A} (l : list A) (i : nat) : M A :=
  match l !! i with
  | Some x => ret x
  | None => raise IndexError
  end.

(** Lines 174-187: the detection pass over the beats of the voice. *)
Fixpoint collect_tremolo_beats (beat_positions : list Q) (beat_idx : nat)
    (beats : list loc) (tremolo_beats : list TremoloBeat.t) : M (list TremoloBeat.t) :=
  match beats with
  | [] => ret tremolo_beats
  | beat :: rest =>
      beat_position <- index beat_positions beat_idx ;;
      b <- load beat ;;
      if has_tremolo_picking b then
        let tremolo_speed_value := detected_speed b in
        let original_duration := Duration.value (Beat.duration b) in
        original_fraction <- lift (get_beat_duration_fraction b) ;;
        print (FoundTremolo beat_position original_duration original_fraction
                 tremolo_speed_value) ;;;
        position <- index beat_positions beat_idx ;;
        collect_tremolo_beats beat_positions (S beat_idx) rest
          (tremolo_beats ++
             [TremoloBeat.mk beat_idx beat position original_duration tremolo_speed_value])
      else collect_tremolo_beats beat_positions (S beat_idx) rest tremolo_beats
  end.

(** [l.pop(i)] for its effect on the list. *)
Definition list_pop (i : nat) (l : list loc) : M (list loc) :=
  if (i <? length l)%nat then ret (delete i l) else raise IndexError.

(** [l.insert(i, x)]: past the end, the element is appended. *)
Definition list_insert_at (i : nat) (x : loc) (l : list loc) : list loc :=
  take i l ++ x :: drop i l.

(** Lines 201-202 *)
Fixpoint insert_new_beats (beat_idx i : nat) (new_beats : list loc) (beats : list loc)
  : list loc :=
  match new_beats with
  | [] => beats
  | new_beat :: rest =>
      insert_new_beats beat_idx (S i) rest (list_insert_at (beat_idx + i) new_beat beats)
  end.

(** Lines 192-207: the rewriting pass, given the collected tuples in the
    order in which they are visited; [beats] is the content of
    [voice.beats]. *)
Fixpoint rewrite_tremolo_beats (voice : Voice.t) (visited : list TremoloBeat.t)
    (beats : list loc) (converted_count : nat) : M (list loc * nat) :=
  match visited with
  | [] => ret (beats, converted_count)
  | entry :: rest =>
      print (ConvertingTremolo (TremoloBeat.beat_position entry)) ;;;
      new_beats <- create_individual_notes (TremoloBeat.beat entry) voice
                     (TremoloBeat.tremolo_speed_value entry) ;;
      beats' <-
        (if (length new_beats <=? 1)%nat then
           remove_tremolo_effect (TremoloBeat.beat entry) ;;;
           print RemovedTremolo ;;;
           ret beats
         else
           popped <- list_pop (TremoloBeat.beat_idx entry) beats ;;
           let inserted := insert_new_beats (TremoloBeat.beat_idx entry) 0 new_beats popped in
           match new_beats with
           | first :: _ =>
               first_new_beat <- load first ;;
               print (CreatedNotes (length new_beats)
                        (Duration.value (Beat.duration first_new_beat))
                        (TremoloBeat.original_duration entry)) ;;;
               ret inserted
           | [] => ret inserted
           end) ;;
      rewrite_tremolo_beats voice rest beats' (S converted_count)
  end.

(** The body of the loop over the voices of the measure. *)
Definition convert_tremolo_in_voice (voice : Voice.t) (converted_count : nat)
  : M (Voice.t * nat) :=
  beat_positions <- calculate_beat_positions voice ;;
  tremolo_beats <- collect_tremolo_beats beat_positions 0 (Voice.beats voice) [] ;;
  match tremolo_beats with
  | [] => ret (voice, converted_count)
  | _ =>
      r <- rewrite_tremolo_beats voice (rev tremolo_beats) (Voice.beats voice)
             converted_count ;;
      ret (Voice.mk (Voice.beats_id voice) (fst r), snd r)
  end.

Fixpoint convert_tremolo_in_voices (voices : list Voice.t) (converted_count : nat)
  : M (list Voice.t * nat) :=
  match voices with
  | [] => ret ([], converted_count)
  | voice :: rest =>
      r <- convert_tremolo_in_voice voice converted_count ;;
      r' <- convert_tremolo_in_voices rest (snd r) ;;
      ret (fst r :: fst r', snd r')
  end.

(** The measure is rewritten in place: the call yields the count together
    with the measure as it stands afterwards. *)
Definition convert_tremolo_in_measure (measure : Measure.t) (track_name : String.string)
  : M (nat * Measure.t) :=
  r <- convert_tremolo_in_voices (Measure.voices measure) 0 ;;
  ret (snd r, Measure.mk (Measure.header measure) (fst r)).

(** ** The timing validator *)

(** Lines 215-217 *)
Fixpoint sum_beat_durations (beats : list loc) (total_duration : Q) : M Q :=
  match beats with
  | [] => ret total_duration
  | beat :: rest =>
      b <- load beat ;;
      d <- lift (get_beat_duration_fraction b) ;;
      sum_beat_durations rest (Fraction_add total_duration d)
  end.

(** Lines 222-228: the loop that is left at the first beat that does not
    fit. *)
Fixpoint keep_fitting_beats (time_sig_duration : Q) (beats : list loc)
    (current_duration : Q) (beats_to_keep : list loc) : M (list loc) :=
  match beats with
  | [] => ret beats_to_keep
  | beat :: rest =>
      b <- load beat ;;
      beat_duration <- lift (get_beat_duration_fraction b) ;;
      if Qle_bool (Fraction_add current_duration beat_duration) time_sig_duration then
        keep_fitting_beats time_sig_duration rest
          (Fraction_add current_duration beat_duration) (beats_to_keep ++ [beat])
      else ret beats_to_keep
  end.

(** The body of the loop over the voices. *)
Definition validate_voice_timing (time_sig_duration : Q) (voice_idx : nat)
    (voice : Voice.t) : M Voice.t :=
  total_duration <- sum_beat_durations (Voice.beats voice) 0%Q ;;
  if negb (Qle_bool total_duration time_sig_duration) then
    print (WarnVoiceExceeds (voice_idx + 1)) ;;;
    kept_id <- fresh_id ;;
    beats_to_keep <- keep_fitting_beats time_sig_duration (Voice.beats voice) 0%Q [] ;;
    if (length beats_to_keep <? length (Voice.beats voice))%nat then
      print (TrimmedBeats (length (Voice.beats voice) - length beats_to_keep)) ;;;
      ret (Voice.mk kept_id beats_to_keep)
    else ret voice
  else ret voice.

Fixpoint validate_voices_timing (time_sig_duration : Q) (voice_idx : nat)
    (voices : list Voice.t) : M (list Voice.t) :=
  match voices with
  | [] => ret []
  | voice :: rest =>
      voice' <- validate_voice_timing time_sig_duration voice_idx voice ;;
      rest' <- validate_voices_timing time_sig_duration (S voice_idx) rest ;;
      ret (voice' :: rest')
  end.

(** The measure is repaired in place: the call yields the measure as it
    stands afterwards. *)
Definition validate_measure_timing (measure : Measure.t) : M Measure.t :=
  time_sig_duration <- get_time_signature_duration measure ;;
  voices <- validate_voices_timing time_sig_duration 0 (Measure.voices measure) ;;
  ret (Measure.mk (Measure.header measure) voices).

(** * Properties *)

(** ** Running the monad *)

Lemma bind_ok {A B} (m : M A) (f : A -> M B) (s s' : state) (a : A) :
  m s = (Ok a, s') -> bind m f s = f a s'.
Proof. intros H. unfold bind. rewrite H. reflexivity. Qed.

Lemma bind_raise {A B} (m : M A) (f : A -> M B) (s s' : state) (e : exn) :
  m s = (Raise e, s') -> bind m f s = (Raise e, s').
Proof. intros H. unfold bind. rewrite H. reflexivity. Qed.

(** ** Fractions *)

Lemma Fraction_inverse (d : Z) :
  d <> 0%Z -> exists q, Fraction 1 d = Ok q /\ Qred q = q /\ (q == 1 / inject_Z d)%Q.
Proof.
  intros Hd. destruct d as [|p|p]; [congruence| |]; simpl.
  - exists (Qred (1 # p)). split; [reflexivity|]. split; [apply Qred_complete, Qred_correct|].
    rewrite Qred_correct. unfold Qeq, Qdiv, Qinv, Qmult, inject_Z. simpl. lia.
  - exists (Qred (-1 # p)). split; [reflexivity|]. split; [apply Qred_complete, Qred_correct|].
    rewrite Qred_correct. unfold Qeq, Qdiv, Qinv, Qmult, inject_Z. simpl. lia.
Qed.

Lemma Fraction_inverse_sign (d : Z) (q : Q) :
  Fraction 1 d = Ok q -> ((0 < d)%Z -> (0 < q)%Q) /\ ((d < 0)%Z -> (q < 0)%Q).
Proof.
  destruct d as [|p|p]; simpl; intros H; inversion H; subst; clear H.
  - split; [|lia]. intros _. rewrite Qred_correct. reflexivity.
  - split; [lia|]. intros _. rewrite Qred_correct. reflexivity.
Qed.

Lemma duration_to_fraction_defined (d : Z) (is_dotted is_double_dotted : bool) :
  d <> 0%Z ->
  exists q, duration_to_fraction d is_dotted is_double_dotted = Ok q /\ Qred q = q /\
    (q == (if is_double_dotted then (1 / inject_Z d) * (7 # 4)
           else if is_dotted then (1 / inject_Z d) * (3 # 2)
           else 1 / inject_Z d))%Q.
Proof.
  intros Hd. destruct (Fraction_inverse d Hd) as (q & Hq & Hred & Heq).
  unfold duration_to_fraction. rewrite Hq. simpl.
  destruct is_double_dotted; [|destruct is_dotted].
  - eexists. split; [reflexivity|]. split; [apply Qred_complete, Qred_correct|].
    unfold Fraction_mul. rewrite Qred_correct, Heq. reflexivity.
  - eexists. split; [reflexivity|]. split; [apply Qred_complete, Qred_correct|].
    unfold Fraction_mul. rewrite Qred_correct, Heq. reflexivity.
  - exists q. auto.
Qed.

Lemma duration_to_fraction_sign (d : Z) (is_dotted is_double_dotted : bool) (q : Q) :
  duration_to_fraction d is_dotted is_double_dotted = Ok q ->
  ((0 < d)%Z -> (0 < q)%Q) /\ ((d < 0)%Z -> (q < 0)%Q).
Proof.
  unfold duration_to_fraction. destruct (Fraction 1 d) as [b| |] eqn:Hb; simpl; try discriminate.
  destruct (Fraction_inverse_sign d b Hb) as [Hp Hn].
  unfold Fraction_mul.
  destruct is_double_dotted; [|destruct is_dotted]; intros H; inversion H; subst; clear H;
    try (split; assumption).
  - split; intros Hd; rewrite Qred_correct.
    + apply Qmult_lt_0_compat; [auto|reflexivity].
    + eapply Qlt_le_trans;
        [apply Qmult_lt_compat_r; [reflexivity | apply Hn, Hd] | discriminate].
  - split; intros Hd; rewrite Qred_correct.
    + apply Qmult_lt_0_compat; [auto|reflexivity].
    + eapply Qlt_le_trans;
        [apply Qmult_lt_compat_r; [reflexivity | apply Hn, Hd] | discriminate].
Qed.

Lemma get_beat_duration_fraction_defined (b : Beat.t) :
  Duration.value (Beat.duration b) <> 0%Z ->
  exists q, get_beat_duration_fraction b = Ok q.
Proof.
  intros Hd. unfold get_beat_duration_fraction.
  destruct (duration_to_fraction_defined _ (truthy_flag (Duration.isDotted (Beat.duration b)))
              (truthy_flag (Duration.isDoubleDotted (Beat.duration b))) Hd) as (q & Hq & _).
  eauto.
Qed.

(** The duration of a beat as a fraction of a whole note, written out as
    the specification words it and without the functions of the program:
    one over the duration value, times 7/4 when the double-dot flag is set,
    else times 3/2 when the dot flag is set. *)
Definition note_value_fraction (d : Duration.t) : Q :=
  if truthy_flag (Duration.isDoubleDotted d) then
    (1 / inject_Z (Duration.value d)) * (7 # 4)
  else if truthy_flag (Duration.isDotted d) then
    (1 / inject_Z (Duration.value d)) * (3 # 2)
  else 1 / inject_Z (Duration.value d).

Lemma get_beat_duration_fraction_written (b : Beat.t) :
  Duration.value (Beat.duration b) <> 0%Z ->
  exists q, get_beat_duration_fraction b = Ok q /\
            (q == note_value_fraction (Beat.duration b))%Q.
Proof.
  intros Hd. unfold get_beat_duration_fraction, note_value_fraction.
  destruct (duration_to_fraction_defined _ (truthy_flag (Duration.isDotted (Beat.duration b)))
              (truthy_flag (Duration.isDoubleDotted (Beat.duration b))) Hd)
    as (q & Hq & _ & Heq).
  exists q. split; [exact Hq | exact Heq].
Qed.

(** C8: for a denominator value [d] (any integer but zero, where [1/d] is
    no rational), [duration_to_fraction] returns the exact rational, in
    lowest terms: [1/d] with no flag, [(1/d)*(7/4)] when double-dotted
    whatever the dotted flag, [(1/d)*(3/2)] when only dotted; a dotted
    quarter is 3/8 and a double-dotted eighth is 7/32. *)
Theorem duration_to_fraction_exact (d : Z) (is_dotted is_double_dotted : bool) :
  d <> 0%Z ->
  (exists q, duration_to_fraction d is_dotted is_double_dotted = Ok q /\ Qred q = q /\
     (q == (if is_double_dotted then (1 / inject_Z d) * (7 # 4)
            else if is_dotted then (1 / inject_Z d) * (3 # 2)
            else 1 / inject_Z d))%Q) /\
  duration_to_fraction 4 true false = Ok (3 # 8)%Q /\
  duration_to_fraction 8 is_dotted true = Ok (7 # 32)%Q.
Proof.
  intros Hd. split; [exact (duration_to_fraction_defined d _ _ Hd)|].
  split; [reflexivity|]. destruct is_dotted; reflexivity.
Qed.

Lemma duration_to_fraction_exact_witness :
  (exists q, duration_to_fraction 16 true true = Ok q /\ Qred q = q /\
     (q == (1 / inject_Z 16) * (7 # 4))%Q) /\
  duration_to_fraction 4 true false = Ok (3 # 8)%Q /\
  duration_to_fraction 8 true true = Ok (7 # 32)%Q.
Proof.
  apply (duration_to_fraction_exact 16 true true). lia.
Defined.

(** ** The capacity of a measure *)

Definition add_stdout (out : list msg) (s : state) : state :=
  mkState (heap s) (next_id s) (stdout s ++ out).

Definition time_signature_attribute (measure : Measure.t) : option (option TimeSignature.t) :=
  match Measure.header measure with
  | Some header => Header.timeSignature header
  | None => None
  end.

Definition measure_without_header : Measure.t := Measure.mk None [].

Definition measure_in_four_zero : Measure.t :=
  Measure.mk
    (Some (Header.mk (Some (Some (TimeSignature.mk (Some (VInt 4)) (Some (VInt 0)))))))
    [].

Definition measure_without_denominator : Measure.t :=
  Measure.mk
    (Some (Header.mk (Some (Some (TimeSignature.mk (Some (VInt 4)) None)))))
    [].

(** C7, as stated, fails: a measure with no header gets the capacity 1
    with nothing reported, and a time signature 4/0 makes the call raise
    [ZeroDivisionError]. *)
Lemma get_time_signature_duration_silent_or_raising :
  let s := mkState ∅ 0 [] in
  get_time_signature_duration measure_without_header s = (Ok 1%Q, s) /\
  get_time_signature_duration measure_in_four_zero s = (Raise ZeroDivisionError, s).
Proof. split; reflexivity. Qed.

(** C7, amended: when the measure has no header or the header has no time
    signature, the capacity is 1 and nothing is reported; when reading the
    time signature raises [AttributeError] (it is [None], or lacks the
    numerator or the denominator) or [TypeError] (an attribute that [int]
    does not take), the capacity is 1, exactly one warning is reported, and
    nothing is raised. *)
Theorem get_time_signature_duration_default (measure : Measure.t) (s : state) :
  (time_signature_attribute measure = None ->
   get_time_signature_duration measure s = (Ok 1%Q, s)) /\
  (forall ts e,
     time_signature_attribute measure = Some ts ->
     read_time_signature ts = Raise e ->
     e = AttributeError \/ e = TypeError ->
     exists warning,
       get_time_signature_duration measure s = (Ok 1%Q, add_stdout [warning] s)).
Proof.
  unfold time_signature_attribute, get_time_signature_duration. split.
  - destruct (Measure.header measure) as [h|]; [|reflexivity].
    intros ->. reflexivity.
  - intros ts e Hts Hread He.
    destruct (Measure.header measure) as [h|]; [|discriminate].
    rewrite Hts. unfold try_except, lift. rewrite Hread.
    destruct He as [-> | ->]; cbn [is_AttributeError_or_TypeError].
    + exists WarnTimeSignatureUnreadable. reflexivity.
    + exists WarnTimeSignatureNotNumbers. reflexivity.
Qed.

Lemma get_time_signature_duration_default_witness :
  exists warning,
    get_time_signature_duration measure_without_denominator (mkState ∅ 0 [])
    = (Ok 1%Q, add_stdout [warning] (mkState ∅ 0 [])).
Proof.
  apply (proj2 (get_time_signature_duration_default measure_without_denominator
                  (mkState ∅ 0 []))
           (Some (TimeSignature.mk (Some (VInt 4)) None)) AttributeError).
  - reflexivity.
  - reflexivity.
  - left. reflexivity.
Defined.

(** A numerator that is a string and no number is not caught either. *)
Lemma get_time_signature_duration_value_error :
  get_time_signature_duration
    (Measure.mk
       (Some (Header.mk (Some (Some (TimeSignature.mk (Some (VStr None)) (Some (VInt 4)))))))
       [])
    (mkState ∅ 0 [])
  = (Raise ValueError, mkState ∅ 0 []).
Proof. reflexivity. Qed.

(** ** Detection *)

(** The first marker carried by a note, in note order. *)
Definition first_note_marker (notes : list Note.t) : option TremoloPicking.t :=
  match find (fun note => has_marker (Note.effect note)) notes with
  | Some note => marker_of (Note.effect note)
  | None => None
  end.

(** The speed that detection records, in words: the first note-level
    marker when a note has one, the beat-level marker otherwise. *)
Definition note_level_first (b : Beat.t) : option TremoloPicking.t :=
  match first_note_marker (Beat.notes b) with
  | Some marker => Some marker
  | None => marker_of (Beat.effect b)
  end.

Lemma marker_of_has_marker (e : Effect.t) :
  has_marker e = true <-> exists marker, marker_of e = Some marker.
Proof.
  unfold has_marker, marker_of. destruct (Effect.tremoloPicking e) as [[m|]|].
  - split; eauto.
  - split; [discriminate | intros [m Hm]; discriminate].
  - split; [discriminate | intros [m Hm]; discriminate].
Qed.

Lemma scan_notes_first (notes : list Note.t) (start : option TremoloPicking.t) :
  scan_notes notes start =
  match first_note_marker notes with
  | Some marker => Some marker
  | None => start
  end.
Proof.
  unfold first_note_marker. induction notes as [|note rest IH]; simpl; [reflexivity|].
  destruct (has_marker (Note.effect note)) eqn:E.
  - apply marker_of_has_marker in E as [m Hm]. rewrite Hm. reflexivity.
  - destruct (marker_of (Note.effect note)) eqn:Em; [|exact IH].
    assert (has_marker (Note.effect note) = true) by (apply marker_of_has_marker; eauto).
    congruence.
Qed.

Lemma detected_speed_note_level_first (b : Beat.t) :
  detected_speed b = note_level_first b.
Proof.
  unfold detected_speed, note_level_first. rewrite scan_notes_first.
  destruct (first_note_marker (Beat.notes b)); [reflexivity|].
  unfold has_marker, marker_of.
  destruct (Effect.tremoloPicking (Beat.effect b)) as [[m|]|]; reflexivity.
Qed.

(** ** Allocation *)

Definition alloc_state (s : state) (b : Beat.t) : state :=
  mkState (<[next_id s := b]> (heap s)) (S (next_id s)) (stdout s).

(** The state after the beats of [bs] have been created, in order. *)
Definition alloc_list (bs : list Beat.t) (s : state) : state :=
  foldl alloc_state s bs.

Lemma alloc_run (b : Beat.t) (s : state) :
  alloc b s = (Ok (next_id s), alloc_list [b] s).
Proof. reflexivity. Qed.

Lemma alloc_list_app (bs cs : list Beat.t) (s : state) :
  alloc_list (bs ++ cs) s = alloc_list cs (alloc_list bs s).
Proof. unfold alloc_list. apply foldl_app. Qed.

Lemma alloc_list_cons (b : Beat.t) (bs : list Beat.t) (s : state) :
  alloc_list (b :: bs) s = alloc_list bs (alloc_list [b] s).
Proof. reflexivity. Qed.

Lemma next_id_alloc_list (bs : list Beat.t) (s : state) :
  next_id (alloc_list bs s) = next_id s + length bs.
Proof.
  revert s. induction bs as [|b bs IH]; intros s; [simpl; lia|].
  rewrite alloc_list_cons, IH. simpl. lia.
Qed.

Lemma stdout_alloc_list (bs : list Beat.t) (s : state) :
  stdout (alloc_list bs s) = stdout s.
Proof.
  revert s. induction bs as [|b bs IH]; intros s; [reflexivity|].
  rewrite alloc_list_cons, IH. reflexivity.
Qed.

Lemma heap_alloc_list_old (bs : list Beat.t) (s : state) (l : loc) :
  l < next_id s -> heap (alloc_list bs s) !! l = heap s !! l.
Proof.
  revert s. induction bs as [|b bs IH]; intros s Hl; [reflexivity|].
  rewrite alloc_list_cons, IH by (simpl; lia). simpl.
  apply lookup_insert_ne. lia.
Qed.

Lemma heap_alloc_list_new (bs : list Beat.t) (s : state) (i : nat) (b : Beat.t) :
  bs !! i = Some b -> heap (alloc_list bs s) !! (next_id s + i) = Some b.
Proof.
  revert s i. induction bs as [|c bs IH]; intros s i Hi; [discriminate|].
  rewrite alloc_list_cons. destruct i as [|i]; simpl in Hi.
  - inversion Hi; subst. rewrite heap_alloc_list_old by (simpl; lia).
    simpl. rewrite Nat.add_0_r. apply lookup_insert_eq.
  - replace (next_id s + S i) with (next_id (alloc_list [c] s) + i) by (simpl; lia).
    apply IH. exact Hi.
Qed.

Lemma alloc_list_add_stdout (bs : list Beat.t) (out : list msg) (s : state) :
  alloc_list bs (add_stdout out s) = add_stdout out (alloc_list bs s).
Proof.
  revert s. induction bs as [|b bs IH]; intros s; [reflexivity|].
  rewrite (alloc_list_cons b bs s), (alloc_list_cons b bs (add_stdout out s)), <- IH.
  reflexivity.
Qed.

(** ** The subdivider *)

(** The beats that the subdivider builds from a beat [ob]. *)
Definition single_note_beat (ob : Beat.t) (target_duration : Z) (note : Note.t) : Beat.t :=
  Beat.mk (subdivision_duration (Beat.duration ob) target_duration)
          (new_effect_like (Beat.effect ob))
          [clone_note note].

Definition chord_beat (ob : Beat.t) (target_duration : Z) : Beat.t :=
  Beat.mk (chord_duration (Beat.duration ob) target_duration)
          (new_effect_like (Beat.effect ob))
          (map clone_note (Beat.notes ob)).

Lemma append_at_run (i : nat) (x : loc) (rows : list (list loc)) (row : list loc) (s : state) :
  rows !! i = Some row -> append_at i x rows s = (Ok (<[i := row ++ [x]]> rows), s).
Proof. intros H. unfold append_at. rewrite H. reflexivity. Qed.

Lemma subdivision_row_run (ob : Beat.t) (t : Z) (notes : list Note.t) :
  forall (i : nat) (rows : list (list loc)) (s : state),
    i + length notes <= length rows ->
    exists rows',
      subdivision_row ob t i notes rows s
      = (Ok rows', alloc_list (map (single_note_beat ob t) notes) s) /\
      length rows' = length rows /\
      forall j row, rows !! j = Some row ->
        exists row', rows' !! j = Some row' /\
          length row' = if bool_decide (i <= j < i + length notes)
                        then S (length row) else length row.
Proof.
  induction notes as [|note rest IH]; intros i rows s Hlen; simpl in *.
  - exists rows. split; [reflexivity|]. split; [reflexivity|].
    intros j row Hj. exists row. split; [exact Hj|].
    rewrite bool_decide_eq_false_2 by lia. reflexivity.
  - destruct (lookup_lt_is_Some_2 rows i) as [row0 Hrow0]; [lia|].
    erewrite bind_ok by apply alloc_run.
    erewrite bind_ok by (apply append_at_run; exact Hrow0).
    destruct (IH (S i) (<[i := row0 ++ [next_id s]]> rows) (alloc_list
                [single_note_beat ob t note] s)) as (rows' & Hrun & Hl & Hrows).
    { rewrite length_insert. lia. }
    exists rows'. split; [exact Hrun|]. rewrite length_insert in Hl. split; [exact Hl|].
    intros j row Hj. destruct (decide (j = i)) as [->|Hne].
    + destruct (Hrows i (row0 ++ [next_id s])) as (row' & Hr' & Hlr').
      { apply list_lookup_insert_eq. lia. }
      exists row'. split; [exact Hr'|]. rewrite Hlr'.
      rewrite bool_decide_eq_false_2 by lia. rewrite bool_decide_eq_true_2 by lia.
      rewrite length_app. simpl. rewrite Hrow0 in Hj. inversion Hj; subst. lia.
    + destruct (Hrows j row) as (row' & Hr' & Hlr').
      { rewrite list_lookup_insert_ne by congruence. exact Hj. }
      exists row'. split; [exact Hr'|]. rewrite Hlr'.
      destruct (decide (S i <= j < S i + length rest)).
      * rewrite !bool_decide_eq_true_2 by lia. reflexivity.
      * rewrite !bool_decide_eq_false_2 by lia. reflexivity.
Qed.

(** One run of the row loop lengthens every stream by one beat. *)
Lemma subdivision_row_streams (ob : Beat.t) (t : Z) (rows : list (list loc))
    (s : state) (c : nat) :
  length rows = length (Beat.notes ob) ->
  Forall (fun row => length row = c) rows ->
  exists rows',
    subdivision_row ob t 0 (Beat.notes ob) rows s
    = (Ok rows', alloc_list (map (single_note_beat ob t) (Beat.notes ob)) s) /\
    length rows' = length (Beat.notes ob) /\
    Forall (fun row => length row = S c) rows'.
Proof.
  intros Hlen Hall.
  destruct (subdivision_row_run ob t (Beat.notes ob) 0 rows s) as (rows' & Hrun & Hl & Hrows);
    [lia|].
  exists rows'. split; [exact Hrun|]. split; [lia|].
  apply Forall_lookup. intros j row' Hj.
  destruct (lookup_lt_is_Some_2 rows j) as [row Hrow].
  { rewrite <- Hl. eapply lookup_lt_Some. exact Hj. }
  destruct (Hrows j row Hrow) as (row'' & Hr'' & Hlr'').
  rewrite Hj in Hr''. inversion Hr''; subst.
  rewrite Hlr''. rewrite bool_decide_eq_true_2.
  - f_equal. eapply (proj1 (Forall_lookup _ _) Hall). exact Hrow.
  - apply lookup_lt_Some in Hrow. lia.
Qed.

Lemma subdivision_loop_exit (ob : Beat.t) (t : Z) (tf r : Q) (rows : list (list loc))
    (s : state) :
  (r < tf)%Q -> subdivision_loop ob t tf r rows s = (Ok rows, s).
Proof.
  intros H. rewrite subdivision_loop_equation_1.
  destruct (Qlt_le_dec r tf) as [Hlt|Hge]; [reflexivity|].
  exfalso. exact (Qlt_not_le _ _ H Hge).
Qed.

Lemma subdivision_loop_step (ob : Beat.t) (t : Z) (tf r : Q) (rows rows' : list (list loc))
    (s s' : state) :
  (tf <= r)%Q -> (0 < tf)%Q ->
  subdivision_row ob t 0 (Beat.notes ob) rows s = (Ok rows', s') ->
  subdivision_loop ob t tf r rows s
  = subdivision_loop ob t tf (Fraction_sub r tf) rows' s'.
Proof.
  intros Hge Hpos Hrow. rewrite subdivision_loop_equation_1.
  destruct (Qlt_le_dec r tf) as [Hlt|Hge'].
  - exfalso. exact (Qlt_not_le _ _ Hlt Hge).
  - simpl. rewrite Hrow. simpl.
    destruct (Qlt_le_dec 0 tf) as [Hpos'|Hle]; [reflexivity|].
    exfalso. exact (Qlt_not_le _ _ Hpos Hle).
Qed.

Lemma floor_quotient_small (tf r : Q) :
  (0 < tf)%Q -> (r < tf)%Q -> (Qfloor (r / tf) <= 0)%Z.
Proof.
  intros Hpos Hlt.
  assert (H1 : (r / tf < 1)%Q).
  { apply Qlt_shift_div_r; [exact Hpos|]. rewrite Qmult_1_l. exact Hlt. }
  apply Z.lt_succ_r. rewrite Zlt_Qlt.
  eapply Qle_lt_trans; [apply Qfloor_le|]. exact H1.
Qed.

Lemma floor_quotient_large (tf r : Q) :
  (0 < tf)%Q -> (tf <= r)%Q -> (1 <= Qfloor (r / tf))%Z.
Proof.
  intros Hpos Hge.
  assert (H1 : (1 <= r / tf)%Q).
  { apply Qle_shift_div_l; [exact Hpos|]. rewrite Qmult_1_l. exact Hge. }
  change 1%Z with (Qfloor 1). apply Qfloor_resp_le. exact H1.
Qed.

(** The [while] loop takes as many turns as target units fit in the
    remainder, and each turn creates one beat per note. *)
Lemma subdivision_loop_run (ob : Beat.t) (t : Z) (tf : Q) (k : nat) :
  (0 < tf)%Q ->
  forall (r : Q) (rows : list (list loc)) (s : state) (c : nat),
    Z.to_nat (Qfloor (r / tf)) = k ->
    length rows = length (Beat.notes ob) ->
    Forall (fun row => length row = c) rows ->
    exists rows',
      subdivision_loop ob t tf r rows s
      = (Ok rows',
         alloc_list (concat (replicate k (map (single_note_beat ob t) (Beat.notes ob)))) s) /\
      length rows' = length (Beat.notes ob) /\
      Forall (fun row => length row = c + k) rows'.
Proof.
  intros Hpos. induction k as [|k IH]; intros r rows s c Hk Hlen Hall.
  - assert (Hlt : (r < tf)%Q).
    { destruct (Qlt_le_dec r tf) as [Hlt|Hge]; [exact Hlt|].
      pose proof (floor_quotient_large tf r Hpos Hge). lia. }
    exists rows. rewrite subdivision_loop_exit by exact Hlt.
    split; [reflexivity|]. split; [exact Hlen|].
    rewrite Nat.add_0_r. exact Hall.
  - assert (Hge : (tf <= r)%Q).
    { destruct (Qlt_le_dec r tf) as [Hlt|Hge]; [|exact Hge].
      pose proof (floor_quotient_small tf r Hpos Hlt). lia. }
    destruct (subdivision_row_streams ob t rows s c Hlen Hall) as (rows1 & Hrow & Hl1 & Hall1).
    rewrite (subdivision_loop_step ob t tf r rows rows1 s _ Hge Hpos Hrow).
    destruct (IH (Fraction_sub r tf) rows1
                (alloc_list (map (single_note_beat ob t) (Beat.notes ob)) s) (S c))
      as (rows' & Hrun & Hl' & Hall').
    { rewrite subdivision_step_floor by exact Hpos. lia. }
    { exact Hl1. }
    { exact Hall1. }
    exists rows'. split.
    + rewrite Hrun. simpl. rewrite alloc_list_app. reflexivity.
    + split; [exact Hl'|]. replace (c + S k) with (S c + k) by lia. exact Hall'.
Qed.

Lemma chord_beats_run (ob : Beat.t) (t : Z) (k : nat) :
  forall (new_beats : list loc) (s : state),
    chord_beats k ob t new_beats s
    = (Ok (new_beats ++ seq (next_id s) k), alloc_list (replicate k (chord_beat ob t)) s).
Proof.
  induction k as [|k IH]; intros new_beats s; simpl.
  - rewrite app_nil_r. reflexivity.
  - erewrite bind_ok by apply alloc_run. rewrite IH.
    rewrite <- app_assoc. reflexivity.
Qed.

(** The target duration that a speed object resolves to, and what the
    resolution prints. *)
Definition resolved_target (speed : option TremoloPicking.t) : Z :=
  match speed with
  | Some sp =>
      let speed_value := Duration.value (TremoloPicking.duration sp) in
      if (speed_value =? 8)%Z then 8%Z
      else if (speed_value =? 16)%Z then 16%Z
      else if (speed_value =? 32)%Z then 32%Z
      else 16%Z
  | None => 16%Z
  end.

Definition resolve_warnings (speed : option TremoloPicking.t) : list msg :=
  match speed with
  | Some sp =>
      let speed_value := Duration.value (TremoloPicking.duration sp) in
      if (speed_value =? 8)%Z then []
      else if (speed_value =? 16)%Z then []
      else if (speed_value =? 32)%Z then []
      else [WarnUnknownTremoloValue speed_value]
  | None => [WarnSpeedObjectNotFound]
  end.

(** The number of target units that fit in the beat, for a beat that has
    notes: the floor of the exact quotient. *)
Definition slot_count (b : Beat.t) (target_duration : Z) : nat :=
  match Beat.notes b, get_beat_duration_fraction b with
  | _ :: _, Ok original_fraction =>
      Z.to_nat (Qfloor (original_fraction / (1 / inject_Z target_duration)))
  | _, _ => 0
  end.

Lemma length_concat_replicate {A} (k : nat) (l : list A) :
  length (concat (replicate k l)) = k * length l.
Proof. induction k as [|k IH]; simpl; [reflexivity|]. rewrite length_app, IH. lia. Qed.

Lemma add_stdout_nil (s : state) : add_stdout [] s = s.
Proof. destruct s as [h n o]. unfold add_stdout. simpl. rewrite app_nil_r. reflexivity. Qed.

Lemma resolve_target_duration_run (speed : option TremoloPicking.t) (s : state) :
  resolve_target_duration speed s
  = (Ok (Some (resolved_target speed)), add_stdout (resolve_warnings speed) s).
Proof.
  unfold resolve_target_duration, resolved_target, resolve_warnings.
  destruct speed as [sp|]; [|reflexivity].
  cbv zeta.
  destruct (Duration.value (TremoloPicking.duration sp) =? 8)%Z;
    [rewrite add_stdout_nil; reflexivity|].
  destruct (Duration.value (TremoloPicking.duration sp) =? 16)%Z;
    [rewrite add_stdout_nil; reflexivity|].
  destruct (Duration.value (TremoloPicking.duration sp) =? 32)%Z;
    [rewrite add_stdout_nil; reflexivity|].
  reflexivity.
Qed.

Lemma resolved_target_cases (speed : option TremoloPicking.t) :
  resolved_target speed = 8%Z \/ resolved_target speed = 16%Z \/ resolved_target speed = 32%Z.
Proof.
  unfold resolved_target. destruct speed as [sp|]; [|auto]. cbv zeta.
  destruct (_ =? 8)%Z; [auto|]. destruct (_ =? 16)%Z; [auto|].
  destruct (_ =? 32)%Z; auto.
Qed.

Lemma target_fraction_run (t : Z) :
  t = 8%Z \/ t = 16%Z \/ t = 32%Z ->
  exists tf, duration_to_fraction t false false = Ok tf /\ (0 < tf)%Q /\
             (tf == 1 / inject_Z t)%Q.
Proof.
  intros [-> | [-> | ->]]; eexists; (split; [reflexivity|]); split; reflexivity.
Qed.

(** What a call of the subdivider returns and leaves behind: [k] fresh
    chord beats, created after the [k] rounds of single-note beats of the
    [while] loop. *)
Lemma create_individual_notes_run (l : loc) (v : Voice.t)
    (speed : option TremoloPicking.t) (s : state) :
  Duration.value (Beat.duration (heap s !!! l)) <> 0%Z ->
  let ob := heap s !!! l in
  let t := resolved_target speed in
  let k := slot_count ob t in
  create_individual_notes l v speed s
  = (Ok (seq (next_id s + k * length (Beat.notes ob)) k),
     alloc_list (concat (replicate k (map (single_note_beat ob t) (Beat.notes ob)))
                 ++ replicate k (chord_beat ob t))
       (add_stdout (resolve_warnings speed) s)).
Proof.
  intros Hd ob t k.
  destruct (get_beat_duration_fraction_defined ob Hd) as (orig & Horig).
  destruct (target_fraction_run t (resolved_target_cases speed)) as (tf & Htf & Hpos & Heq).
  unfold create_individual_notes.
  erewrite bind_ok by reflexivity. fold ob.
  erewrite bind_ok by (unfold lift; rewrite Horig; reflexivity).
  erewrite bind_ok by apply resolve_target_duration_run. fold t. cbv iota.
  erewrite bind_ok by (unfold lift; rewrite Htf; reflexivity).
  unfold k, slot_count. rewrite Horig.
  destruct (Beat.notes ob) as [|note rest] eqn:Hnotes.
  - simpl. reflexivity.
  - change (0 <? length (note :: rest)) with true. cbv iota.
    rewrite <- Hnotes.
    set (k' := Z.to_nat (Qfloor (orig / (1 / inject_Z t)))).
    destruct (subdivision_loop_run ob t tf k' Hpos orig
                (replicate (length (Beat.notes ob)) [])
                (add_stdout (resolve_warnings speed) s) 0)
      as (rows & Hrun & Hlen & Hall).
    { unfold k'. f_equal. apply Qfloor_comp. rewrite Heq. reflexivity. }
    { apply length_replicate. }
    { apply Forall_replicate. reflexivity. }
    erewrite bind_ok by exact Hrun.
    destruct rows as [|first rows].
    { rewrite Hnotes in Hlen. discriminate. }
    apply Forall_cons in Hall as [Hfirst _]. simpl in Hfirst.
    destruct first as [|x first].
    + simpl in Hfirst. rewrite <- Hfirst. simpl. reflexivity.
    + rewrite chord_beats_run. rewrite Hfirst.
      rewrite next_id_alloc_list, alloc_list_app.
      rewrite length_concat_replicate, length_map. reflexivity.
Qed.

Lemma Qfloor_nonneg (q : Q) : (0 <= q)%Q -> (0 <= Qfloor q)%Z.
Proof. intros H. change 0%Z with (Qfloor 0). apply Qfloor_resp_le. exact H. Qed.

Lemma slot_count_floor (b : Beat.t) (t : Z) (original_fraction : Q) :
  Beat.notes b <> [] ->
  get_beat_duration_fraction b = Ok original_fraction ->
  (0 < Duration.value (Beat.duration b))%Z ->
  (0 < t)%Z ->
  Z.of_nat (slot_count b t) = Qfloor (original_fraction / (1 / inject_Z t)).
Proof.
  intros Hnotes Hfrac Hd Ht. unfold slot_count. rewrite Hfrac.
  destruct (Beat.notes b) as [|note rest]; [congruence|].
  apply Z2Nat.id, Qfloor_nonneg.
  assert (Hpos : (0 < original_fraction)%Q).
  { unfold get_beat_duration_fraction in Hfrac.
    apply duration_to_fraction_sign in Hfrac. apply Hfrac. exact Hd. }
  assert (Htpos : (0 < 1 / inject_Z t)%Q).
  { destruct t as [|p|p]; try lia. reflexivity. }
  apply Qlt_le_weak. apply Qlt_shift_div_l; [exact Htpos|].
  rewrite Qmult_0_l. exact Hpos.
Qed.

(** The chord beats of the subdivider, as the caller finds them. *)
Lemma create_individual_notes_spec (l : loc) (v : Voice.t)
    (speed : option TremoloPicking.t) (s : state) :
  Duration.value (Beat.duration (heap s !!! l)) <> 0%Z ->
  exists new_beats s',
    create_individual_notes l v speed s = (Ok new_beats, s') /\
    length new_beats = slot_count (heap s !!! l) (resolved_target speed) /\
    NoDup new_beats /\
    next_id s <= next_id s' /\
    stdout s' = stdout s ++ resolve_warnings speed /\
    (forall l', l' < next_id s -> heap s' !! l' = heap s !! l') /\
    Forall (fun nb => next_id s <= nb < next_id s' /\
                      heap s' !! nb
                      = Some (chord_beat (heap s !!! l) (resolved_target speed)))
           new_beats.
Proof.
  intros Hd. pose proof (create_individual_notes_run l v speed s Hd) as Hrun.
  cbv zeta in Hrun.
  set (ob := heap s !!! l) in *. set (t := resolved_target speed) in *.
  set (k := slot_count ob t) in *.
  set (rounds := concat (replicate k (map (single_note_beat ob t) (Beat.notes ob)))) in *.
  assert (Hrounds : length rounds = k * length (Beat.notes ob)).
  { unfold rounds. rewrite length_concat_replicate, length_map. reflexivity. }
  eexists _, _. split; [exact Hrun|].
  split; [apply length_seq|]. split; [apply NoDup_seq|].
  rewrite next_id_alloc_list, stdout_alloc_list. simpl.
  split; [lia|]. split; [reflexivity|]. split.
  - intros l' Hl'. rewrite heap_alloc_list_old by (simpl; lia). reflexivity.
  - apply Forall_forall. intros nb Hnb. apply elem_of_seq in Hnb.
    rewrite length_app, length_replicate. split; [lia|].
    replace nb with (next_id (add_stdout (resolve_warnings speed) s)
                     + (length rounds + (nb - (next_id s + k * length (Beat.notes ob)))))
      by (simpl; lia).
    apply heap_alloc_list_new.
    rewrite lookup_app_r by lia.
    replace (length rounds + _ - length rounds)
      with (nb - (next_id s + k * length (Beat.notes ob))) by lia.
    apply lookup_replicate_2. lia.
Qed.

(** A clone of a note: the same pitch value, string, type and velocity,
    and a neutral effect. *)
Definition is_clone (clone note : Note.t) : Prop :=
  Note.value clone = Note.value note /\
  Note.string clone = Note.string note /\
  Note.type clone = Note.type note /\
  Note.velocity clone = Note.velocity note /\
  has_marker (Note.effect clone) = false.

(** A replacement beat for [ob] at the target duration [t]: the duration
    value [t] with no dot, a neutral effect, and a clone of every note of
    [ob], in order. *)
Definition is_replacement (ob : Beat.t) (t : Z) (b : Beat.t) : Prop :=
  Duration.value (Beat.duration b) = t /\
  truthy_flag (Duration.isDotted (Beat.duration b)) = false /\
  truthy_flag (Duration.isDoubleDotted (Beat.duration b)) = false /\
  has_marker (Beat.effect b) = false /\
  Forall2 is_clone (Beat.notes b) (Beat.notes ob).

Lemma new_effect_like_neutral (e : Effect.t) : has_marker (new_effect_like e) = false.
Proof. unfold has_marker, new_effect_like. destruct (Effect.tremoloPicking e); reflexivity. Qed.

Lemma chord_beat_replacement (ob : Beat.t) (t : Z) : is_replacement ob t (chord_beat ob t).
Proof.
  unfold is_replacement. simpl. split; [reflexivity|].
  split; [destruct (Duration.isDotted (Beat.duration ob)); reflexivity|].
  split; [destruct (Duration.isDoubleDotted (Beat.duration ob)); reflexivity|].
  split; [apply new_effect_like_neutral|].
  induction (Beat.notes ob) as [|note rest IH]; simpl; constructor; [|exact IH].
  unfold is_clone. simpl. repeat split. apply new_effect_like_neutral.
Qed.

(** The target resolved from a speed object of value 8, 16 or 32 is that
    value. *)
Lemma resolved_target_recognised (sp : TremoloPicking.t) :
  let v := Duration.value (TremoloPicking.duration sp) in
  v = 8%Z \/ v = 16%Z \/ v = 32%Z -> resolved_target (Some sp) = v.
Proof.
  intros v Hv. unfold resolved_target. fold v.
  destruct Hv as [-> | [-> | ->]]; reflexivity.
Qed.

(** C1: for a beat with at least one note (and a duration value that is
    positive, as a note value is) and the target duration [t] that the speed
    object resolves to, which is 8, 16 or 32 (the value of the speed object
    when that is one of the three), [create_individual_notes] returns exactly
    [floor(originalFraction / (1/t))] beats, where [originalFraction] is
    one over the duration value of the beat, times 7/4 when it is
    double-dotted and times 3/2 when it is only dotted; each of them is a
    new beat of
    duration value [t] with no dot, with a neutral effect, and with one
    clone per note of the original beat, in order, of the same value,
    string, type and velocity and with a neutral effect. *)
Theorem create_individual_notes_subdivides (l : loc) (v : Voice.t)
    (speed : option TremoloPicking.t) (s : state) :
  let ob := heap s !!! l in
  let t := resolved_target speed in
  Beat.notes ob <> [] ->
  (0 < Duration.value (Beat.duration ob))%Z ->
  (t = 8%Z \/ t = 16%Z \/ t = 32%Z) /\
  (forall sp,
     speed = Some sp ->
     Duration.value (TremoloPicking.duration sp) = 8%Z \/
     Duration.value (TremoloPicking.duration sp) = 16%Z \/
     Duration.value (TremoloPicking.duration sp) = 32%Z ->
     t = Duration.value (TremoloPicking.duration sp)) /\
  exists new_beats s',
    create_individual_notes l v speed s = (Ok new_beats, s') /\
    Z.of_nat (length new_beats)
    = Qfloor (note_value_fraction (Beat.duration ob) / (1 / inject_Z t)) /\
    NoDup new_beats /\
    Forall (fun nb => next_id s <= nb /\ is_replacement ob t (heap s' !!! nb)) new_beats.
Proof.
  intros ob t Hnotes Hd.
  pose proof (resolved_target_cases speed) as Ht. fold t in Ht.
  split; [exact Ht|]. split.
  { intros sp -> Hsp. apply resolved_target_recognised. exact Hsp. }
  destruct (get_beat_duration_fraction_written ob) as (orig & Horig & Hwritten); [lia|].
  destruct (create_individual_notes_spec l v speed s)
    as (new_beats & s' & Hrun & Hlen & Hnodup & _ & _ & _ & Hnew); [fold ob; lia|].
  fold ob in Hlen, Hnew. fold t in Hlen, Hnew.
  exists new_beats, s'. split; [exact Hrun|].
  split.
  { rewrite Hlen.
    assert (Hquot : (note_value_fraction (Beat.duration ob) / (1 / inject_Z t)
                     == orig / (1 / inject_Z t))%Q) by (rewrite Hwritten; reflexivity).
    rewrite (Qfloor_comp _ _ Hquot).
    apply slot_count_floor; try assumption.
    destruct Ht as [-> | [-> | ->]]; lia. }
  split; [exact Hnodup|].
  eapply Forall_impl; [exact Hnew|]. intros nb [Hrange Hnb].
  rewrite (lookup_total_correct _ _ _ Hnb).
  split; [lia|]. apply chord_beat_replacement.
Qed.

Definition sixteenth_speed : TremoloPicking.t :=
  TremoloPicking.mk (Duration.mk 16 (Some false) None None None).

Definition plain_note (value : Z) (string : Z) : Note.t :=
  Note.mk value string NoteType.normal 95 (Effect.mk (Some None)).

(** An eighth-note chord of three notes, the first of which carries the
    tremolo marker. *)
Definition eighth_chord : Beat.t :=
  Beat.mk (Duration.mk 8 (Some false) None None None) (Effect.mk None)
    [Note.mk 7 1 NoteType.normal 95 (Effect.mk (Some (Some sixteenth_speed)));
     plain_note 5 2; plain_note 3 3].

Definition chord_state : state := mkState {[ 0 := eighth_chord ]} 1 [].

Lemma create_individual_notes_subdivides_witness :
  exists new_beats s',
    create_individual_notes 0 (Voice.mk 0 [0]) (Some sixteenth_speed) chord_state
    = (Ok new_beats, s') /\
    Z.of_nat (length new_beats)
    = Qfloor (note_value_fraction (Beat.duration eighth_chord) / (1 / inject_Z 16)) /\
    NoDup new_beats /\
    Forall (fun nb => 1 <= nb /\ is_replacement eighth_chord 16 (heap s' !!! nb)) new_beats.
Proof.
  apply (create_individual_notes_subdivides 0 (Voice.mk 0 [0]) (Some sixteenth_speed)
           chord_state).
  - discriminate.
  - reflexivity.
Defined.

(** The chord example of the specification: two sixteenth beats. *)
Lemma create_individual_notes_eighth_chord :
  fst (create_individual_notes 0 (Voice.mk 0 [0]) (Some sixteenth_speed) chord_state)
  = Ok [7; 8].
Proof. vm_compute. reflexivity. Qed.

(** C6: when the speed object is absent, or present with a value other than
    8, 16 and 32, [create_individual_notes] (on a beat whose duration value
    is not zero) does not raise: it prints one warning and returns the very
    beats, with the very contents, that it returns for an explicit speed of
    16, which prints nothing. *)
Theorem create_individual_notes_fallback (l : loc) (v : Voice.t)
    (speed : option TremoloPicking.t) (sixteenth : TremoloPicking.t) (s : state) :
  Duration.value (Beat.duration (heap s !!! l)) <> 0%Z ->
  Duration.value (TremoloPicking.duration sixteenth) = 16%Z ->
  (speed = None \/
   exists sp, speed = Some sp /\
     Duration.value (TremoloPicking.duration sp) <> 8%Z /\
     Duration.value (TremoloPicking.duration sp) <> 16%Z /\
     Duration.value (TremoloPicking.duration sp) <> 32%Z) ->
  exists new_beats s' s16 warning,
    create_individual_notes l v speed s = (Ok new_beats, s') /\
    create_individual_notes l v (Some sixteenth) s = (Ok new_beats, s16) /\
    length new_beats = slot_count (heap s !!! l) 16 /\
    heap s' = heap s16 /\
    next_id s' = next_id s16 /\
    stdout s16 = stdout s /\
    stdout s' = stdout s ++ [warning].
Proof.
  intros Hd H16 Hspeed.
  assert (Ht16 : resolved_target (Some sixteenth) = 16%Z).
  { unfold resolved_target. rewrite H16. reflexivity. }
  assert (Hw16 : resolve_warnings (Some sixteenth) = []).
  { unfold resolve_warnings. rewrite H16. reflexivity. }
  assert (Hfall : resolved_target speed = 16%Z /\ exists w, resolve_warnings speed = [w]).
  { destruct Hspeed as [-> | (sp & -> & H8 & H16' & H32)].
    - split; [reflexivity|]. eexists. reflexivity.
    - unfold resolved_target, resolve_warnings. cbv zeta.
      apply Z.eqb_neq in H8, H16', H32. rewrite H8, H16', H32.
      split; [reflexivity|]. eexists. reflexivity. }
  destruct Hfall as (Ht & w & Hw).
  pose proof (create_individual_notes_run l v speed s Hd) as Hrun.
  pose proof (create_individual_notes_run l v (Some sixteenth) s Hd) as Hrun16.
  cbv zeta in Hrun, Hrun16. rewrite Ht, Hw in Hrun. rewrite Ht16, Hw16 in Hrun16.
  eexists _, _, _, w. split; [exact Hrun|]. split; [exact Hrun16|].
  split; [apply length_seq|].
  rewrite !alloc_list_add_stdout. simpl. rewrite app_nil_r, stdout_alloc_list.
  repeat split; reflexivity.
Qed.

Definition unknown_speed : TremoloPicking.t :=
  TremoloPicking.mk (Duration.mk 5 (Some false) None None None).

Lemma create_individual_notes_fallback_witness :
  exists new_beats s' s16 warning,
    create_individual_notes 0 (Voice.mk 0 [0]) (Some unknown_speed) chord_state
    = (Ok new_beats, s') /\
    create_individual_notes 0 (Voice.mk 0 [0]) (Some sixteenth_speed) chord_state
    = (Ok new_beats, s16) /\
    length new_beats = slot_count (heap chord_state !!! 0) 16 /\
    heap s' = heap s16 /\
    next_id s' = next_id s16 /\
    stdout s16 = stdout chord_state /\
    stdout s' = stdout chord_state ++ [warning].
Proof.
  apply (create_individual_notes_fallback 0 (Voice.mk 0 [0]) (Some unknown_speed)
           sixteenth_speed chord_state).
  - vm_compute. discriminate.
  - reflexivity.
  - right. exists unknown_speed. repeat split; vm_compute; discriminate.
Defined.

(** ** The timing validator *)

(** The fraction of a beat, where it has one. *)
Definition beat_fraction (b : Beat.t) : Q :=
  match get_beat_duration_fraction b with
  | Ok q => q
  | _ => 0%Q
  end.

Definition fractions (h : gmap loc Beat.t) (beats : list loc) : list Q :=
  map (fun l => beat_fraction (h !!! l)) beats.

(** The exact sum of the durations of a list of beats, as the validator
    computes it. *)
Definition voice_duration (h : gmap loc Beat.t) (beats : list loc) : outcome Q :=
  fst (sum_beat_durations beats 0%Q (mkState h 0 [])).

Definition nonzero_durations (h : gmap loc Beat.t) (beats : list loc) : Prop :=
  Forall (fun l => Duration.value (Beat.duration (h !!! l)) <> 0%Z) beats.

Definition positive_durations (h : gmap loc Beat.t) (beats : list loc) : Prop :=
  Forall (fun l => (0 < Duration.value (Beat.duration (h !!! l)))%Z) beats.

(** How many leading fractions fit, one after the other, under the
    capacity. *)
Fixpoint fitting (capacity current : Q) (qs : list Q) : nat :=
  match qs with
  | [] => 0
  | q :: rest =>
      if Qle_bool (Fraction_add current q) capacity
      then S (fitting capacity (Fraction_add current q) rest)
      else 0
  end.

Lemma positive_nonzero_durations (h : gmap loc Beat.t) (beats : list loc) :
  positive_durations h beats -> nonzero_durations h beats.
Proof. intros H. eapply Forall_impl; [exact H|]. intros l Hl. simpl in Hl. lia. Qed.

Lemma beat_fraction_run (b : Beat.t) :
  Duration.value (Beat.duration b) <> 0%Z ->
  get_beat_duration_fraction b = Ok (beat_fraction b).
Proof.
  intros Hd. destruct (get_beat_duration_fraction_defined b Hd) as (q & Hq).
  unfold beat_fraction. rewrite Hq. reflexivity.
Qed.

Lemma beat_fraction_positive (b : Beat.t) :
  (0 < Duration.value (Beat.duration b))%Z -> (0 < beat_fraction b)%Q.
Proof.
  intros Hd. pose proof (beat_fraction_run b ltac:(lia)) as Hq.
  unfold get_beat_duration_fraction in Hq.
  apply duration_to_fraction_sign in Hq. apply Hq. exact Hd.
Qed.

Lemma sum_beat_durations_run (beats : list loc) :
  forall (total : Q) (s : state),
    nonzero_durations (heap s) beats ->
    sum_beat_durations beats total s
    = (Ok (foldl Fraction_add total (fractions (heap s) beats)), s).
Proof.
  induction beats as [|l rest IH]; intros total s Hnz; simpl; [reflexivity|].
  apply Forall_cons in Hnz as [Hl Hrest].
  erewrite bind_ok by reflexivity.
  erewrite bind_ok by (unfold lift; rewrite (beat_fraction_run _ Hl); reflexivity).
  apply IH. exact Hrest.
Qed.

Lemma voice_duration_run (h : gmap loc Beat.t) (beats : list loc) :
  nonzero_durations h beats ->
  voice_duration h beats = Ok (foldl Fraction_add 0%Q (fractions h beats)).
Proof.
  intros Hnz. unfold voice_duration.
  rewrite sum_beat_durations_run by exact Hnz. reflexivity.
Qed.

Lemma keep_fitting_beats_run (capacity : Q) (beats : list loc) :
  forall (current : Q) (kept : list loc) (s : state),
    nonzero_durations (heap s) beats ->
    keep_fitting_beats capacity beats current kept s
    = (Ok (kept ++ take (fitting capacity current (fractions (heap s) beats)) beats), s).
Proof.
  induction beats as [|l rest IH]; intros current kept s Hnz; simpl.
  - rewrite app_nil_r. reflexivity.
  - apply Forall_cons in Hnz as [Hl Hrest].
    erewrite bind_ok by reflexivity.
    erewrite bind_ok by (unfold lift; rewrite (beat_fraction_run _ Hl); reflexivity).
    destruct (Qle_bool (Fraction_add current (beat_fraction (heap s !!! l))) capacity).
    + rewrite IH by exact Hrest. simpl. rewrite <- app_assoc. reflexivity.
    + simpl. rewrite app_nil_r. reflexivity.
Qed.

Lemma Fraction_add_correct (a b : Q) : (Fraction_add a b == a + b)%Q.
Proof. apply Qred_correct. Qed.

Lemma foldl_Fraction_add_le (qs : list Q) :
  Forall (fun q => (0 < q)%Q) qs ->
  forall current, (current <= foldl Fraction_add current qs)%Q.
Proof.
  induction 1 as [|q rest Hq Hrest IH]; intros current; simpl; [apply Qle_refl|].
  eapply Qle_trans; [|apply IH]. rewrite Fraction_add_correct.
  rewrite <- (Qplus_0_r current) at 1.
  apply Qplus_le_compat; [apply Qle_refl | apply Qlt_le_weak, Hq].
Qed.

(** Every nonempty prefix up to the fitting count stays within the
    capacity. *)
Lemma fitting_within (capacity : Q) (qs : list Q) :
  forall current j,
    0 < j <= fitting capacity current qs ->
    (foldl Fraction_add current (take j qs) <= capacity)%Q.
Proof.
  induction qs as [|q rest IH]; intros current j Hj; simpl in *; [lia|].
  destruct (Qle_bool (Fraction_add current q) capacity) eqn:Hle; [|lia].
  destruct j as [|j]; [lia|]. simpl.
  destruct j as [|j].
  - rewrite take_0. simpl. apply Qle_bool_iff. exact Hle.
  - apply IH. lia.
Qed.

(** The next prefix overflows. *)
Lemma fitting_next_overflows (capacity : Q) (qs : list Q) :
  forall current,
    fitting capacity current qs < length qs ->
    (capacity < foldl Fraction_add current
                  (take (S (fitting capacity current qs)) qs))%Q.
Proof.
  induction qs as [|q rest IH]; intros current Hlt; simpl in *; [lia|].
  destruct (Qle_bool (Fraction_add current q) capacity) eqn:Hle.
  - simpl. apply IH. lia.
  - rewrite take_0. simpl. apply Qnot_le_lt. intros H.
    apply Qle_bool_iff in H. congruence.
Qed.

(** With positive fractions, so does every longer prefix. *)
Lemma fitting_longest (capacity : Q) (qs : list Q) (current : Q) (j : nat) :
  Forall (fun q => (0 < q)%Q) qs ->
  fitting capacity current qs < j <= length qs ->
  (capacity < foldl Fraction_add current (take j qs))%Q.
Proof.
  intros Hpos Hj.
  assert (Hnext := fitting_next_overflows capacity qs current ltac:(lia)).
  remember (fitting capacity current qs) as k eqn:Hk. clear Hk.
  assert (Hsplit : take j qs = take (S k) qs ++ drop (S k) (take j qs)).
  { rewrite <- (take_drop (S k) (take j qs)) at 1.
    rewrite take_take. f_equal. f_equal. lia. }
  rewrite Hsplit, foldl_app.
  eapply Qlt_le_trans; [exact Hnext|].
  apply foldl_Fraction_add_le.
  apply Forall_drop, Forall_take. exact Hpos.
Qed.

(** The fitting count of a voice that overflows is short of its length. *)
Lemma fitting_strict (capacity : Q) (qs : list Q) :
  forall current,
    (current <= capacity)%Q ->
    (capacity < foldl Fraction_add current qs)%Q ->
    fitting capacity current qs < length qs.
Proof.
  induction qs as [|q rest IH]; intros current Hcur Hover; simpl in *.
  - exfalso. exact (Qlt_not_le _ _ Hover Hcur).
  - destruct (Qle_bool (Fraction_add current q) capacity) eqn:Hle; [|lia].
    apply Qle_bool_iff in Hle. specialize (IH _ Hle Hover). lia.
Qed.

Lemma fractions_take (h : gmap loc Beat.t) (beats : list loc) (j : nat) :
  fractions h (take j beats) = take j (fractions h beats).
Proof. unfold fractions. symmetry. apply firstn_map. Qed.

Lemma fractions_positive (h : gmap loc Beat.t) (beats : list loc) :
  positive_durations h beats -> Forall (fun q => (0 < q)%Q) (fractions h beats).
Proof.
  intros H. unfold fractions. apply Forall_map.
  eapply Forall_impl; [exact H|]. intros l Hl. apply beat_fraction_positive. exact Hl.
Qed.

(** What the validator does to one voice. *)
Lemma validate_voice_timing_run (capacity : Q) (voice_idx : nat) (voice : Voice.t)
    (s : state) :
  nonzero_durations (heap s) (Voice.beats voice) ->
  let total := foldl Fraction_add 0%Q (fractions (heap s) (Voice.beats voice)) in
  exists voice' s',
    validate_voice_timing capacity voice_idx voice s = (Ok voice', s') /\
    heap s' = heap s /\
    ((total <= capacity)%Q -> voice' = voice) /\
    ((capacity < total)%Q ->
     Voice.beats voice'
     = take (fitting capacity 0%Q (fractions (heap s) (Voice.beats voice)))
         (Voice.beats voice)).
Proof.
  intros Hnz total. unfold validate_voice_timing.
  erewrite bind_ok by (apply sum_beat_durations_run; exact Hnz). fold total.
  destruct (Qle_bool total capacity) eqn:Hle; simpl.
  - exists voice, s. split; [reflexivity|]. split; [reflexivity|].
    split; [reflexivity|]. intros Hover. apply Qle_bool_iff in Hle.
    exfalso. exact (Qlt_not_le _ _ Hover Hle).
  - assert (Hnle : ~ (total <= capacity)%Q).
    { intros H. apply Qle_bool_iff in H. congruence. }
    erewrite bind_ok by reflexivity.
    erewrite bind_ok by reflexivity.
    erewrite bind_ok by (apply keep_fitting_beats_run; exact Hnz).
    simpl.
    set (k := fitting capacity 0%Q (fractions (heap s) (Voice.beats voice))).
    destruct (length (take k (Voice.beats voice)) <? length (Voice.beats voice)) eqn:Hlt.
    + eexists _, _. split; [reflexivity|]. simpl.
      split; [reflexivity|]. split; [intros H; contradiction|]. reflexivity.
    + eexists _, _. split; [reflexivity|]. simpl.
      split; [reflexivity|]. split; [intros H; contradiction|]. intros _.
      apply Nat.ltb_ge in Hlt. rewrite length_take in Hlt.
      symmetry. apply take_ge. lia.
Qed.

(** One voice of a measure before and after validation. *)
Definition validated (capacity : Q) (h : gmap loc Beat.t) (voice voice' : Voice.t) : Prop :=
  let total := foldl Fraction_add 0%Q (fractions h (Voice.beats voice)) in
  ((total <= capacity)%Q -> voice' = voice) /\
  ((capacity < total)%Q ->
   Voice.beats voice'
   = take (fitting capacity 0%Q (fractions h (Voice.beats voice))) (Voice.beats voice)).

Lemma validate_voices_timing_run (capacity : Q) (voices : list Voice.t) :
  forall (voice_idx : nat) (s : state),
    Forall (fun voice => nonzero_durations (heap s) (Voice.beats voice)) voices ->
    exists voices' s',
      validate_voices_timing capacity voice_idx voices s = (Ok voices', s') /\
      heap s' = heap s /\
      Forall2 (validated capacity (heap s)) voices voices'.
Proof.
  induction voices as [|voice rest IH]; intros voice_idx s Hnz; simpl.
  - exists [], s. split; [reflexivity|]. split; [reflexivity|]. constructor.
  - apply Forall_cons in Hnz as [Hv Hrest].
    destruct (validate_voice_timing_run capacity voice_idx voice s Hv)
      as (voice' & s1 & Hrun & Hheap & Hin & Hover).
    destruct (IH (S voice_idx) s1) as (rest' & s' & Hrun' & Hheap' & Hall).
    { rewrite Hheap. exact Hrest. }
    erewrite bind_ok by exact Hrun.
    erewrite bind_ok by exact Hrun'.
    exists (voice' :: rest'), s'. split; [reflexivity|].
    split; [congruence|]. rewrite Hheap in Hall.
    constructor; [|exact Hall]. split; assumption.
Qed.

Lemma validate_measure_timing_run (measure : Measure.t) (s s1 : state) (capacity : Q) :
  get_time_signature_duration measure s = (Ok capacity, s1) ->
  Forall (fun voice => nonzero_durations (heap s) (Voice.beats voice))
         (Measure.voices measure) ->
  exists voices' s',
    validate_measure_timing measure s
    = (Ok (Measure.mk (Measure.header measure) voices'), s') /\
    heap s' = heap s /\
    Forall2 (validated capacity (heap s)) (Measure.voices measure) voices'.
Proof.
  intros Hcap Hnz.
  assert (Hheap1 : heap s1 = heap s).
  { revert Hcap. unfold get_time_signature_duration.
    destruct (Measure.header measure) as [h|]; [|intros H; inversion H; reflexivity].
    destruct (Header.timeSignature h) as [ts|]; [|intros H; inversion H; reflexivity].
    unfold try_except, lift.
    destruct (read_time_signature ts) as [q|e|].
    - intros H; inversion H; reflexivity.
    - destruct e; simpl; intros H; inversion H; reflexivity.
    - intros H; inversion H. }
  destruct (validate_voices_timing_run capacity (Measure.voices measure) 0 s1)
    as (voices' & s' & Hrun & Hheap & Hall).
  { rewrite Hheap1. exact Hnz. }
  unfold validate_measure_timing.
  erewrite bind_ok by exact Hcap.
  erewrite bind_ok by exact Hrun.
  exists voices', s'. split; [reflexivity|]. split; [congruence|].
  rewrite Hheap1 in Hall. exact Hall.
Qed.

Lemma Forall2_impl_Forall {A B} (P : A -> Prop) (R S : A -> B -> Prop)
    (l : list A) (l' : list B) :
  Forall P l -> Forall2 R l l' ->
  (forall x y, P x -> R x y -> S x y) ->
  Forall2 S l l'.
Proof.
  intros HP HR Himpl. induction HR as [|x y l l' Hxy HR IH]; constructor.
  - apply Himpl; [|exact Hxy]. apply Forall_cons in HP as [Hx _]. exact Hx.
  - apply IH. apply Forall_cons in HP as [_ Hl]. exact Hl.
Qed.

(** The plain sum of a list of rationals. *)
Definition Qsum (qs : list Q) : Q := foldr Qplus 0%Q qs.

Lemma foldl_Fraction_add_Qsum (qs : list Q) :
  forall a, (foldl Fraction_add a qs == a + Qsum qs)%Q.
Proof.
  induction qs as [|q rest IH]; intros a; simpl.
  - rewrite Qplus_0_r. reflexivity.
  - rewrite IH, Fraction_add_correct. unfold Qsum. simpl. ring.
Qed.

Lemma Qsum_app (qs rs : list Q) : (Qsum (qs ++ rs) == Qsum qs + Qsum rs)%Q.
Proof.
  induction qs as [|q rest IH]; unfold Qsum in *; simpl.
  - rewrite Qplus_0_l. reflexivity.
  - rewrite IH. ring.
Qed.

Lemma Qsum_constant (qs : list Q) (c : Q) :
  Forall (fun q => q = c) qs -> (Qsum qs == inject_Z (Z.of_nat (length qs)) * c)%Q.
Proof.
  induction 1 as [|q rest Hq _ IH]; unfold Qsum in *.
  - simpl. ring.
  - cbn [foldr length]. rewrite IH, Hq, Nat2Z.inj_succ. unfold Z.succ.
    rewrite inject_Z_plus. ring.
Qed.

(** The exact sum of the durations of a list of beats, written out with
    [note_value_fraction] and the sum of the rationals. *)
Definition written_total (h : gmap loc Beat.t) (beats : list loc) : Q :=
  Qsum (map (fun l => note_value_fraction (Beat.duration (h !!! l))) beats).

Lemma beat_fraction_written (b : Beat.t) :
  Duration.value (Beat.duration b) <> 0%Z ->
  (beat_fraction b == note_value_fraction (Beat.duration b))%Q.
Proof.
  intros Hd. destruct (get_beat_duration_fraction_written b Hd) as (q & Hq & Heq).
  unfold beat_fraction. rewrite Hq. exact Heq.
Qed.

Lemma Qsum_fractions_written (h : gmap loc Beat.t) (beats : list loc) :
  nonzero_durations h beats ->
  (Qsum (fractions h beats) == written_total h beats)%Q.
Proof.
  unfold written_total, fractions, Qsum.
  induction 1 as [|l rest Hl _ IH]; simpl; [reflexivity|].
  rewrite IH, (beat_fraction_written _ Hl). reflexivity.
Qed.

Lemma voice_duration_written (h : gmap loc Beat.t) (beats : list loc) (q : Q) :
  nonzero_durations h beats ->
  voice_duration h beats = Ok q ->
  (q == written_total h beats)%Q.
Proof.
  intros Hnz Hq. rewrite voice_duration_run in Hq by exact Hnz.
  inversion Hq; subst q.
  rewrite foldl_Fraction_add_Qsum, Qplus_0_l. apply Qsum_fractions_written. exact Hnz.
Qed.

Lemma Forall2_lookup_left {A B} (R : A -> B -> Prop) (l : list A) (k : list B)
    (i : nat) (x : A) :
  Forall2 R l k -> l !! i = Some x -> exists y, k !! i = Some y /\ R x y.
Proof.
  intros H. revert i. induction H as [|a b l k Hab _ IH]; intros i Hi.
  - discriminate.
  - destruct i as [|i]; simpl in *.
    + inversion Hi; subst. eauto.
    + apply IH. exact Hi.
Qed.

Lemma Fraction_quotient (n d : Z) :
  d <> 0%Z ->
  exists q, Fraction n d = Ok q /\ Qred q = q /\ (q == inject_Z n / inject_Z d)%Q.
Proof.
  intros Hd. destruct d as [|p|p]; [congruence| |]; simpl.
  - exists (Qred (n # p)). split; [reflexivity|]. split; [apply Qred_complete, Qred_correct|].
    rewrite Qred_correct. apply Qmake_Qdiv.
  - exists (Qred (- n # p)). split; [reflexivity|].
    split; [apply Qred_complete, Qred_correct|].
    rewrite Qred_correct. unfold Qeq, Qdiv, Qinv, Qmult, inject_Z. simpl. rewrite Pos.mul_1_l. lia.
Qed.

Lemma get_time_signature_duration_quotient (measure : Measure.t) (s s1 : state)
    (capacity : Q) (ts : TimeSignature.t) (n d : Z) :
  get_time_signature_duration measure s = (Ok capacity, s1) ->
  time_signature_attribute measure = Some (Some ts) ->
  TimeSignature.numerator ts = Some (VInt n) ->
  TimeSignature.denominator ts = Some (VInt d) ->
  d <> 0%Z ->
  (capacity == inject_Z n / inject_Z d)%Q.
Proof.
  intros Hcap Hts Hn Hd Hd0.
  destruct (Fraction_quotient n d Hd0) as (q & Hq & _ & Heq).
  unfold time_signature_attribute in Hts. unfold get_time_signature_duration in Hcap.
  destruct (Measure.header measure) as [h|]; [|discriminate]. rewrite Hts in Hcap.
  unfold try_except, lift, read_time_signature, ts_attribute in Hcap.
  rewrite Hn, Hd in Hcap. simpl in Hcap. rewrite Hq in Hcap.
  inversion Hcap; subst. exact Heq.
Qed.

(** [k] is the length of the longest prefix of [beats] whose cumulative
    duration, written out, is within the capacity. *)
Definition longest_prefix_within (capacity : Q) (h : gmap loc Beat.t)
    (beats : list loc) (k : nat) : Prop :=
  k <= length beats /\
  (written_total h (take k beats) <= capacity)%Q /\
  (forall j, k < j <= length beats -> (capacity < written_total h (take j beats))%Q).

(** C5: in a measure with a capacity that is not negative and beats of
    positive duration values, for every voice whose exact sum of durations
    (the sum of the fractions written out from the duration values and the
    dots) exceeds the capacity, the validator replaces the beat list by its
    longest prefix whose cumulative duration is within the capacity: the
    later beats are dropped, at least one of them, and no beat object is
    changed.  The capacity is what the validator reads from the time
    signature: the quotient of the numerator by the denominator when these
    are integers. *)
Theorem validate_measure_timing_truncates (measure : Measure.t) (s s1 : state)
    (capacity : Q) (i : nat) (voice : Voice.t) :
  get_time_signature_duration measure s = (Ok capacity, s1) ->
  (0 <= capacity)%Q ->
  Forall (fun voice => positive_durations (heap s) (Voice.beats voice))
         (Measure.voices measure) ->
  Measure.voices measure !! i = Some voice ->
  (capacity < written_total (heap s) (Voice.beats voice))%Q ->
  (forall ts n d,
     time_signature_attribute measure = Some (Some ts) ->
     TimeSignature.numerator ts = Some (VInt n) ->
     TimeSignature.denominator ts = Some (VInt d) ->
     d <> 0%Z ->
     (capacity == inject_Z n / inject_Z d)%Q) /\
  exists measure' s' voice' k,
    validate_measure_timing measure s = (Ok measure', s') /\
    heap s' = heap s /\
    length (Measure.voices measure') = length (Measure.voices measure) /\
    Measure.voices measure' !! i = Some voice' /\
    k < length (Voice.beats voice) /\
    Voice.beats voice' = take k (Voice.beats voice) /\
    longest_prefix_within capacity (heap s) (Voice.beats voice) k.
Proof.
  intros Hcap Hnonneg Hpos Hi Hover.
  split.
  { intros ts n d. apply (get_time_signature_duration_quotient measure s s1). exact Hcap. }
  destruct (validate_measure_timing_run measure s s1 capacity Hcap)
    as (voices' & s' & Hrun & Hheap & Hall).
  { eapply Forall_impl; [exact Hpos|]. intros v. apply positive_nonzero_durations. }
  destruct (Forall2_lookup_left _ _ _ i voice Hall Hi) as (voice' & Hi' & Hv).
  assert (Hpv : positive_durations (heap s) (Voice.beats voice)).
  { exact (proj1 (Forall_lookup _ _) Hpos i voice Hi). }
  pose proof (positive_nonzero_durations _ _ Hpv) as Hnz.
  set (qs := fractions (heap s) (Voice.beats voice)) in *.
  assert (Hprefix : forall j,
             (foldl Fraction_add 0%Q (take j qs)
              == written_total (heap s) (take j (Voice.beats voice)))%Q).
  { intros j. rewrite foldl_Fraction_add_Qsum, Qplus_0_l.
    unfold qs. rewrite <- fractions_take.
    apply Qsum_fractions_written, Forall_take. exact Hnz. }
  assert (Htotal : (foldl Fraction_add 0%Q qs
                    == written_total (heap s) (Voice.beats voice))%Q).
  { rewrite foldl_Fraction_add_Qsum, Qplus_0_l.
    apply Qsum_fractions_written. exact Hnz. }
  assert (Hover' : (capacity < foldl Fraction_add 0%Q qs)%Q)
    by (rewrite Htotal; exact Hover).
  destruct Hv as [_ Hv]. specialize (Hv Hover').
  set (k := fitting capacity 0%Q qs) in *.
  assert (Hlenqs : length qs = length (Voice.beats voice)).
  { unfold qs, fractions. apply length_map. }
  assert (Hk : k < length (Voice.beats voice)).
  { rewrite <- Hlenqs. apply fitting_strict; assumption. }
  eexists _, s', voice', k. split; [exact Hrun|]. split; [exact Hheap|].
  split; [symmetry; exact (Forall2_length _ _ _ Hall)|].
  split; [exact Hi'|]. split; [exact Hk|]. split; [exact Hv|].
  split; [lia|]. split.
  - rewrite <- Hprefix.
    destruct (decide (k = 0)) as [Hk0|Hk0].
    + rewrite Hk0, take_0. exact Hnonneg.
    + apply fitting_within. fold k. lia.
  - intros j Hj. rewrite <- Hprefix.
    apply fitting_longest; [apply fractions_positive; exact Hpv|].
    fold k. lia.
Qed.

(** C10: the validator leaves every voice whose exact sum of durations is
    within the capacity as it is: the same list object, of the same
    references in the same order, and no beat object is changed. *)
Theorem validate_measure_timing_within_capacity (measure : Measure.t) (s s1 : state)
    (capacity : Q) :
  get_time_signature_duration measure s = (Ok capacity, s1) ->
  Forall (fun voice => nonzero_durations (heap s) (Voice.beats voice))
         (Measure.voices measure) ->
  exists measure' s',
    validate_measure_timing measure s = (Ok measure', s') /\
    heap s' = heap s /\
    Forall2 (fun voice voice' =>
               forall total,
                 voice_duration (heap s) (Voice.beats voice) = Ok total ->
                 (total <= capacity)%Q ->
                 voice' = voice)
            (Measure.voices measure) (Measure.voices measure').
Proof.
  intros Hcap Hnz.
  destruct (validate_measure_timing_run measure s s1 capacity Hcap Hnz)
    as (voices' & s' & Hrun & Hheap & Hall).
  eexists _, s'. split; [exact Hrun|]. split; [exact Hheap|]. simpl.
  eapply Forall2_impl_Forall; [exact Hnz | exact Hall |].
  intros voice voice' Hnv Hv total Htotal Hle.
  rewrite voice_duration_run in Htotal by exact Hnv. inversion Htotal; subst total.
  destruct Hv as [Hv _]. exact (Hv Hle).
Qed.

(** A measure in 4/4 with a voice of five quarter notes and a voice of two. *)
Definition quarter_beat : Beat.t :=
  Beat.mk (Duration.mk 4 (Some false) None None None) (Effect.mk None) [plain_note 5 1].

Definition quarters_state : state :=
  mkState (list_to_map (zip (seq 0 7) (replicate 7 quarter_beat))) 7 [].

Definition four_four : option Header.t :=
  Some (Header.mk (Some (Some (TimeSignature.mk (Some (VInt 4)) (Some (VInt 4)))))).

Definition crowded_measure : Measure.t :=
  Measure.mk four_four [Voice.mk 100 [0; 1; 2; 3; 4]; Voice.mk 101 [5; 6]].

Lemma validate_measure_timing_truncates_witness :
  (1 == inject_Z 4 / inject_Z 4)%Q /\
  exists measure' s' voice' k,
    validate_measure_timing crowded_measure quarters_state = (Ok measure', s') /\
    heap s' = heap quarters_state /\
    length (Measure.voices measure') = 2 /\
    Measure.voices measure' !! 0 = Some voice' /\
    k < 5 /\
    Voice.beats voice' = take k [0; 1; 2; 3; 4] /\
    longest_prefix_within 1 (heap quarters_state) [0; 1; 2; 3; 4] k.
Proof.
  destruct (validate_measure_timing_truncates crowded_measure quarters_state quarters_state
              1%Q 0 (Voice.mk 100 [0; 1; 2; 3; 4])) as [Hcapacity Hrun].
  - reflexivity.
  - discriminate.
  - repeat constructor.
  - reflexivity.
  - vm_compute. reflexivity.
  - split; [|exact Hrun].
    apply (Hcapacity (TimeSignature.mk (Some (VInt 4)) (Some (VInt 4))) 4%Z 4%Z).
    + reflexivity.
    + reflexivity.
    + reflexivity.
    + discriminate.
Defined.

Lemma validate_measure_timing_within_capacity_witness :
  exists measure' s',
    validate_measure_timing crowded_measure quarters_state = (Ok measure', s') /\
    heap s' = heap quarters_state /\
    Forall2 (fun voice voice' =>
               forall total,
                 voice_duration (heap quarters_state) (Voice.beats voice) = Ok total ->
                 (total <= 1)%Q ->
                 voice' = voice)
            (Measure.voices crowded_measure) (Measure.voices measure').
Proof.
  apply (validate_measure_timing_within_capacity crowded_measure quarters_state
           quarters_state 1%Q).
  - reflexivity.
  - repeat constructor; vm_compute; discriminate.
Defined.

(** The example of the specification: five quarters in 4/4 are cut to
    four, and the voice of two quarters keeps its list. *)
Lemma validate_measure_timing_five_quarters :
  fst (validate_measure_timing crowded_measure quarters_state)
  = Ok (Measure.mk four_four [Voice.mk 7 [0; 1; 2; 3]; Voice.mk 101 [5; 6]]).
Proof. vm_compute. reflexivity. Qed.

(** ** Detection *)

Lemma beat_positions_from_run (beats : list loc) :
  forall (current_pos : Q) (positions : list Q) (s : state),
    nonzero_durations (heap s) beats ->
    exists found,
      beat_positions_from current_pos beats positions s = (Ok (positions ++ found), s) /\
      length found = length beats.
Proof.
  induction beats as [|l rest IH]; intros current_pos positions s Hnz; simpl.
  - exists []. rewrite app_nil_r. split; reflexivity.
  - apply Forall_cons in Hnz as [Hl Hrest].
    erewrite bind_ok by reflexivity.
    erewrite bind_ok by (unfold lift; rewrite (beat_fraction_run _ Hl); reflexivity).
    destruct (IH (Fraction_add current_pos (beat_fraction (heap s !!! l)))
                (positions ++ [current_pos]) s Hrest) as (found & Hrun & Hlen).
    exists (current_pos :: found). rewrite Hrun, <- app_assoc. simpl.
    split; [reflexivity | lia].
Qed.

(** The tuples that the detection pass collects from the beats of a voice,
    given the positions. *)
Fixpoint detected (h : gmap loc Beat.t) (positions : list Q) (idx : nat)
    (beats : list loc) : list TremoloBeat.t :=
  match beats with
  | [] => []
  | l :: rest =>
      (if has_tremolo_picking (h !!! l)
       then [TremoloBeat.mk idx l (default 0%Q (positions !! idx))
               (Duration.value (Beat.duration (h !!! l)))
               (detected_speed (h !!! l))]
       else [])
      ++ detected h positions (S idx) rest
  end.

Lemma detected_app (h : gmap loc Beat.t) (positions : list Q) (beats more : list loc) :
  forall idx,
    detected h positions idx (beats ++ more)
    = detected h positions idx beats ++ detected h positions (idx + length beats) more.
Proof.
  induction beats as [|l rest IH]; intros idx; simpl.
  - rewrite Nat.add_0_r. reflexivity.
  - rewrite IH, <- app_assoc.
    replace (idx + S (length rest)) with (S idx + length rest) by lia. reflexivity.
Qed.

Lemma detected_beats (h : gmap loc Beat.t) (positions : list Q) (beats : list loc) :
  forall idx,
    map TremoloBeat.beat (detected h positions idx beats)
    = filter (fun l => has_tremolo_picking (h !!! l) = true) beats.
Proof.
  induction beats as [|l rest IH]; intros idx; simpl; [reflexivity|].
  rewrite map_app, IH, filter_cons.
  destruct (has_tremolo_picking (h !!! l)) eqn:Ht.
  - rewrite decide_True by reflexivity. reflexivity.
  - rewrite decide_False by discriminate. reflexivity.
Qed.

Lemma detected_speeds (h : gmap loc Beat.t) (positions : list Q) (beats : list loc) :
  forall idx,
    Forall (fun entry =>
              TremoloBeat.tremolo_speed_value entry
              = detected_speed (h !!! TremoloBeat.beat entry))
           (detected h positions idx beats).
Proof.
  induction beats as [|l rest IH]; intros idx; simpl; [constructor|].
  apply Forall_app. split; [|apply IH].
  destruct (has_tremolo_picking (h !!! l)); repeat constructor.
Qed.

Lemma index_run {A} (l : list A) (i : nat) (x : A) (s : state) :
  l !! i = Some x -> index l i s = (Ok x, s).
Proof. intros H. unfold index. rewrite H. reflexivity. Qed.

Lemma collect_tremolo_beats_run (positions : list Q) (beats : list loc) :
  forall (idx : nat) (tremolo_beats : list TremoloBeat.t) (s : state),
    nonzero_durations (heap s) beats ->
    idx + length beats <= length positions ->
    exists out,
      collect_tremolo_beats positions idx beats tremolo_beats s
      = (Ok (tremolo_beats ++ detected (heap s) positions idx beats), add_stdout out s).
Proof.
  induction beats as [|l rest IH]; intros idx tremolo_beats s Hnz Hlen; simpl in *.
  - exists []. rewrite app_nil_r, add_stdout_nil. reflexivity.
  - apply Forall_cons in Hnz as [Hl Hrest].
    destruct (lookup_lt_is_Some_2 positions idx) as [position Hposition]; [lia|].
    erewrite bind_ok by (apply index_run; exact Hposition).
    erewrite bind_ok by reflexivity.
    rewrite Hposition. simpl.
    destruct (has_tremolo_picking (heap s !!! l)).
    + erewrite bind_ok by (unfold lift; rewrite (beat_fraction_run _ Hl); reflexivity).
      erewrite bind_ok by reflexivity.
      erewrite bind_ok by (apply index_run; exact Hposition).
      match goal with
      | |- context [collect_tremolo_beats _ _ _ ?tb ?st] =>
          destruct (IH (S idx) tb st) as (out & Hrun); [exact Hrest | lia |]
      end.
      rewrite Hrun. simpl. rewrite <- app_assoc. simpl.
      eexists (_ :: out). unfold add_stdout. simpl. rewrite <- app_assoc. reflexivity.
    + destruct (IH (S idx) tremolo_beats s Hrest) as (out & Hrun); [lia|].
      exists out. exact Hrun.
Qed.

(** The detection pass over a voice: it reads the beats and prints. *)
Lemma detection_run (voice : Voice.t) (s : state) :
  nonzero_durations (heap s) (Voice.beats voice) ->
  exists positions out,
    calculate_beat_positions voice s = (Ok positions, s) /\
    collect_tremolo_beats positions 0 (Voice.beats voice) [] s
    = (Ok (detected (heap s) positions 0 (Voice.beats voice)), add_stdout out s).
Proof.
  intros Hnz.
  destruct (beat_positions_from_run (Voice.beats voice) 0%Q [] s Hnz)
    as (positions & Hpos & Hlen).
  destruct (collect_tremolo_beats_run positions (Voice.beats voice) 0 [] s Hnz)
    as (out & Hrun); [simpl; lia|].
  exists positions, out. split; [exact Hpos|]. exact Hrun.
Qed.

(** A beat with a marker of value 8 on its effect and a marker of value 32
    on its second note. *)
Definition eighth_speed : TremoloPicking.t :=
  TremoloPicking.mk (Duration.mk 8 (Some false) None None None).

Definition thirty_second_speed : TremoloPicking.t :=
  TremoloPicking.mk (Duration.mk 32 (Some false) None None None).

Definition doubly_marked_beat : Beat.t :=
  Beat.mk (Duration.mk 4 (Some false) None None None)
    (Effect.mk (Some (Some eighth_speed)))
    [plain_note 5 1;
     Note.mk 7 2 NoteType.normal 95 (Effect.mk (Some (Some thirty_second_speed)))].

Definition doubly_marked_state : state := mkState {[ 0 := doubly_marked_beat ]} 1 [].

(** C3, as stated, fails: for a beat with a beat-level marker of value 8 and
    a note-level marker of value 32, detection records the note-level
    marker. *)
Lemma detection_overrides_beat_level_marker :
  marker_of (Beat.effect doubly_marked_beat) = Some eighth_speed /\
  map TremoloBeat.tremolo_speed_value
    (match fst (collect_tremolo_beats [0%Q] 0 [0] [] doubly_marked_state) with
     | Ok tremolo_beats => tremolo_beats
     | _ => []
     end)
  = [Some thirty_second_speed].
Proof. split; reflexivity. Qed.

(** C3, amended: the tuple that detection collects for a tremolo beat
    carries the first note-level marker in note order when a note has one,
    whether or not the beat has a marker of its own; the beat-level marker
    is recorded only when no note has one. *)
Theorem detection_records_note_level_first (voice : Voice.t) (s : state) :
  nonzero_durations (heap s) (Voice.beats voice) ->
  exists positions tremolo_beats s',
    calculate_beat_positions voice s = (Ok positions, s) /\
    collect_tremolo_beats positions 0 (Voice.beats voice) [] s = (Ok tremolo_beats, s') /\
    map TremoloBeat.beat tremolo_beats
    = filter (fun l => has_tremolo_picking (heap s !!! l) = true) (Voice.beats voice) /\
    Forall (fun entry =>
              TremoloBeat.tremolo_speed_value entry
              = note_level_first (heap s !!! TremoloBeat.beat entry))
           tremolo_beats.
Proof.
  intros Hnz. destruct (detection_run voice s Hnz) as (positions & out & Hpos & Hrun).
  eexists positions, _, _. split; [exact Hpos|]. split; [exact Hrun|].
  split; [apply detected_beats|].
  eapply Forall_impl; [apply detected_speeds|].
  intros entry Hentry. simpl in Hentry. rewrite Hentry.
  apply detected_speed_note_level_first.
Qed.

Lemma detection_records_note_level_first_witness :
  exists positions tremolo_beats s',
    calculate_beat_positions (Voice.mk 0 [0]) doubly_marked_state
    = (Ok positions, doubly_marked_state) /\
    collect_tremolo_beats positions 0 [0] [] doubly_marked_state = (Ok tremolo_beats, s') /\
    map TremoloBeat.beat tremolo_beats
    = filter (fun l => has_tremolo_picking (heap doubly_marked_state !!! l) = true) [0] /\
    Forall (fun entry =>
              TremoloBeat.tremolo_speed_value entry
              = note_level_first (heap doubly_marked_state !!! TremoloBeat.beat entry))
           tremolo_beats.
Proof.
  apply (detection_records_note_level_first (Voice.mk 0 [0]) doubly_marked_state).
  repeat constructor. vm_compute. discriminate.
Defined.

(** ** Removing the marker *)

Lemma clear_marker_neutral (e : Effect.t) : has_marker (clear_marker e) = false.
Proof. destruct e as [[[m|]|]]; reflexivity. Qed.

Lemma clear_marker_unmarked (e : Effect.t) : has_marker e = false -> clear_marker e = e.
Proof.
  destruct e as [[[m|]|]]; unfold has_marker, clear_marker; simpl;
    intros H; try discriminate; reflexivity.
Qed.

Lemma clear_marker_idempotent (e : Effect.t) : clear_marker (clear_marker e) = clear_marker e.
Proof. apply clear_marker_unmarked, clear_marker_neutral. Qed.

Lemma new_effect_like_clear_marker (e : Effect.t) :
  new_effect_like (clear_marker e) = new_effect_like e.
Proof. destruct e as [[[m|]|]]; reflexivity. Qed.

Lemma tremolo_removed_no_tremolo (b : Beat.t) :
  has_tremolo_picking (tremolo_removed b) = false.
Proof.
  unfold has_tremolo_picking, tremolo_removed. simpl. rewrite clear_marker_neutral.
  induction (Beat.notes b) as [|note rest IH]; simpl; [reflexivity|].
  rewrite clear_marker_neutral. exact IH.
Qed.

Lemma tremolo_removed_unmarked (b : Beat.t) :
  has_tremolo_picking b = false -> tremolo_removed b = b.
Proof.
  destruct b as [d e notes]. unfold has_tremolo_picking, tremolo_removed. simpl.
  destruct (has_marker e) eqn:He; [discriminate|]. intros Hnotes.
  rewrite (clear_marker_unmarked e He). f_equal.
  induction notes as [|note rest IH]; simpl in *; [reflexivity|].
  apply orb_false_elim in Hnotes as [Hnote Hrest].
  rewrite (clear_marker_unmarked _ Hnote), (IH Hrest). destruct note; reflexivity.
Qed.

Lemma tremolo_removed_idempotent (b : Beat.t) :
  tremolo_removed (tremolo_removed b) = tremolo_removed b.
Proof. apply tremolo_removed_unmarked, tremolo_removed_no_tremolo. Qed.

Lemma slot_count_tremolo_removed (b : Beat.t) (t : Z) :
  slot_count (tremolo_removed b) t = slot_count b t.
Proof.
  unfold slot_count, get_beat_duration_fraction, tremolo_removed. simpl.
  destruct (Beat.notes b); reflexivity.
Qed.

Lemma chord_beat_tremolo_removed (b : Beat.t) (t : Z) :
  chord_beat (tremolo_removed b) t = chord_beat b t.
Proof.
  unfold chord_beat, tremolo_removed. simpl.
  rewrite new_effect_like_clear_marker. f_equal.
  rewrite map_map. apply map_ext. intros note. unfold clone_note. simpl.
  rewrite new_effect_like_clear_marker. reflexivity.
Qed.

Lemma chord_beat_no_tremolo (b : Beat.t) (t : Z) :
  has_tremolo_picking (chord_beat b t) = false.
Proof.
  unfold has_tremolo_picking, chord_beat. simpl. rewrite new_effect_like_neutral.
  induction (Beat.notes b) as [|note rest IH]; simpl; [reflexivity|].
  rewrite new_effect_like_neutral. exact IH.
Qed.

(** ** How the store evolves under the rewriter *)

(** The rewriter creates beats and removes markers, and does nothing else
    to the store. *)
Definition evolves (s s' : state) : Prop :=
  next_id s <= next_id s' /\
  forall l, l < next_id s ->
    heap s' !!! l = heap s !!! l \/ heap s' !!! l = tremolo_removed (heap s !!! l).

Lemma evolves_refl (s : state) : evolves s s.
Proof. split; [lia|]. intros l _. left. reflexivity. Qed.

Lemma evolves_trans (s1 s2 s3 : state) : evolves s1 s2 -> evolves s2 s3 -> evolves s1 s3.
Proof.
  intros [Hn12 H12] [Hn23 H23]. split; [lia|]. intros l Hl.
  destruct (H12 l Hl) as [E12|E12], (H23 l ltac:(lia)) as [E23|E23];
    rewrite E23, E12, ?tremolo_removed_idempotent; auto.
Qed.

Lemma evolves_same_store (s s' : state) :
  heap s' = heap s -> next_id s' = next_id s -> evolves s s'.
Proof. intros Hh Hn. split; [lia|]. intros l _. left. rewrite Hh. reflexivity. Qed.

Lemma evolves_no_tremolo (s s' : state) (l : loc) :
  evolves s s' -> l < next_id s ->
  has_tremolo_picking (heap s !!! l) = false ->
  has_tremolo_picking (heap s' !!! l) = false.
Proof.
  intros [_ H] Hl Hno. destruct (H l Hl) as [E|E]; rewrite E; [exact Hno|].
  apply tremolo_removed_no_tremolo.
Qed.

Lemma evolves_duration (s s' : state) (l : loc) :
  evolves s s' -> l < next_id s ->
  Beat.duration (heap s' !!! l) = Beat.duration (heap s !!! l).
Proof. intros [_ H] Hl. destruct (H l Hl) as [E|E]; rewrite E; reflexivity. Qed.

(** ** Splicing *)

Lemma list_pop_run (pre post : list loc) (l : loc) (s : state) :
  list_pop (length pre) (pre ++ l :: post) s = (Ok (pre ++ post), s).
Proof.
  unfold list_pop. rewrite length_app. simpl.
  destruct (Nat.ltb_spec (length pre) (length pre + S (length post))) as [_|H]; [|lia].
  unfold ret. do 2 f_equal.
  rewrite delete_middle. reflexivity.
Qed.

Lemma list_insert_at_middle (pre post : list loc) (x : loc) :
  list_insert_at (length pre) x (pre ++ post) = pre ++ x :: post.
Proof.
  unfold list_insert_at. rewrite take_app_length, drop_app_length. reflexivity.
Qed.

Lemma insert_new_beats_run (pre post : list loc) (new_beats : list loc) :
  forall (placed : list loc),
    insert_new_beats (length pre) (length placed) new_beats (pre ++ placed ++ post)
    = pre ++ (placed ++ new_beats) ++ post.
Proof.
  induction new_beats as [|x rest IH]; intros placed; simpl.
  - rewrite app_nil_r. reflexivity.
  - replace (length pre + length placed) with (length (pre ++ placed))
      by (rewrite length_app; reflexivity).
    rewrite (app_assoc pre placed post), list_insert_at_middle.
    replace (S (length placed)) with (length (placed ++ [x]))
      by (rewrite length_app; simpl; lia).
    replace ((pre ++ placed) ++ x :: post) with (pre ++ (placed ++ [x]) ++ post)
      by (rewrite <- !app_assoc; reflexivity).
    rewrite IH. rewrite <- !app_assoc. reflexivity.
Qed.

(** ** The rewriter *)

(** What becomes of the beat [l] of a voice detected in the state [s0], once
    the rewriter is through, in the state [s']: the references that stand
    in its place, and what they refer to. *)
Definition segment_ok (s0 s' : state) (l : loc) (segment : list loc) : Prop :=
  let b := heap s0 !!! l in
  let t := resolved_target (detected_speed b) in
  if has_tremolo_picking b then
    if slot_count b t <=? 1 then
      segment = [l] /\ heap s' !!! l = tremolo_removed b
    else
      length segment = slot_count b t /\
      Forall (fun x => next_id s0 <= x < next_id s' /\ heap s' !!! x = chord_beat b t)
             segment
  else segment = [l] /\ heap s' !!! l = b.

Lemma segment_ok_evolves (s0 s1 s2 : state) (l : loc) (segment : list loc) :
  segment_ok s0 s1 l segment ->
  evolves s1 s2 ->
  l < next_id s0 -> next_id s0 <= next_id s1 ->
  segment_ok s0 s2 l segment.
Proof.
  unfold segment_ok. intros Hseg [Hn Hev] Hl Hn01. cbv zeta in *.
  destruct (has_tremolo_picking (heap s0 !!! l)) eqn:Htrem.
  - destruct (slot_count _ _ <=? 1).
    + destruct Hseg as [-> Hl1]. split; [reflexivity|].
      destruct (Hev l ltac:(lia)) as [E|E]; rewrite E, Hl1;
        rewrite ?tremolo_removed_idempotent; reflexivity.
    + destruct Hseg as [Hlen Hall]. split; [exact Hlen|].
      eapply Forall_impl; [exact Hall|]. intros x [Hx Hbx]. simpl.
      split; [lia|].
      destruct (Hev x ltac:(lia)) as [E|E]; rewrite E, Hbx; [reflexivity|].
      apply tremolo_removed_unmarked, chord_beat_no_tremolo.
  - destruct Hseg as [-> Hl1]. split; [reflexivity|].
    destruct (Hev l ltac:(lia)) as [E|E]; rewrite E, Hl1; [reflexivity|].
    apply tremolo_removed_unmarked. exact Htrem.
Qed.

Lemma rewrite_tremolo_beats_cons (voice : Voice.t) (entry : TremoloBeat.t)
    (rest : list TremoloBeat.t) (beats : list loc) (converted_count : nat) :
  rewrite_tremolo_beats voice (entry :: rest) beats converted_count
  = bind (print (ConvertingTremolo (TremoloBeat.beat_position entry))) (fun _ =>
    bind (create_individual_notes (TremoloBeat.beat entry) voice
            (TremoloBeat.tremolo_speed_value entry)) (fun new_beats =>
    bind (if (length new_beats <=? 1)%nat then
            bind (remove_tremolo_effect (TremoloBeat.beat entry)) (fun _ =>
            bind (print RemovedTremolo) (fun _ => ret beats))
          else
            bind (list_pop (TremoloBeat.beat_idx entry) beats) (fun popped =>
            let inserted :=
              insert_new_beats (TremoloBeat.beat_idx entry) 0 new_beats popped in
            match new_beats with
            | first :: _ =>
                bind (load first) (fun first_new_beat =>
                bind (print (CreatedNotes (length new_beats)
                               (Duration.value (Beat.duration first_new_beat))
                               (TremoloBeat.original_duration entry))) (fun _ =>
                ret inserted))
            | [] => ret inserted
            end)) (fun beats' =>
    rewrite_tremolo_beats voice rest beats' (S converted_count)))).
Proof. reflexivity. Qed.

Lemma lookup_total_eq (h h' : gmap loc Beat.t) (l : loc) :
  h' !! l = h !! l -> h' !!! l = h !!! l.
Proof. intros H. rewrite !lookup_total_alt, H. reflexivity. Qed.

(** One turn of the rewriting loop, on the tuple of the beat [l] that
    stands at its index in the list. *)
Lemma rewrite_tremolo_beats_step (voice : Voice.t) (s0 sc : state)
    (entry : TremoloBeat.t) (rest : list TremoloBeat.t) (pre post : list loc)
    (converted_count : nat) :
  let l := TremoloBeat.beat entry in
  TremoloBeat.beat_idx entry = length pre ->
  TremoloBeat.tremolo_speed_value entry = detected_speed (heap s0 !!! l) ->
  has_tremolo_picking (heap s0 !!! l) = true ->
  Duration.value (Beat.duration (heap s0 !!! l)) <> 0%Z ->
  l < next_id s0 ->
  evolves s0 sc ->
  exists segment s1,
    rewrite_tremolo_beats voice (entry :: rest) (pre ++ l :: post) converted_count sc
    = rewrite_tremolo_beats voice rest (pre ++ segment ++ post) (S converted_count) s1 /\
    evolves sc s1 /\
    segment_ok s0 s1 l segment.
Proof.
  intros l Hidx Hspeed Htrem Hd Hl Hev.
  set (b0 := heap s0 !!! l) in *.
  set (t := resolved_target (detected_speed b0)).
  pose proof Hev as [Hn0c Hev0c].
  assert (Hbc : heap sc !!! l = b0 \/ heap sc !!! l = tremolo_removed b0)
    by (apply Hev0c; exact Hl).
  assert (Hslot : slot_count (heap sc !!! l) t = slot_count b0 t).
  { destruct Hbc as [-> | ->]; [reflexivity | apply slot_count_tremolo_removed]. }
  assert (Hchord : chord_beat (heap sc !!! l) t = chord_beat b0 t).
  { destruct Hbc as [-> | ->]; [reflexivity | apply chord_beat_tremolo_removed]. }
  assert (Hremoved : tremolo_removed (heap sc !!! l) = tremolo_removed b0).
  { destruct Hbc as [-> | ->]; [reflexivity | apply tremolo_removed_idempotent]. }
  assert (Hdc : Duration.value (Beat.duration (heap sc !!! l)) <> 0%Z).
  { destruct Hbc as [-> | ->]; exact Hd. }
  rewrite rewrite_tremolo_beats_cons. fold l. rewrite Hspeed, Hidx. fold b0.
  erewrite bind_ok by reflexivity.
  set (sp := mkState (heap sc) (next_id sc)
               (stdout sc ++ [ConvertingTremolo (TremoloBeat.beat_position entry)])).
  destruct (create_individual_notes_spec l voice (detected_speed b0) sp Hdc)
    as (new_beats & sa & Hcreate & Hlen & _ & Hnext & _ & Hold & Hnew).
  change (heap sp) with (heap sc) in *. change (next_id sp) with (next_id sc) in *.
  fold t in Hlen, Hnew. rewrite Hslot in Hlen. rewrite Hchord in Hnew.
  erewrite bind_ok by exact Hcreate.
  unfold segment_ok. fold b0. fold t. rewrite Htrem. rewrite Hlen.
  destruct (slot_count b0 t <=? 1) eqn:Hcount.
  - (* the marker is removed in place *)
    exists [l].
    exists (mkState (<[l := tremolo_removed (heap sa !!! l)]> (heap sa)) (next_id sa)
              (stdout sa ++ [RemovedTremolo])).
    assert (Hla : heap sa !!! l = heap sc !!! l).
    { apply lookup_total_eq, Hold. lia. }
    split; [reflexivity|]. split.
    + split; [simpl; lia|]. intros l' Hl'. simpl.
      destruct (decide (l' = l)) as [->|Hne].
      * right. rewrite lookup_total_insert_eq, Hla. reflexivity.
      * left. rewrite lookup_total_insert_ne by congruence.
        apply lookup_total_eq, Hold. exact Hl'.
    + split; [reflexivity|]. simpl.
      rewrite lookup_total_insert_eq, Hla. exact Hremoved.
  - (* the beat is replaced by the new beats *)
    apply Nat.leb_gt in Hcount.
    destruct new_beats as [|first others]; [simpl in Hlen; lia|].
    pose proof (insert_new_beats_run pre post (first :: others) []) as Hins.
    change (length []) with 0 in Hins. rewrite !app_nil_l in Hins.
    eexists (first :: others), _. split.
    { erewrite bind_ok; [reflexivity|].
      erewrite bind_ok by apply list_pop_run. cbv zeta.
      erewrite bind_ok by reflexivity. erewrite bind_ok by reflexivity.
      rewrite Hins. reflexivity. }
    split.
    + split; [simpl; lia|]. intros l' Hl'. left. simpl.
      apply lookup_total_eq, Hold. exact Hl'.
    + split; [exact Hlen|]. simpl.
      eapply Forall_impl; [exact Hnew|]. intros x [Hx Hbx]. simpl.
      split; [lia|]. apply lookup_total_correct. exact Hbx.
Qed.

Definition well_formed_beats (s : state) (beats : list loc) : Prop :=
  Forall (fun l => l < next_id s /\ Duration.value (Beat.duration (heap s !!! l)) <> 0%Z)
         beats.

Lemma well_formed_nonzero (s : state) (beats : list loc) :
  well_formed_beats s beats -> nonzero_durations (heap s) beats.
Proof. intros H. eapply Forall_impl; [exact H|]. intros l [_ Hl]. exact Hl. Qed.

Lemma well_formed_evolves (s s' : state) (beats : list loc) :
  evolves s s' -> well_formed_beats s beats -> well_formed_beats s' beats.
Proof.
  intros Hev H. eapply Forall_impl; [exact H|]. intros l [Hl Hd]. simpl.
  split; [destruct Hev; lia|]. rewrite (evolves_duration s s' l Hev Hl). exact Hd.
Qed.

(** The rewriting loop, visiting the detected tuples of [beats] from the
    last to the first, while the beats [post] that follow them have been
    dealt with already. *)
Lemma rewrite_tremolo_beats_spec (voice : Voice.t) (s0 : state) (positions : list Q)
    (beats : list loc) :
  forall (post : list loc) (sc : state) (converted_count : nat),
    well_formed_beats s0 beats ->
    evolves s0 sc ->
    exists segments s',
      rewrite_tremolo_beats voice (rev (detected (heap s0) positions 0 beats))
        (beats ++ post) converted_count sc
      = (Ok (concat segments ++ post,
             converted_count + length (detected (heap s0) positions 0 beats)), s') /\
      evolves sc s' /\
      Forall2 (segment_ok s0 s') beats segments.
Proof.
  induction beats as [|x p IH] using rev_ind; intros post sc converted_count Hwf Hev.
  - exists [], sc. simpl. rewrite Nat.add_0_r.
    split; [reflexivity|]. split; [apply evolves_refl | constructor].
  - apply Forall_app in Hwf as [Hwfp Hwfx].
    apply Forall_cons in Hwfx as [[Hx Hdx] _].
    rewrite detected_app, rev_app_distr, length_app, <- app_assoc.
    cbn [detected Nat.add].
    destruct (has_tremolo_picking (heap s0 !!! x)) eqn:Htrem; cbn [app rev length].
    + match goal with
      | |- context [rewrite_tremolo_beats _ (?e :: _) _ _ _] => set (entry := e)
      end.
      destruct (rewrite_tremolo_beats_step voice s0 sc entry
                  (rev (detected (heap s0) positions 0 p)) p post converted_count)
        as (segment & s1 & Hstep & Hev1 & Hseg); try reflexivity; try assumption.
      cbv zeta in Hstep, Hseg.
      change (TremoloBeat.beat entry) with x in Hstep, Hseg. rewrite Hstep.
      destruct (IH (segment ++ post) s1 (S converted_count) Hwfp)
        as (segments & s' & Hrun & Hev' & Hall).
      { eapply evolves_trans; eassumption. }
      exists (segments ++ [segment]), s'. rewrite Hrun.
      split.
      { rewrite concat_app. simpl. rewrite app_nil_r, <- app_assoc.
        repeat f_equal. lia. }
      split; [eapply evolves_trans; eassumption|].
      apply Forall2_app; [exact Hall|]. constructor; [|constructor].
      eapply segment_ok_evolves; [exact Hseg | exact Hev' | exact Hx |].
      destruct Hev, Hev1. lia.
    + destruct (IH (x :: post) sc converted_count Hwfp Hev)
        as (segments & s' & Hrun & Hev' & Hall).
      exists (segments ++ [[x]]), s'. rewrite Hrun.
      split.
      { rewrite concat_app. simpl. rewrite <- app_assoc. simpl.
        repeat f_equal. lia. }
      split; [exact Hev'|].
      apply Forall2_app; [exact Hall|]. constructor; [|constructor].
      unfold segment_ok. rewrite Htrem. split; [reflexivity|].
      destruct (evolves_trans _ _ _ Hev Hev') as [_ H0'].
      destruct (H0' x Hx) as [E|E]; rewrite E; [reflexivity|].
      apply tremolo_removed_unmarked. exact Htrem.
Qed.

(** What the rewriter does to one voice. *)
Lemma convert_tremolo_in_voice_spec (voice : Voice.t) (converted_count : nat) (s : state) :
  well_formed_beats s (Voice.beats voice) ->
  exists segments converted_count' s',
    convert_tremolo_in_voice voice converted_count s
    = (Ok (Voice.mk (Voice.beats_id voice) (concat segments), converted_count'), s') /\
    evolves s s' /\
    Forall2 (segment_ok s s') (Voice.beats voice) segments.
Proof.
  intros Hwf.
  destruct (detection_run voice s (well_formed_nonzero _ _ Hwf))
    as (positions & out & Hpos & Hcollect).
  destruct (rewrite_tremolo_beats_spec voice s positions (Voice.beats voice) []
              (add_stdout out s) converted_count Hwf)
    as (segments & s' & Hrun & Hev & Hall).
  { apply evolves_same_store; reflexivity. }
  rewrite !app_nil_r in Hrun.
  unfold convert_tremolo_in_voice.
  erewrite bind_ok by exact Hpos.
  erewrite bind_ok by exact Hcollect.
  destruct (detected (heap s) positions 0 (Voice.beats voice)) as [|entry entries] eqn:Hdet.
  - simpl in Hrun. unfold ret in Hrun. injection Hrun as Hbeats _ Hs'.
    subst s'. exists segments, converted_count, (add_stdout out s). rewrite <- Hbeats.
    destruct voice as [id beats]. simpl.
    split; [reflexivity|]. split; [exact Hev | exact Hall].
  - erewrite bind_ok by exact Hrun.
    eexists segments, _, s'. split; [reflexivity|].
    split; [|exact Hall]. exact Hev.
Qed.

Lemma segment_ok_settled (s s' : state) (l : loc) (segment : list loc) :
  segment_ok s s' l segment ->
  l < next_id s -> next_id s <= next_id s' ->
  Forall (fun x => x < next_id s' /\ has_tremolo_picking (heap s' !!! x) = false) segment.
Proof.
  unfold segment_ok. cbv zeta. intros Hseg Hl Hn.
  destruct (has_tremolo_picking (heap s !!! l)) eqn:Htrem.
  - destruct (slot_count _ _ <=? 1).
    + destruct Hseg as [-> Hb]. constructor; [|constructor].
      split; [lia|]. rewrite Hb. apply tremolo_removed_no_tremolo.
    + destruct Hseg as [_ Hall]. eapply Forall_impl; [exact Hall|].
      intros x [Hx Hb]. simpl. split; [lia|]. rewrite Hb. apply chord_beat_no_tremolo.
  - destruct Hseg as [-> Hb]. constructor; [|constructor].
    split; [lia|]. rewrite Hb. exact Htrem.
Qed.



(** ** The claims about the rewriter *)

(** The number of beats that the subdivider returns for the beat [l], called
    in the state [s]. *)
Definition subdivider_count (voice : Voice.t) (s : state) (l : loc)
    (speed : option TremoloPicking.t) : nat :=
  match fst (create_individual_notes l voice speed s) with
  | Ok new_beats => length new_beats
  | _ => 0
  end.

(** The pitch, string, type and velocity of a note, which no function of
    the program changes. *)
Definition same_pitch (note' note : Note.t) : Prop :=
  Note.value note' = Note.value note /\
  Note.string note' = Note.string note /\
  Note.type note' = Note.type note /\
  Note.velocity note' = Note.velocity note.

(** An effect descriptor that holds no tremolo marker: the attribute is
    absent or [None]. *)
Definition unmarked (e : Effect.t) : Prop :=
  forall marker, Effect.tremoloPicking e <> Some (Some marker).

(** [b'] is [b] stripped of its tremolo markers and otherwise as it was:
    no marker on the effect of the beat or of a note, the same duration,
    and the same notes by pitch value, string, type and velocity. *)
Definition stripped (b b' : Beat.t) : Prop :=
  has_tremolo_picking b' = false /\
  unmarked (Beat.effect b') /\
  Forall (fun note => unmarked (Note.effect note)) (Beat.notes b') /\
  Beat.duration b' = Beat.duration b /\
  Forall2 same_pitch (Beat.notes b') (Beat.notes b).

Lemma has_marker_unmarked (e : Effect.t) : has_marker e = false -> unmarked e.
Proof.
  unfold has_marker, unmarked. intros H marker E. rewrite E in H. discriminate.
Qed.

Lemma same_pitch_refl (notes : list Note.t) : Forall2 same_pitch notes notes.
Proof. induction notes; constructor; [repeat split | assumption]. Qed.

Lemma no_tremolo_unmarked (b : Beat.t) :
  has_tremolo_picking b = false ->
  unmarked (Beat.effect b) /\ Forall (fun note => unmarked (Note.effect note)) (Beat.notes b).
Proof.
  unfold has_tremolo_picking.
  destruct (has_marker (Beat.effect b)) eqn:He; [discriminate|].
  intros Hnotes. split; [apply has_marker_unmarked; exact He|].
  induction (Beat.notes b) as [|note rest IH]; constructor; simpl in Hnotes;
    apply orb_false_iff in Hnotes as [Hn Hrest].
  - apply has_marker_unmarked. exact Hn.
  - apply IH. exact Hrest.
Qed.

Lemma no_tremolo_stripped (b : Beat.t) : has_tremolo_picking b = false -> stripped b b.
Proof.
  intros Hno. destruct (no_tremolo_unmarked b Hno) as [He Hnotes].
  split; [exact Hno|]. split; [exact He|]. split; [exact Hnotes|].
  split; [reflexivity | apply same_pitch_refl].
Qed.

Lemma tremolo_removed_stripped (b : Beat.t) : stripped b (tremolo_removed b).
Proof.
  destruct (no_tremolo_unmarked _ (tremolo_removed_no_tremolo b)) as [He Hnotes].
  split; [apply tremolo_removed_no_tremolo|]. split; [exact He|]. split; [exact Hnotes|].
  split; [reflexivity|].
  unfold tremolo_removed. simpl.
  induction (Beat.notes b) as [|note rest IH]; simpl; constructor; [|exact IH].
  repeat split.
Qed.

(** What stands in the place of the beat [l] of a voice after the rewriter
    has run from the state [s] to the state [s']: the beat itself, with its
    marker removed if it had one, or the new beats of the subdivider. *)
Definition rewritten (voice : Voice.t) (s s' : state) (l : loc) (segment : list loc)
  : Prop :=
  let b := heap s !!! l in
  let speed := detected_speed b in
  if has_tremolo_picking b then
    if subdivider_count voice s l speed <=? 1 then
      segment = [l] /\ stripped b (heap s' !!! l)
    else
      length segment = subdivider_count voice s l speed /\
      Forall (fun x => next_id s <= x /\
                       is_replacement b (resolved_target speed) (heap s' !!! x))
             segment
  else segment = [l] /\ heap s' !!! l = b.

Lemma subdivider_count_slots (voice : Voice.t) (s : state) (l : loc)
    (speed : option TremoloPicking.t) :
  Duration.value (Beat.duration (heap s !!! l)) <> 0%Z ->
  subdivider_count voice s l speed = slot_count (heap s !!! l) (resolved_target speed).
Proof.
  intros Hd. unfold subdivider_count.
  rewrite (create_individual_notes_run l voice speed s Hd). simpl. apply length_seq.
Qed.

Lemma segment_ok_rewritten (voice : Voice.t) (s s' : state) (l : loc)
    (segment : list loc) :
  Duration.value (Beat.duration (heap s !!! l)) <> 0%Z ->
  segment_ok s s' l segment -> rewritten voice s s' l segment.
Proof.
  intros Hd. unfold segment_ok, rewritten. cbv zeta.
  rewrite (subdivider_count_slots voice s l _ Hd).
  destruct (has_tremolo_picking (heap s !!! l)); [|tauto].
  destruct (slot_count _ _ <=? 1).
  { intros [Hseg Hb]. split; [exact Hseg|]. rewrite Hb. apply tremolo_removed_stripped. }
  intros [Hlen Hall]. split; [exact Hlen|].
  eapply Forall_impl; [exact Hall|]. intros x [Hx Hb]. simpl.
  split; [lia|]. rewrite Hb. apply chord_beat_replacement.
Qed.

Lemma detected_indices (h : gmap loc Beat.t) (positions : list Q) (beats : list loc) :
  forall idx,
    Forall (fun i => idx <= i) (map TremoloBeat.beat_idx (detected h positions idx beats)) /\
    StronglySorted lt (map TremoloBeat.beat_idx (detected h positions idx beats)).
Proof.
  induction beats as [|l rest IH]; intros idx; simpl.
  - split; constructor.
  - destruct (IH (S idx)) as [Hge Hsorted].
    assert (Hge' : Forall (fun i => idx <= i)
                     (map TremoloBeat.beat_idx (detected h positions (S idx) rest))).
    { eapply Forall_impl; [exact Hge|]. intros i Hi. simpl in Hi. lia. }
    destruct (has_tremolo_picking (h !!! l)); simpl.
    + split; [constructor; [lia | exact Hge']|].
      constructor; [exact Hsorted|]. exact Hge.
    + split; assumption.
Qed.

(** C2: the rewriter detects the tremolo beats in one pass over the voice
    as it stands before any change, with increasing indices, and visits
    them from the last to the first; afterwards the beat list of the voice
    is the sequence of what stands for each original beat, in the original
    order: a beat without tremolo stands unchanged; a tremolo beat for which
    the subdivider returns at most one beat stands at its place, the same
    object with its duration and with its notes by pitch, string, type and
    velocity, and without a marker on its effect or on a note; a tremolo beat
    for which the subdivider returns two or more beats is replaced, at its
    place, by those new beats. *)
Theorem convert_tremolo_in_voice_rewrites (voice : Voice.t) (converted_count : nat)
    (s : state) :
  well_formed_beats s (Voice.beats voice) ->
  (exists positions tremolo_beats s0,
     calculate_beat_positions voice s = (Ok positions, s) /\
     collect_tremolo_beats positions 0 (Voice.beats voice) [] s = (Ok tremolo_beats, s0) /\
     heap s0 = heap s /\
     map TremoloBeat.beat tremolo_beats
     = filter (fun l => has_tremolo_picking (heap s !!! l) = true) (Voice.beats voice) /\
     StronglySorted lt (map TremoloBeat.beat_idx tremolo_beats) /\
     convert_tremolo_in_voice voice converted_count s
     = match tremolo_beats with
       | [] => (Ok (voice, converted_count), s0)
       | _ =>
           bind (rewrite_tremolo_beats voice (rev tremolo_beats) (Voice.beats voice)
                   converted_count)
                (fun r => ret (Voice.mk (Voice.beats_id voice) (fst r), snd r)) s0
       end) /\
  (exists segments converted_count' s',
     convert_tremolo_in_voice voice converted_count s
     = (Ok (Voice.mk (Voice.beats_id voice) (concat segments), converted_count'), s') /\
     Forall2 (rewritten voice s s') (Voice.beats voice) segments).
Proof.
  intros Hwf. split.
  - destruct (detection_run voice s (well_formed_nonzero _ _ Hwf))
      as (positions & out & Hpos & Hcollect).
    eexists positions, _, _. split; [exact Hpos|]. split; [exact Hcollect|].
    split; [reflexivity|]. split; [apply detected_beats|].
    split; [apply detected_indices|].
    unfold convert_tremolo_in_voice.
    erewrite bind_ok by exact Hpos. erewrite bind_ok by exact Hcollect.
    destruct (detected (heap s) positions 0 (Voice.beats voice)); reflexivity.
  - destruct (convert_tremolo_in_voice_spec voice converted_count s Hwf)
      as (segments & count' & s' & Hrun & _ & Hall).
    exists segments, count', s'. split; [exact Hrun|].
    clear Hrun. induction Hall as [|l segment ls segs Hseg _ IH]; constructor.
    + apply Forall_cons in Hwf as [[_ Hd] _].
      apply segment_ok_rewritten; assumption.
    + apply IH. apply Forall_cons in Hwf as [_ Hls]. exact Hls.
Qed.

(** A voice with a plain quarter, a quarter with a tremolo marker on its
    note, the eighth chord, and a sixteenth rest with a marker on its
    effect. *)
Definition tremolo_quarter : Beat.t :=
  Beat.mk (Duration.mk 4 (Some false) None None None) (Effect.mk None)
    [Note.mk 7 1 NoteType.normal 95 (Effect.mk (Some (Some sixteenth_speed)))].

Definition marked_rest : Beat.t :=
  Beat.mk (Duration.mk 16 (Some false) None None None)
    (Effect.mk (Some (Some eighth_speed))) [].

Definition tremolo_state : state :=
  mkState (list_to_map [(0, quarter_beat); (1, tremolo_quarter);
                        (2, eighth_chord); (3, marked_rest)])
    4 [].

Definition tremolo_voice : Voice.t := Voice.mk 100 [0; 1; 2; 3].

Definition tremolo_measure : Measure.t := Measure.mk four_four [tremolo_voice].

Lemma tremolo_voice_well_formed :
  well_formed_beats tremolo_state (Voice.beats tremolo_voice).
Proof.
  repeat constructor; try (vm_compute; discriminate); simpl; lia.
Defined.

Lemma convert_tremolo_in_voice_rewrites_witness :
  well_formed_beats tremolo_state (Voice.beats tremolo_voice) /\
  exists segments converted_count' s',
    convert_tremolo_in_voice tremolo_voice 0 tremolo_state
    = (Ok (Voice.mk 100 (concat segments), converted_count'), s') /\
    Forall2 (rewritten tremolo_voice tremolo_state s') [0; 1; 2; 3] segments.
Proof.
  split; [exact tremolo_voice_well_formed|].
  exact (proj2 (convert_tremolo_in_voice_rewrites tremolo_voice 0 tremolo_state
                  tremolo_voice_well_formed)).
Defined.

(** On the example: the quarter becomes four sixteenths, the eighth chord
    two, the rest stays, and three tremolo beats are counted. *)
Lemma convert_tremolo_in_measure_example :
  fst (convert_tremolo_in_measure tremolo_measure String.EmptyString tremolo_state)
  = Ok (3, Measure.mk four_four [Voice.mk 100 [0; 16; 17; 18; 19; 10; 11; 3]]).
Proof. vm_compute. reflexivity. Qed.

(** C4, as stated, fails: the subdivider returns no beat for the marked
    rest, but the rewriter then clears the marker of its effect: the beat
    object is not what it was. *)
Lemma marked_rest_is_modified :
  fst (create_individual_notes 3 tremolo_voice (detected_speed marked_rest) tremolo_state)
  = Ok [] /\
  heap tremolo_state !!! 3 = marked_rest /\
  heap (snd (convert_tremolo_in_measure tremolo_measure String.EmptyString tremolo_state))
    !!! 3
  = Beat.mk (Duration.mk 16 (Some false) None None None) (Effect.mk (Some None)) [] /\
  heap (snd (convert_tremolo_in_measure tremolo_measure String.EmptyString tremolo_state))
    !!! 3
  <> heap tremolo_state !!! 3.
Proof.
  split; [vm_compute; reflexivity|]. split; [vm_compute; reflexivity|].
  split; [vm_compute; reflexivity|]. vm_compute. discriminate.
Qed.

(** C4, amended: for a beat with no note that carries a tremolo marker, the
    subdivider returns no beat and changes no beat object; the rewriter
    leaves the beat at its place in the voice, with its duration and its
    (empty) notes, and clears the tremolo marker of its effect. *)
Theorem convert_tremolo_in_voice_rest (voice : Voice.t) (converted_count : nat)
    (s : state) :
  well_formed_beats s (Voice.beats voice) ->
  exists segments converted_count' s',
    convert_tremolo_in_voice voice converted_count s
    = (Ok (Voice.mk (Voice.beats_id voice) (concat segments), converted_count'), s') /\
    length segments = length (Voice.beats voice) /\
    forall i l,
      Voice.beats voice !! i = Some l ->
      Beat.notes (heap s !!! l) = [] ->
      has_tremolo_picking (heap s !!! l) = true ->
      (exists sa,
         create_individual_notes l voice (detected_speed (heap s !!! l)) s = (Ok [], sa) /\
         heap sa = heap s) /\
      segments !! i = Some [l] /\
      Beat.duration (heap s' !!! l) = Beat.duration (heap s !!! l) /\
      Beat.notes (heap s' !!! l) = [] /\
      Beat.effect (heap s' !!! l) = Effect.mk (Some None).
Proof.
  intros Hwf.
  destruct (convert_tremolo_in_voice_spec voice converted_count s Hwf)
    as (segments & count' & s' & Hrun & _ & Hall).
  exists segments, count', s'. split; [exact Hrun|].
  split; [symmetry; eapply Forall2_length; exact Hall|].
  intros i l Hi Hnotes Htrem.
  assert (Hd : Duration.value (Beat.duration (heap s !!! l)) <> 0%Z).
  { apply (proj1 (Forall_lookup _ _) Hwf i l Hi). }
  assert (Hslots : forall t, slot_count (heap s !!! l) t = 0).
  { intros t. unfold slot_count. rewrite Hnotes. reflexivity. }
  split.
  { pose proof (create_individual_notes_run l voice (detected_speed (heap s !!! l)) s Hd)
      as Hcreate.
    cbv zeta in Hcreate. rewrite Hslots in Hcreate. simpl in Hcreate.
    eexists. split; [exact Hcreate|]. reflexivity. }
  destruct (Forall2_lookup_left _ _ _ i l Hall Hi) as (segment & Hsegment & Hseg).
  unfold segment_ok in Hseg. cbv zeta in Hseg.
  rewrite Htrem, Hslots in Hseg. simpl in Hseg. destruct Hseg as [-> Hb].
  split; [exact Hsegment|]. rewrite Hb. unfold tremolo_removed. simpl.
  rewrite Hnotes. split; [reflexivity|]. split; [reflexivity|].
  unfold has_tremolo_picking in Htrem. rewrite Hnotes in Htrem. simpl in Htrem.
  destruct (Beat.effect (heap s !!! l)) as [[[m|]|]]; simpl in *;
    try discriminate; reflexivity.
Qed.

Lemma convert_tremolo_in_voice_rest_witness :
  well_formed_beats tremolo_state (Voice.beats tremolo_voice) /\
  exists segments converted_count' s',
    convert_tremolo_in_voice tremolo_voice 0 tremolo_state
    = (Ok (Voice.mk 100 (concat segments), converted_count'), s') /\
    length segments = 4 /\
    segments !! 3 = Some [3] /\
    Beat.effect (heap s' !!! 3) = Effect.mk (Some None).
Proof.
  split; [exact tremolo_voice_well_formed|].
  destruct (convert_tremolo_in_voice_rest tremolo_voice 0 tremolo_state
              tremolo_voice_well_formed)
    as (segments & count' & s' & Hrun & Hlen & Hrest).
  exists segments, count', s'. split; [exact Hrun|]. split; [exact Hlen|].
  destruct (Hrest 3 3) as (_ & Hsegment & _ & _ & Heffect);
    [reflexivity | reflexivity | reflexivity |].
  split; assumption.
Defined.






(** * Further properties of the program *)

(** ** Removing a marker (lines 31-38) *)

Lemma remove_tremolo_effect_run (l : loc) (s : state) :
  remove_tremolo_effect l s
  = (Ok tt, mkState (<[l := tremolo_removed (heap s !!! l)]> (heap s)) (next_id s) (stdout s)).
Proof. reflexivity. Qed.

(** [b'] is what a beat [b] may have become when markers were removed
    somewhere: the same duration, the same notes by pitch value, string,
    type and velocity, and no marker where there was none. *)
Definition kept (b b' : Beat.t) : Prop :=
  Beat.duration b' = Beat.duration b /\
  Forall2 same_pitch (Beat.notes b') (Beat.notes b) /\
  (has_tremolo_picking b = false -> has_tremolo_picking b' = false).

Lemma kept_refl (b : Beat.t) : kept b b.
Proof. split; [reflexivity|]. split; [apply same_pitch_refl | tauto]. Qed.

Lemma stripped_kept (b b' : Beat.t) : stripped b b' -> kept b b'.
Proof.
  intros (Hno & _ & _ & Hd & Hnotes).
  split; [exact Hd|]. split; [exact Hnotes | intros _; exact Hno].
Qed.

(** X1: [remove_tremolo_effect] always returns; afterwards the beat has no
    tremolo marker, on its effect or on any note, while its duration and the
    number, pitch, string, type and velocity of its notes are what they
    were; every beat of the store keeps its duration and its notes, and
    none gains a marker; nothing is created, nothing is printed. *)
Theorem remove_tremolo_effect_clears (l : loc) (s : state) :
  exists s',
    remove_tremolo_effect l s = (Ok tt, s') /\
    stripped (heap s !!! l) (heap s' !!! l) /\
    (forall l', kept (heap s !!! l') (heap s' !!! l')) /\
    next_id s' = next_id s /\
    stdout s' = stdout s.
Proof.
  eexists. split; [apply remove_tremolo_effect_run|]. simpl.
  rewrite lookup_total_insert_eq.
  split; [apply tremolo_removed_stripped|].
  split; [|split; reflexivity].
  intros l'. destruct (decide (l' = l)) as [->|Hne].
  - rewrite lookup_total_insert_eq. apply stripped_kept, tremolo_removed_stripped.
  - rewrite lookup_total_insert_ne by congruence. apply kept_refl.
Qed.

(** X2: removing the marker twice is removing it once: the second call
    leaves the state exactly as the first call left it. *)
Theorem remove_tremolo_effect_idempotent (l : loc) (s : state) :
  bind (remove_tremolo_effect l) (fun _ => remove_tremolo_effect l) s
  = remove_tremolo_effect l s.
Proof.
  erewrite bind_ok by apply remove_tremolo_effect_run.
  rewrite !remove_tremolo_effect_run. simpl.
  rewrite lookup_total_insert_eq, tremolo_removed_idempotent, insert_insert_eq.
  reflexivity.
Qed.

(** ** Fractions of beats: the error case *)

Lemma get_beat_duration_fraction_zero (b : Beat.t) :
  Duration.value (Beat.duration b) = 0%Z ->
  get_beat_duration_fraction b = Raise ZeroDivisionError.
Proof.
  intros Hd. unfold get_beat_duration_fraction, duration_to_fraction. rewrite Hd.
  reflexivity.
Qed.

Lemma beat_fraction_bounds (b : Beat.t) (q : Q) :
  (0 < Duration.value (Beat.duration b))%Z ->
  get_beat_duration_fraction b = Ok q -> (0 < q)%Q /\ (q <= 7 # 4)%Q.
Proof.
  intros Hpos Hq. split.
  + unfold get_beat_duration_fraction in Hq.
    apply duration_to_fraction_sign in Hq. apply Hq. exact Hpos.
  + unfold get_beat_duration_fraction in Hq.
    destruct (duration_to_fraction_defined (Duration.value (Beat.duration b))
                (truthy_flag (Duration.isDotted (Beat.duration b)))
                (truthy_flag (Duration.isDoubleDotted (Beat.duration b))))
      as (q' & Hq' & _ & Heq); [lia|].
    rewrite Hq in Hq'. inversion Hq'; subst q'. rewrite Heq.
    assert (Hinv : (0 < 1 / inject_Z (Duration.value (Beat.duration b)))%Q /\
                   (1 / inject_Z (Duration.value (Beat.duration b)) <= 1)%Q).
    { destruct (Duration.value (Beat.duration b)) as [|p|p]; try lia.
      split; [reflexivity|].
      unfold Qle, Qdiv, Qinv, Qmult, inject_Z. simpl. lia. }
    destruct Hinv as [Hinv0 Hinv1].
    destruct (truthy_flag (Duration.isDoubleDotted (Beat.duration b)));
      [|destruct (truthy_flag (Duration.isDotted (Beat.duration b)))].
    * apply Qle_trans with (1 * (7 # 4))%Q; [|unfold Qle; simpl; lia].
      apply Qmult_le_compat_r; [exact Hinv1 | unfold Qle; simpl; lia].
    * apply Qle_trans with (1 * (3 # 2))%Q; [|unfold Qle; simpl; lia].
      apply Qmult_le_compat_r; [exact Hinv1 | unfold Qle; simpl; lia].
    * apply Qle_trans with 1%Q; [exact Hinv1 | unfold Qle; simpl; lia].
Qed.

(** X3: the fraction of a beat is defined exactly when its duration value
    is not zero, and the only exception is [ZeroDivisionError]; for a
    positive duration value the fraction lies in (0, 7/4]. *)
Theorem get_beat_duration_fraction_cases (b : Beat.t) :
  (Duration.value (Beat.duration b) = 0%Z <->
   get_beat_duration_fraction b = Raise ZeroDivisionError) /\
  (Duration.value (Beat.duration b) <> 0%Z <->
   exists q, get_beat_duration_fraction b = Ok q) /\
  (forall q, (0 < Duration.value (Beat.duration b))%Z ->
     get_beat_duration_fraction b = Ok q -> (0 < q)%Q /\ (q <= 7 # 4)%Q).
Proof.
  split; [|split].
  - split; [apply get_beat_duration_fraction_zero|].
    intros Hraise. destruct (decide (Duration.value (Beat.duration b) = 0%Z)) as [|Hne];
      [assumption|].
    destruct (get_beat_duration_fraction_defined b Hne) as [q Hq]. congruence.
  - split; [apply get_beat_duration_fraction_defined|].
    intros [q Hq] Hz. rewrite (get_beat_duration_fraction_zero b Hz) in Hq. discriminate.
  - intros q Hpos Hq. exact (beat_fraction_bounds b q Hpos Hq).
Qed.

Lemma get_beat_duration_fraction_cases_witness :
  (0 < 1 # 8)%Q /\ (1 # 8 <= 7 # 4)%Q.
Proof.
  apply (proj2 (proj2 (get_beat_duration_fraction_cases eighth_chord)) (1 # 8)%Q).
  - reflexivity.
  - reflexivity.
Defined.

(** ** Positions (lines 57-64) *)

(** The running sums of a list of fractions, from [current]: one per
    fraction, each taken before its fraction is added. *)
Fixpoint running_sums (current : Q) (qs : list Q) : list Q :=
  match qs with
  | [] => []
  | q :: rest => current :: running_sums (Fraction_add current q) rest
  end.

Lemma beat_positions_from_sums (beats : list loc) :
  forall (current_pos : Q) (positions : list Q) (s : state),
    nonzero_durations (heap s) beats ->
    beat_positions_from current_pos beats positions s
    = (Ok (positions ++ running_sums current_pos (fractions (heap s) beats)), s).
Proof.
  induction beats as [|l rest IH]; intros current_pos positions s Hnz; simpl.
  - rewrite app_nil_r. reflexivity.
  - apply Forall_cons in Hnz as [Hl Hrest].
    erewrite bind_ok by reflexivity.
    erewrite bind_ok by (unfold lift; rewrite (beat_fraction_run _ Hl); reflexivity).
    rewrite IH by exact Hrest. rewrite <- app_assoc. reflexivity.
Qed.

Lemma running_sums_lookup (qs : list Q) :
  forall (current : Q) (i : nat),
    i < length qs ->
    running_sums current qs !! i = Some (foldl Fraction_add current (take i qs)).
Proof.
  induction qs as [|q rest IH]; intros current i Hi; simpl in *; [lia|].
  destruct i as [|i]; [reflexivity|]. simpl. apply IH. lia.
Qed.

Lemma running_sums_length (qs : list Q) :
  forall current, length (running_sums current qs) = length qs.
Proof. induction qs as [|q rest IH]; intros current; simpl; [reflexivity|]. rewrite IH. reflexivity. Qed.

Lemma lookup_map_Some {A B} (f : A -> B) (l : list A) (i : nat) (x : A) :
  l !! i = Some x -> map f l !! i = Some (f x).
Proof.
  revert i. induction l as [|a l IH]; intros i Hi; [discriminate|].
  destruct i as [|i]; simpl in *; [inversion Hi; reflexivity | apply IH; exact Hi].
Qed.

(** X4: for a voice whose beats have duration values other than zero,
    [calculate_beat_positions] changes nothing and returns one offset per
    beat: the offset of a beat is the exact sum, as the validator would
    compute it, of the durations of the beats before it; so the first offset
    is 0 and each next one is the previous offset plus the fraction of the
    previous beat. *)
Theorem calculate_beat_positions_offsets (voice : Voice.t) (s : state) :
  nonzero_durations (heap s) (Voice.beats voice) ->
  exists positions,
    calculate_beat_positions voice s = (Ok positions, s) /\
    length positions = length (Voice.beats voice) /\
    (forall i, i < length (Voice.beats voice) ->
       exists p, positions !! i = Some p /\
                 voice_duration (heap s) (take i (Voice.beats voice)) = Ok p) /\
    (forall l, Voice.beats voice !! 0 = Some l -> positions !! 0 = Some 0%Q) /\
    (forall i l p,
       Voice.beats voice !! i = Some l ->
       positions !! i = Some p ->
       S i < length (Voice.beats voice) ->
       exists d, get_beat_duration_fraction (heap s !!! l) = Ok d /\
                 positions !! S i = Some (Fraction_add p d)).
Proof.
  intros Hnz. unfold calculate_beat_positions.
  rewrite beat_positions_from_sums by exact Hnz. simpl.
  set (qs := fractions (heap s) (Voice.beats voice)).
  assert (Hlen : length qs = length (Voice.beats voice)).
  { unfold qs, fractions. apply length_map. }
  eexists. split; [reflexivity|].
  split; [rewrite running_sums_length; exact Hlen|].
  split; [|split].
  - intros i Hi. eexists. split; [apply running_sums_lookup; lia|].
    rewrite voice_duration_run by (apply Forall_take; exact Hnz).
    rewrite fractions_take. reflexivity.
  - intros l Hl. apply lookup_lt_Some in Hl.
    rewrite running_sums_lookup by lia. reflexivity.
  - intros i l p Hl Hp Hi.
    assert (Hd : Duration.value (Beat.duration (heap s !!! l)) <> 0%Z).
    { exact (proj1 (Forall_lookup _ _) Hnz i l Hl). }
    exists (beat_fraction (heap s !!! l)). split; [apply beat_fraction_run; exact Hd|].
    rewrite running_sums_lookup in Hp by lia. inversion Hp; subst p.
    rewrite running_sums_lookup by lia.
    assert (Hq : qs !! i = Some (beat_fraction (heap s !!! l))).
    { unfold qs, fractions.
      exact (lookup_map_Some (fun l => beat_fraction (heap s !!! l)) _ _ _ Hl). }
    rewrite (take_S_r _ _ _ Hq), foldl_app. reflexivity.
Qed.

Lemma calculate_beat_positions_offsets_witness :
  exists positions,
    calculate_beat_positions tremolo_voice tremolo_state = (Ok positions, tremolo_state) /\
    length positions = 4 /\
    positions !! 0 = Some 0%Q.
Proof.
  destruct (calculate_beat_positions_offsets tremolo_voice tremolo_state)
    as (positions & Hrun & Hlen & _ & Hfirst & _).
  - repeat constructor; vm_compute; discriminate.
  - exists positions. split; [exact Hrun|]. split; [exact Hlen|].
    apply (Hfirst 0). reflexivity.
Defined.

(** An example: beats of 1/4, 1/8 and 1/8 start at 0, 1/4 and 3/8. *)
Lemma calculate_beat_positions_example :
  fst (calculate_beat_positions (Voice.mk 0 [0; 2; 2]) tremolo_state)
  = Ok [0%Q; (1 # 4)%Q; (3 # 8)%Q].
Proof. vm_compute. reflexivity. Qed.

(** ** A duration value of zero *)

Definition has_zero_duration (h : gmap loc Beat.t) (beats : list loc) : Prop :=
  Exists (fun l => Duration.value (Beat.duration (h !!! l)) = 0%Z) beats.


Lemma beat_positions_from_zero (beats : list loc) :
  forall (current_pos : Q) (positions : list Q) (s : state),
    has_zero_duration (heap s) beats ->
    beat_positions_from current_pos beats positions s = (Raise ZeroDivisionError, s).
Proof.
  induction beats as [|l rest IH]; intros current_pos positions s Hz.
  - inversion Hz.
  - simpl. erewrite bind_ok by reflexivity.
    destruct (decide (Duration.value (Beat.duration (heap s !!! l)) = 0%Z)) as [Hl|Hl].
    + erewrite bind_raise; [reflexivity|].
      unfold lift. rewrite (get_beat_duration_fraction_zero _ Hl). reflexivity.
    + erewrite bind_ok by (unfold lift; rewrite (beat_fraction_run _ Hl); reflexivity).
      apply IH. apply Exists_cons in Hz as [Hz|Hz]; [contradiction | exact Hz].
Qed.

(** X5: when a beat of a voice has the duration value 0,
    [calculate_beat_positions] raises [ZeroDivisionError] and changes
    nothing. *)
Theorem calculate_beat_positions_zero_duration (voice : Voice.t) (s : state) :
  has_zero_duration (heap s) (Voice.beats voice) ->
  calculate_beat_positions voice s = (Raise ZeroDivisionError, s).
Proof. intros Hz. apply beat_positions_from_zero. exact Hz. Qed.

Definition zero_beat : Beat.t :=
  Beat.mk (Duration.mk 0 (Some false) None None None) (Effect.mk None) [plain_note 5 1].

Definition zero_state : state :=
  mkState (list_to_map [(0, quarter_beat); (1, tremolo_quarter); (2, zero_beat)]) 3 [].

Lemma zero_state_has_zero_duration : has_zero_duration (heap zero_state) [0; 1; 2].
Proof. right. right. left. reflexivity. Defined.

Lemma calculate_beat_positions_zero_duration_witness :
  calculate_beat_positions (Voice.mk 0 [0; 1; 2]) zero_state
  = (Raise ZeroDivisionError, zero_state).
Proof.
  apply (calculate_beat_positions_zero_duration (Voice.mk 0 [0; 1; 2]) zero_state).
  exact zero_state_has_zero_duration.
Defined.






(** ** Reading a time signature (lines 67-86) *)

(** X7: when the time signature has a numerator and a denominator that
    [int] converts to [n] and to [d], and [d] is not zero,
    [get_time_signature_duration] returns the exact rational [n/d], in
    lowest terms, and prints nothing. *)
Theorem get_time_signature_duration_reads (measure : Measure.t) (s : state)
    (ts : TimeSignature.t) (nv dv : pyval) (n d : Z) :
  time_signature_attribute measure = Some (Some ts) ->
  TimeSignature.numerator ts = Some nv ->
  TimeSignature.denominator ts = Some dv ->
  py_int nv = Ok n ->
  py_int dv = Ok d ->
  d <> 0%Z ->
  exists q,
    get_time_signature_duration measure s = (Ok q, s) /\
    Qred q = q /\
    (q == inject_Z n / inject_Z d)%Q.
Proof.
  intros Hts Hn Hd Hnv Hdv Hd0.
  destruct (Fraction_quotient n d Hd0) as (q & Hq & Hred & Heq).
  exists q. split; [|split; assumption].
  unfold time_signature_attribute in Hts. unfold get_time_signature_duration.
  destruct (Measure.header measure) as [h|]; [|discriminate]. rewrite Hts.
  unfold try_except, lift, read_time_signature, ts_attribute.
  rewrite Hn, Hd. simpl. rewrite Hnv. simpl. rewrite Hdv. simpl. rewrite Hq.
  reflexivity.
Qed.

Definition six_eight : Measure.t :=
  Measure.mk
    (Some (Header.mk (Some (Some (TimeSignature.mk (Some (VInt 6)) (Some (VInt 8)))))))
    [].

Lemma get_time_signature_duration_reads_witness :
  exists q,
    get_time_signature_duration six_eight (mkState ∅ 0 []) = (Ok q, mkState ∅ 0 []) /\
    Qred q = q /\
    (q == inject_Z 6 / inject_Z 8)%Q.
Proof.
  apply (get_time_signature_duration_reads six_eight (mkState ∅ 0 [])
           (TimeSignature.mk (Some (VInt 6)) (Some (VInt 8))) (VInt 6) (VInt 8) 6 8);
    try reflexivity.
  discriminate.
Defined.

(** X8: whatever it is given, [get_time_signature_duration] never touches
    the store of beats, and no [AttributeError] and no [TypeError] leaves
    it; it prints nothing, or it prints exactly one warning and then
    returns 1. *)
Theorem get_time_signature_duration_outcomes (measure : Measure.t) (s : state) :
  let r := fst (get_time_signature_duration measure s) in
  let s' := snd (get_time_signature_duration measure s) in
  heap s' = heap s /\ next_id s' = next_id s /\
  r <> Raise AttributeError /\ r <> Raise TypeError /\
  (stdout s' = stdout s \/
   exists warning, stdout s' = stdout s ++ [warning] /\ r = Ok 1%Q).
Proof.
  cbv zeta. unfold get_time_signature_duration.
  destruct (Measure.header measure) as [h|];
    [|simpl; repeat split; try discriminate; left; reflexivity].
  destruct (Header.timeSignature h) as [ts|];
    [|simpl; repeat split; try discriminate; left; reflexivity].
  unfold try_except, lift.
  destruct (read_time_signature ts) as [q|e|].
  - simpl. repeat split; try discriminate. left. reflexivity.
  - destruct e; simpl; repeat split; try discriminate;
      try (left; reflexivity); right; eexists; split; reflexivity.
  - simpl. repeat split; try discriminate. left. reflexivity.
Qed.

(** ** More on the subdivider (lines 89-165) *)

Lemma create_individual_notes_preserves (l : loc) (v : Voice.t)
    (speed : option TremoloPicking.t) (s : state) :
  let s' := snd (create_individual_notes l v speed s) in
  next_id s <= next_id s' /\
  forall l', l' < next_id s -> heap s' !! l' = heap s !! l'.
Proof.
  cbv zeta.
  destruct (decide (Duration.value (Beat.duration (heap s !!! l)) = 0%Z)) as [Hz|Hnz].
  - unfold create_individual_notes.
    erewrite bind_ok by reflexivity.
    erewrite bind_raise
      by (unfold lift; rewrite (get_beat_duration_fraction_zero _ Hz); reflexivity).
    simpl. split; [lia | reflexivity].
  - destruct (create_individual_notes_spec l v speed s Hnz)
      as (new_beats & s' & Hrun & _ & _ & Hnext & _ & Hold & _).
    rewrite Hrun. simpl. split; assumption.
Qed.

(** X9: [create_individual_notes] never changes a beat that exists when it
    is called, whatever it returns or raises: it only creates beats, and
    it only appends to the output. *)
Theorem create_individual_notes_frame (l : loc) (v : Voice.t)
    (speed : option TremoloPicking.t) (s : state) :
  let s' := snd (create_individual_notes l v speed s) in
  next_id s <= next_id s' /\
  (forall l', l' < next_id s -> heap s' !! l' = heap s !! l') /\
  exists out, stdout s' = stdout s ++ out.
Proof.
  cbv zeta.
  destruct (create_individual_notes_preserves l v speed s) as [Hnext Hold].
  split; [exact Hnext|]. split; [exact Hold|].
  destruct (decide (Duration.value (Beat.duration (heap s !!! l)) = 0%Z)) as [Hz|Hnz].
  - unfold create_individual_notes.
    erewrite bind_ok by reflexivity.
    erewrite bind_raise
      by (unfold lift; rewrite (get_beat_duration_fraction_zero _ Hz); reflexivity).
    exists []. simpl. rewrite app_nil_r. reflexivity.
  - destruct (create_individual_notes_spec l v speed s Hnz)
      as (new_beats & s' & Hrun & _ & _ & _ & Hout & _).
    rewrite Hrun. simpl. eexists. exact Hout.
Qed.

(** X10: on a beat whose duration value is 0, [create_individual_notes]
    raises [ZeroDivisionError] at once: nothing is created and nothing is
    printed, not even the warning for a missing speed. *)
Theorem create_individual_notes_zero_duration (l : loc) (v : Voice.t)
    (speed : option TremoloPicking.t) (s : state) :
  Duration.value (Beat.duration (heap s !!! l)) = 0%Z ->
  create_individual_notes l v speed s = (Raise ZeroDivisionError, s).
Proof.
  intros Hz. unfold create_individual_notes.
  erewrite bind_ok by reflexivity.
  erewrite bind_raise
    by (unfold lift; rewrite (get_beat_duration_fraction_zero _ Hz); reflexivity).
  reflexivity.
Qed.

Lemma create_individual_notes_zero_duration_witness :
  create_individual_notes 2 (Voice.mk 0 [2]) None zero_state
  = (Raise ZeroDivisionError, zero_state).
Proof.
  apply (create_individual_notes_zero_duration 2 (Voice.mk 0 [2]) None zero_state).
  reflexivity.
Defined.

Lemma resolved_target_fraction_positive (speed : option TremoloPicking.t) :
  (0 < 1 / inject_Z (resolved_target speed))%Q.
Proof. destruct (resolved_target_cases speed) as [-> | [-> | ->]]; reflexivity. Qed.

(** X11: when the beat is shorter than the target duration (its fraction is
    below [1/t], which includes every negative duration value),
    [create_individual_notes] returns no beat and creates none. *)
Theorem create_individual_notes_short_beat (l : loc) (v : Voice.t)
    (speed : option TremoloPicking.t) (s : state) (q : Q) :
  get_beat_duration_fraction (heap s !!! l) = Ok q ->
  (q < 1 / inject_Z (resolved_target speed))%Q ->
  exists s',
    create_individual_notes l v speed s = (Ok [], s') /\
    heap s' = heap s /\
    next_id s' = next_id s.
Proof.
  intros Hq Hshort.
  assert (Hnz : Duration.value (Beat.duration (heap s !!! l)) <> 0%Z).
  { intros Hz. rewrite (get_beat_duration_fraction_zero _ Hz) in Hq. discriminate. }
  pose proof (create_individual_notes_run l v speed s Hnz) as Hrun. cbv zeta in Hrun.
  assert (Hslots : slot_count (heap s !!! l) (resolved_target speed) = 0).
  { unfold slot_count. rewrite Hq. destruct (Beat.notes (heap s !!! l)); [reflexivity|].
    pose proof (floor_quotient_small _ q (resolved_target_fraction_positive speed) Hshort).
    lia. }
  rewrite Hslots in Hrun. simpl in Hrun.
  eexists. split; [exact Hrun|]. split; reflexivity.
Qed.

Definition thirty_second_beat : Beat.t :=
  Beat.mk (Duration.mk 32 (Some false) None None None) (Effect.mk None)
    [Note.mk 7 1 NoteType.normal 95 (Effect.mk (Some (Some sixteenth_speed)))].

Definition short_state : state := mkState {[ 0 := thirty_second_beat ]} 1 [].

Lemma create_individual_notes_short_beat_witness :
  exists s',
    create_individual_notes 0 (Voice.mk 0 [0]) (Some sixteenth_speed) short_state
    = (Ok [], s') /\
    heap s' = heap short_state /\
    next_id s' = next_id short_state.
Proof.
  apply (create_individual_notes_short_beat 0 (Voice.mk 0 [0]) (Some sixteenth_speed)
           short_state (1 # 32)%Q).
  - reflexivity.
  - reflexivity.
Defined.

Lemma chord_beat_fraction (b : Beat.t) (t : Z) :
  get_beat_duration_fraction (chord_beat b t) = duration_to_fraction t false false.
Proof.
  unfold get_beat_duration_fraction, chord_beat. simpl.
  destruct (Duration.isDotted (Beat.duration b)), (Duration.isDoubleDotted (Beat.duration b));
    reflexivity.
Qed.

Lemma quotient_times_divisor (q tf : Q) : (0 < tf)%Q -> (q / tf * tf == q)%Q.
Proof.
  intros Hpos. rewrite Qmult_comm. apply Qmult_div_r.
  intro E. rewrite E in Hpos. exact (Qlt_irrefl _ Hpos).
Qed.

(** The beats of the subdivider never last longer than the original, and
    fall short of it by less than one target unit. *)
Lemma slot_count_within (b : Beat.t) (t : Z) (q : Q) :
  get_beat_duration_fraction b = Ok q ->
  (0 < 1 / inject_Z t)%Q ->
  (0 <= q)%Q ->
  (inject_Z (Z.of_nat (slot_count b t)) * (1 / inject_Z t) <= q)%Q.
Proof.
  intros Hq Ht Hnonneg. unfold slot_count. rewrite Hq.
  destruct (Beat.notes b) as [|note rest].
  - simpl. rewrite Qmult_0_l. exact Hnonneg.
  - rewrite Z2Nat.id.
    + apply Qle_trans with (q / (1 / inject_Z t) * (1 / inject_Z t))%Q.
      * apply Qmult_le_compat_r; [apply Qfloor_le | apply Qlt_le_weak; exact Ht].
      * rewrite quotient_times_divisor by exact Ht. apply Qle_refl.
    + apply Qfloor_nonneg. apply Qle_shift_div_l; [exact Ht|].
      rewrite Qmult_0_l. exact Hnonneg.
Qed.

Lemma slot_count_remainder (b : Beat.t) (t : Z) (q : Q) :
  get_beat_duration_fraction b = Ok q ->
  Beat.notes b <> [] ->
  (0 < 1 / inject_Z t)%Q ->
  (0 <= q)%Q ->
  (q < (inject_Z (Z.of_nat (slot_count b t)) + 1) * (1 / inject_Z t))%Q.
Proof.
  intros Hq Hnotes Ht Hnonneg. unfold slot_count. rewrite Hq.
  destruct (Beat.notes b) as [|note rest]; [congruence|].
  rewrite Z2Nat.id.
  - apply Qle_lt_trans with (q / (1 / inject_Z t) * (1 / inject_Z t))%Q.
    + rewrite quotient_times_divisor by exact Ht. apply Qle_refl.
    + apply Qmult_lt_compat_r; [exact Ht|].
      pose proof (Qlt_floor (q / (1 / inject_Z t))) as Hlt.
      rewrite inject_Z_plus in Hlt. exact Hlt.
  - apply Qfloor_nonneg. apply Qle_shift_div_l; [exact Ht|].
    rewrite Qmult_0_l. exact Hnonneg.
Qed.

Lemma slot_count_negative (b : Beat.t) (t : Z) (q : Q) :
  get_beat_duration_fraction b = Ok q ->
  (0 < 1 / inject_Z t)%Q ->
  (q < 0)%Q ->
  slot_count b t = 0.
Proof.
  intros Hq Ht Hneg. unfold slot_count. rewrite Hq.
  destruct (Beat.notes b) as [|note rest]; [reflexivity|].
  assert (Hlt : (q < 1 / inject_Z t)%Q) by (eapply Qlt_trans; eassumption).
  pose proof (floor_quotient_small _ q Ht Hlt). lia.
Qed.

Lemma fractions_constant (h : gmap loc Beat.t) (beats : list loc) (b : Beat.t) :
  Forall (fun l => h !! l = Some b) beats ->
  Forall (fun q => q = beat_fraction b) (fractions h beats).
Proof.
  intros H. unfold fractions. apply Forall_map.
  eapply Forall_impl; [exact H|]. intros l Hl. simpl.
  rewrite (lookup_total_correct _ _ _ Hl). reflexivity.
Qed.

Lemma create_individual_notes_duration_run (l : loc) (v : Voice.t)
    (speed : option TremoloPicking.t) (s : state) :
  let ob := heap s !!! l in
  let t := resolved_target speed in
  Beat.notes ob <> [] ->
  (0 < Duration.value (Beat.duration ob))%Z ->
  exists original_fraction new_beats s' total,
    get_beat_duration_fraction ob = Ok original_fraction /\
    create_individual_notes l v speed s = (Ok new_beats, s') /\
    nonzero_durations (heap s') new_beats /\
    voice_duration (heap s') new_beats = Ok total /\
    (total <= original_fraction)%Q /\
    (original_fraction < total + 1 / inject_Z t)%Q /\
    (forall m : Z,
       (original_fraction == inject_Z m * (1 / inject_Z t))%Q ->
       (total == original_fraction)%Q).
Proof.
  intros ob t Hnotes Hd.
  destruct (get_beat_duration_fraction_defined ob) as (orig & Horig); [lia|].
  assert (Hpos : (0 < orig)%Q).
  { apply (beat_fraction_bounds ob orig Hd Horig). }
  destruct (create_individual_notes_spec l v speed s)
    as (new_beats & s' & Hrun & Hlen & _ & _ & _ & _ & Hnew); [fold ob; lia|].
  fold ob in Hlen, Hnew. fold t in Hlen, Hnew.
  destruct (target_fraction_run t (resolved_target_cases speed)) as (tf & Htf & Htfpos & Htfeq).
  assert (Hunit : (0 < 1 / inject_Z t)%Q) by apply resolved_target_fraction_positive.
  assert (Hchord : beat_fraction (chord_beat ob t) = tf).
  { unfold beat_fraction. rewrite chord_beat_fraction, Htf. reflexivity. }
  assert (Hnz : nonzero_durations (heap s') new_beats).
  { eapply Forall_impl; [exact Hnew|]. intros nb [_ Hnb]. simpl.
    rewrite (lookup_total_correct _ _ _ Hnb). simpl.
    destruct (resolved_target_cases speed) as [E | [E | E]]; fold t in E; rewrite E;
      discriminate. }
  assert (Htotal : (foldl Fraction_add 0%Q (fractions (heap s') new_beats)
                    == inject_Z (Z.of_nat (slot_count ob t)) * (1 / inject_Z t))%Q).
  { rewrite foldl_Fraction_add_Qsum, Qplus_0_l.
    rewrite (Qsum_constant _ tf).
    - unfold fractions. rewrite length_map, Hlen, Htfeq. reflexivity.
    - rewrite <- Hchord. apply fractions_constant.
      eapply Forall_impl; [exact Hnew|]. intros nb [_ Hnb]. exact Hnb. }
  eexists orig, new_beats, s', _. split; [exact Horig|]. split; [exact Hrun|].
  split; [exact Hnz|].
  split; [apply voice_duration_run; exact Hnz|].
  rewrite Htotal. split; [|split].
  - apply slot_count_within; [exact Horig | exact Hunit | apply Qlt_le_weak; exact Hpos].
  - assert (Hre : (inject_Z (Z.of_nat (slot_count ob t)) * (1 / inject_Z t)
                    + 1 / inject_Z t
                    == (inject_Z (Z.of_nat (slot_count ob t)) + 1) * (1 / inject_Z t))%Q)
      by ring.
    rewrite Hre.
    apply slot_count_remainder;
      [exact Horig | exact Hnotes | exact Hunit | apply Qlt_le_weak; exact Hpos].
  - intros m Hm. rewrite Htotal, Hm.
    assert (Hquot : (orig / (1 / inject_Z t) == inject_Z m)%Q).
    { rewrite Hm. apply Qdiv_mult_l.
      intro E. rewrite E in Hunit. exact (Qlt_irrefl _ Hunit). }
    assert (Hm0 : (0 <= m)%Z).
    { rewrite <- (Qfloor_Z m), <- (Qfloor_comp _ _ Hquot). apply Qfloor_nonneg.
      apply Qle_shift_div_l; [exact Hunit|]. rewrite Qmult_0_l.
      apply Qlt_le_weak. exact Hpos. }
    unfold slot_count. rewrite Horig.
    destruct (Beat.notes ob) as [|note rest]; [congruence|].
    rewrite (Qfloor_comp _ _ Hquot), Qfloor_Z, Z2Nat.id by exact Hm0. reflexivity.
Qed.

(** X12: the beats that [create_individual_notes] returns for a beat with
    notes and a positive duration value never last longer, together, than
    the original beat, and they fall short of it by less than one target
    unit; when the original is a whole number of target units they last
    exactly as long.  The durations are the fractions written out from the
    duration values and the dots. *)
Theorem create_individual_notes_duration (l : loc) (v : Voice.t)
    (speed : option TremoloPicking.t) (s : state) :
  let ob := heap s !!! l in
  let t := resolved_target speed in
  let original := note_value_fraction (Beat.duration ob) in
  Beat.notes ob <> [] ->
  (0 < Duration.value (Beat.duration ob))%Z ->
  exists new_beats s',
    create_individual_notes l v speed s = (Ok new_beats, s') /\
    (written_total (heap s') new_beats <= original)%Q /\
    (original < written_total (heap s') new_beats + 1 / inject_Z t)%Q /\
    (forall m : Z,
       (original == inject_Z m * (1 / inject_Z t))%Q ->
       (written_total (heap s') new_beats == original)%Q).
Proof.
  intros ob t original Hnotes Hd.
  destruct (create_individual_notes_duration_run l v speed s Hnotes Hd)
    as (orig & new_beats & s' & total & Horig & Hrun & Hnz & Htotal & Hle & Hlt & Hexact).
  fold ob in Horig. fold t in Hlt, Hexact.
  assert (Ho : (orig == original)%Q).
  { destruct (get_beat_duration_fraction_written ob) as (q & Hq & Heq); [lia|].
    rewrite Horig in Hq. inversion Hq; subst q. exact Heq. }
  pose proof (voice_duration_written _ _ _ Hnz Htotal) as Ht.
  exists new_beats, s'. split; [exact Hrun|].
  rewrite <- Ht, <- Ho. split; [exact Hle|]. split; [exact Hlt|].
  intros m Hm. rewrite <- Ho in Hm. rewrite <- Ht, <- Ho. exact (Hexact m Hm).
Qed.

Lemma create_individual_notes_duration_witness :
  exists new_beats s',
    create_individual_notes 0 (Voice.mk 0 [0]) (Some sixteenth_speed) chord_state
    = (Ok new_beats, s') /\
    (written_total (heap s') new_beats <= note_value_fraction (Beat.duration eighth_chord))%Q /\
    (note_value_fraction (Beat.duration eighth_chord)
     < written_total (heap s') new_beats + 1 / inject_Z 16)%Q /\
    (forall m : Z,
       (note_value_fraction (Beat.duration eighth_chord)
        == inject_Z m * (1 / inject_Z 16))%Q ->
       (written_total (heap s') new_beats
        == note_value_fraction (Beat.duration eighth_chord))%Q).
Proof.
  apply (create_individual_notes_duration 0 (Voice.mk 0 [0]) (Some sixteenth_speed)
           chord_state).
  - discriminate.
  - reflexivity.
Defined.

(** X13: whatever the beat (of a duration value other than zero) and the
    speed object, [create_individual_notes] returns at most 56 beats: a
    double-dotted whole note at the speed 32. *)
Theorem create_individual_notes_at_most_56 (l : loc) (v : Voice.t)
    (speed : option TremoloPicking.t) (s : state) :
  Duration.value (Beat.duration (heap s !!! l)) <> 0%Z ->
  exists new_beats s',
    create_individual_notes l v speed s = (Ok new_beats, s') /\
    length new_beats <= 56.
Proof.
  intros Hnz.
  destruct (create_individual_notes_spec l v speed s Hnz)
    as (new_beats & s' & Hrun & Hlen & _).
  exists new_beats, s'. split; [exact Hrun|]. rewrite Hlen.
  destruct (get_beat_duration_fraction_defined _ Hnz) as (orig & Horig).
  pose proof (resolved_target_fraction_positive speed) as Hunit.
  destruct (Qlt_le_dec orig 0) as [Hneg|Hnonneg].
  - rewrite (slot_count_negative _ _ _ Horig Hunit Hneg). lia.
  - assert (Hd : (0 < Duration.value (Beat.duration (heap s !!! l)))%Z).
    { destruct (Z.lt_trichotomy 0 (Duration.value (Beat.duration (heap s !!! l))))
        as [H|[H|H]]; [exact H | congruence |].
      unfold get_beat_duration_fraction in Horig.
      apply duration_to_fraction_sign in Horig. destruct Horig as [_ Hn].
      exfalso. exact (Qlt_not_le _ _ (Hn H) Hnonneg). }
    destruct (beat_fraction_bounds _ orig Hd Horig)
      as [_ Hmax].
    pose proof (slot_count_within _ (resolved_target speed) _ Horig Hunit Hnonneg) as Hwithin.
    pose proof (Qle_trans _ _ _ Hwithin Hmax) as Hbound.
    destruct (resolved_target_cases speed) as [E | [E | E]]; rewrite E in *;
      unfold Qle, Qmult, Qdiv, Qinv, inject_Z in Hbound; simpl in Hbound; lia.
Qed.

Definition longest_beat : Beat.t :=
  Beat.mk (Duration.mk 1 (Some true) (Some true) None None) (Effect.mk None)
    [Note.mk 7 1 NoteType.normal 95 (Effect.mk (Some (Some thirty_second_speed)))].

Definition longest_state : state := mkState {[ 0 := longest_beat ]} 1 [].

Lemma create_individual_notes_at_most_56_witness :
  exists new_beats s',
    create_individual_notes 0 (Voice.mk 0 [0]) (Some thirty_second_speed) longest_state
    = (Ok new_beats, s') /\
    length new_beats <= 56.
Proof.
  apply (create_individual_notes_at_most_56 0 (Voice.mk 0 [0]) (Some thirty_second_speed)
           longest_state).
  vm_compute. discriminate.
Defined.

(** The bound is met. *)
Lemma create_individual_notes_56 :
  match fst (create_individual_notes 0 (Voice.mk 0 [0]) (Some thirty_second_speed)
               longest_state) with
  | Ok new_beats => length new_beats = 56
  | _ => False
  end.
Proof. vm_compute. reflexivity. Qed.

(** ** More on the rewriter (lines 168-208) *)

Definition without_tremolo (h : gmap loc Beat.t) (beats : list loc) : Prop :=
  Forall (fun l => has_tremolo_picking (h !!! l) = false) beats.

Lemma detected_without_tremolo (h : gmap loc Beat.t) (positions : list Q)
    (beats : list loc) :
  without_tremolo h beats -> forall idx, detected h positions idx beats = [].
Proof.
  induction 1 as [|l rest Hl _ IH]; intros idx; simpl; [reflexivity|].
  rewrite Hl, IH. reflexivity.
Qed.

Lemma collect_tremolo_beats_none (positions : list Q) (beats : list loc) :
  forall (idx : nat) (tremolo_beats : list TremoloBeat.t) (s : state),
    without_tremolo (heap s) beats ->
    idx + length beats <= length positions ->
    collect_tremolo_beats positions idx beats tremolo_beats s = (Ok tremolo_beats, s).
Proof.
  induction beats as [|l rest IH]; intros idx tremolo_beats s Hno Hlen; simpl in *;
    [reflexivity|].
  apply Forall_cons in Hno as [Hl Hrest].
  destruct (lookup_lt_is_Some_2 positions idx) as [position Hposition]; [lia|].
  erewrite bind_ok by (apply index_run; exact Hposition).
  erewrite bind_ok by reflexivity.
  rewrite Hl. apply IH; [exact Hrest | lia].
Qed.

Lemma convert_tremolo_in_voice_none (voice : Voice.t) (converted_count : nat) (s : state) :
  nonzero_durations (heap s) (Voice.beats voice) ->
  without_tremolo (heap s) (Voice.beats voice) ->
  convert_tremolo_in_voice voice converted_count s = (Ok (voice, converted_count), s).
Proof.
  intros Hnz Hno.
  destruct (beat_positions_from_run (Voice.beats voice) 0%Q [] s Hnz)
    as (positions & Hpos & Hlen).
  unfold convert_tremolo_in_voice.
  erewrite bind_ok by exact Hpos.
  erewrite bind_ok by (apply collect_tremolo_beats_none; [exact Hno | simpl; lia]).
  reflexivity.
Qed.

Lemma convert_tremolo_in_voices_none (voices : list Voice.t) (converted_count : nat)
    (s : state) :
  Forall (fun voice => nonzero_durations (heap s) (Voice.beats voice)) voices ->
  Forall (fun voice => without_tremolo (heap s) (Voice.beats voice)) voices ->
  convert_tremolo_in_voices voices converted_count s = (Ok (voices, converted_count), s).
Proof.
  induction voices as [|voice rest IH]; intros Hnz Hno; simpl; [reflexivity|].
  apply Forall_cons in Hnz as [Hnzv Hnzr]. apply Forall_cons in Hno as [Hnov Hnor].
  erewrite bind_ok by (apply convert_tremolo_in_voice_none; assumption). simpl.
  erewrite bind_ok by (apply IH; assumption). reflexivity.
Qed.

(** X14: on a measure in which no beat has a tremolo marker (and no beat
    has the duration value 0), [convert_tremolo_in_measure] returns the
    count 0 and changes nothing: the measure, the store of beats and the
    output are as before. *)
Theorem convert_tremolo_in_measure_without_tremolo (measure : Measure.t)
    (track_name : String.string) (s : state) :
  Forall (fun voice => nonzero_durations (heap s) (Voice.beats voice))
         (Measure.voices measure) ->
  Forall (fun voice => without_tremolo (heap s) (Voice.beats voice))
         (Measure.voices measure) ->
  convert_tremolo_in_measure measure track_name s = (Ok (0, measure), s).
Proof.
  intros Hnz Hno. unfold convert_tremolo_in_measure.
  erewrite bind_ok by (apply convert_tremolo_in_voices_none; assumption).
  destruct measure. reflexivity.
Qed.

Lemma convert_tremolo_in_measure_without_tremolo_witness :
  convert_tremolo_in_measure crowded_measure String.EmptyString quarters_state
  = (Ok (0, crowded_measure), quarters_state).
Proof.
  apply (convert_tremolo_in_measure_without_tremolo crowded_measure String.EmptyString
           quarters_state).
  - repeat constructor; vm_compute; discriminate.
  - repeat constructor.
Defined.

(** *** What the rewriter leaves alone *)

Lemma detected_beats_subset (h : gmap loc Beat.t) (positions : list Q) (beats : list loc) :
  forall idx entry,
    In entry (detected h positions idx beats) -> In (TremoloBeat.beat entry) beats.
Proof.
  induction beats as [|l rest IH]; intros idx entry Hin; simpl in *; [contradiction|].
  apply in_app_or in Hin as [Hin|Hin].
  - destruct (has_tremolo_picking (h !!! l)); [|contradiction].
    destruct Hin as [<-|[]]. left. reflexivity.
  - right. eapply IH. exact Hin.
Qed.

Lemma rewrite_tremolo_beats_frame (voice : Voice.t) (visited : list TremoloBeat.t) :
  forall (beats : list loc) (converted_count : nat) (s : state) r s',
    rewrite_tremolo_beats voice visited beats converted_count s = (r, s') ->
    next_id s <= next_id s' /\
    forall l, l < next_id s -> ~ In l (map TremoloBeat.beat visited) ->
              heap s' !! l = heap s !! l.
Proof.
  induction visited as [|entry rest IH]; intros beats converted_count s r s' Hrun.
  - simpl in Hrun. inversion Hrun; subst. split; [lia | reflexivity].
  - rewrite rewrite_tremolo_beats_cons in Hrun.
    erewrite bind_ok in Hrun by reflexivity.
    set (sp := mkState (heap s) (next_id s)
                 (stdout s ++ [ConvertingTremolo (TremoloBeat.beat_position entry)])) in *.
    pose proof (create_individual_notes_preserves (TremoloBeat.beat entry) voice
                  (TremoloBeat.tremolo_speed_value entry) sp) as Hframe.
    cbv zeta in Hframe.
    unfold bind in Hrun at 1.
    destruct (create_individual_notes (TremoloBeat.beat entry) voice
                (TremoloBeat.tremolo_speed_value entry) sp) as [[new_beats|e|] sa] eqn:Hc;
      simpl in Hframe; destruct Hframe as [Hnext Hold];
      try (inversion Hrun; subst; split; [exact Hnext | intros l Hl _; apply Hold; exact Hl]).
    destruct (length new_beats <=? 1) eqn:Hcount.
    + erewrite bind_ok in Hrun by reflexivity.
      apply IH in Hrun as [Hnext' Hold']. simpl in Hnext', Hold'.
      split; [lia|]. intros l Hl Hnotin. simpl in Hnotin.
      rewrite Hold' by (try lia; tauto).
      rewrite lookup_insert_ne by tauto. apply Hold. exact Hl.
    + unfold bind in Hrun at 1. unfold bind in Hrun at 1. unfold list_pop in Hrun.
      destruct (TremoloBeat.beat_idx entry <? length beats).
      * assert (Hrest : exists bs out,
                   rewrite_tremolo_beats voice rest bs (S converted_count)
                     (mkState (heap sa) (next_id sa) out) = (r, s')).
        { destruct new_beats as [|first others]; simpl in Hrun.
          - destruct sa as [ha na oa]. eexists _, _. exact Hrun.
          - eexists _, _. exact Hrun. }
        destruct Hrest as (bs & out & Hrest).
        apply IH in Hrest as [Hnext' Hold']. simpl in Hnext', Hold'.
        split; [lia|]. intros l Hl Hnotin. simpl in Hnotin.
        rewrite Hold' by (try lia; tauto). apply Hold. exact Hl.
      * simpl in Hrun. inversion Hrun; subst.
        split; [exact Hnext | intros l Hl _; apply Hold; exact Hl].
Qed.

Definition tremolo_count (h : gmap loc Beat.t) (beats : list loc) : nat :=
  length (filter (fun l => has_tremolo_picking (h !!! l) = true) beats).

(** One voice through the rewriter: the count, the segments, and the frame. *)
Lemma convert_tremolo_in_voice_full (voice : Voice.t) (converted_count : nat) (s : state) :
  well_formed_beats s (Voice.beats voice) ->
  exists segments s',
    convert_tremolo_in_voice voice converted_count s
    = (Ok (Voice.mk (Voice.beats_id voice) (concat segments),
           converted_count + tremolo_count (heap s) (Voice.beats voice)), s') /\
    evolves s s' /\
    Forall2 (segment_ok s s') (Voice.beats voice) segments /\
    (forall l, l < next_id s -> ~ In l (Voice.beats voice) -> heap s' !! l = heap s !! l).
Proof.
  intros Hwf.
  destruct (detection_run voice s (well_formed_nonzero _ _ Hwf))
    as (positions & out & Hpos & Hcollect).
  destruct (rewrite_tremolo_beats_spec voice s positions (Voice.beats voice) []
              (add_stdout out s) converted_count Hwf)
    as (segments & s' & Hrun & Hev & Hall).
  { apply evolves_same_store; reflexivity. }
  rewrite !app_nil_r in Hrun.
  assert (Hcount : length (detected (heap s) positions 0 (Voice.beats voice))
                   = tremolo_count (heap s) (Voice.beats voice)).
  { unfold tremolo_count. rewrite <- (detected_beats (heap s) positions _ 0).
    symmetry. apply length_map. }
  rewrite Hcount in Hrun.
  assert (Hframe : forall l, l < next_id s -> ~ In l (Voice.beats voice) ->
                             heap s' !! l = heap s !! l).
  { intros l Hl Hnotin.
    destruct (rewrite_tremolo_beats_frame _ _ _ _ _ _ _ Hrun) as [_ Hold].
    apply (Hold l Hl). intros Hin. apply Hnotin.
    apply in_map_iff in Hin as (entry & <- & Hentry).
    apply in_rev in Hentry. eapply detected_beats_subset. exact Hentry. }
  exists segments, s'. split; [|split; [exact Hev | split; [exact Hall | exact Hframe]]].
  unfold convert_tremolo_in_voice.
  erewrite bind_ok by exact Hpos.
  erewrite bind_ok by exact Hcollect.
  destruct (detected (heap s) positions 0 (Voice.beats voice)) as [|entry entries] eqn:Hdet.
  - simpl in Hrun. unfold ret in Hrun. injection Hrun as Hbeats Hc Hs'.
    rewrite <- Hbeats, <- Hc, <- Hs'. destruct voice as [id beats]. reflexivity.
  - erewrite bind_ok by exact Hrun. reflexivity.
Qed.

Lemma beat_fraction_tremolo_removed (b : Beat.t) :
  beat_fraction (tremolo_removed b) = beat_fraction b.
Proof. reflexivity. Qed.

Lemma fractions_evolves (s s' : state) (beats : list loc) :
  evolves s s' -> Forall (fun l => l < next_id s) beats ->
  fractions (heap s') beats = fractions (heap s) beats.
Proof.
  intros Hev Hlt. unfold fractions. apply map_ext_in. intros l Hl.
  assert (Hl' : l < next_id s).
  { exact (proj1 (Forall_forall _ _) Hlt l (proj2 (list_elem_of_In _ _) Hl)). }
  destruct Hev as [_ Hev]. destruct (Hev l Hl') as [E|E]; rewrite E; reflexivity.
Qed.

Lemma Qsum_singleton (q : Q) : (Qsum [q] == q)%Q.
Proof. unfold Qsum. simpl. apply Qplus_0_r. Qed.

(** What stands for a beat never lasts longer than the beat. *)
Lemma segment_ok_duration (s s' : state) (l : loc) (segment : list loc) :
  Duration.value (Beat.duration (heap s !!! l)) <> 0%Z ->
  segment_ok s s' l segment ->
  (Qsum (fractions (heap s') segment) <= beat_fraction (heap s !!! l))%Q.
Proof.
  intros Hd. unfold segment_ok. cbv zeta.
  set (b := heap s !!! l). set (t := resolved_target (detected_speed b)).
  assert (Hone : forall b', beat_fraction b' = beat_fraction b ->
                   heap s' !!! l = b' ->
                   (Qsum (fractions (heap s') [l]) <= beat_fraction b)%Q).
  { intros b' Hb' Hl.
    change (fractions (heap s') [l]) with [beat_fraction (heap s' !!! l)].
    rewrite Hl, Qsum_singleton, Hb'. apply Qle_refl. }
  destruct (has_tremolo_picking b).
  - destruct (slot_count b t <=? 1) eqn:Hcount.
    + intros [-> Hl]. eapply Hone; [|exact Hl]. reflexivity.
    + intros [Hlen Hall]. apply Nat.leb_gt in Hcount.
      pose proof (beat_fraction_run b Hd) as Hq.
      pose proof (resolved_target_fraction_positive (detected_speed b)) as Hunit.
      fold t in Hunit.
      destruct (target_fraction_run t (resolved_target_cases (detected_speed b)))
        as (tf & Htf & _ & Htfeq).
      assert (Hchord : beat_fraction (chord_beat b t) = tf).
      { unfold beat_fraction. rewrite chord_beat_fraction, Htf. reflexivity. }
      rewrite (Qsum_constant _ tf).
      * unfold fractions. rewrite length_map, Hlen, Htfeq.
        apply slot_count_within; [exact Hq | exact Hunit |].
        destruct (Qlt_le_dec (beat_fraction b) 0) as [Hneg|Hok]; [|exact Hok].
        rewrite (slot_count_negative _ _ _ Hq Hunit Hneg) in Hcount. lia.
      * unfold fractions. apply Forall_map.
        eapply Forall_impl; [exact Hall|]. intros x [_ Hx]. simpl.
        rewrite Hx. exact Hchord.
  - intros [-> Hl]. eapply Hone; [|exact Hl]. reflexivity.
Qed.

Lemma fractions_app (h : gmap loc Beat.t) (xs ys : list loc) :
  fractions h (xs ++ ys) = fractions h xs ++ fractions h ys.
Proof. unfold fractions. apply map_app. Qed.

Lemma segments_duration (s s' : state) (beats : list loc) (segments : list (list loc)) :
  nonzero_durations (heap s) beats ->
  Forall2 (segment_ok s s') beats segments ->
  (Qsum (fractions (heap s') (concat segments)) <= Qsum (fractions (heap s) beats))%Q.
Proof.
  intros Hnz Hall. induction Hall as [|l segment ls segs Hseg _ IH]; simpl.
  - apply Qle_refl.
  - apply Forall_cons in Hnz as [Hl Hls].
    rewrite fractions_app, Qsum_app.
    change (fractions (heap s) (l :: ls))
      with (beat_fraction (heap s !!! l) :: fractions (heap s) ls).
    change (Qsum (beat_fraction (heap s !!! l) :: fractions (heap s) ls))
      with (beat_fraction (heap s !!! l) + Qsum (fractions (heap s) ls))%Q.
    apply Qplus_le_compat; [apply segment_ok_duration; assumption | apply IH; exact Hls].
Qed.

Lemma segment_ok_well_formed (s s' : state) (l : loc) (segment : list loc) :
  segment_ok s s' l segment ->
  l < next_id s -> next_id s <= next_id s' ->
  Duration.value (Beat.duration (heap s !!! l)) <> 0%Z ->
  well_formed_beats s' segment /\ without_tremolo (heap s') segment.
Proof.
  intros Hseg Hl Hn Hd.
  pose proof (segment_ok_settled s s' l segment Hseg Hl Hn) as Hsettled.
  split; [|eapply Forall_impl; [exact Hsettled|]; intros x [_ Hx]; exact Hx].
  unfold segment_ok in Hseg. cbv zeta in Hseg.
  destruct (has_tremolo_picking (heap s !!! l)).
  - destruct (slot_count _ _ <=? 1).
    + destruct Hseg as [-> Hb]. constructor; [|constructor].
      split; [lia|]. rewrite Hb. exact Hd.
    + destruct Hseg as [_ Hall]. eapply Forall_impl; [exact Hall|].
      intros x [Hx Hb]. simpl. split; [lia|]. rewrite Hb. simpl.
      destruct (resolved_target_cases (detected_speed (heap s !!! l))) as [E | [E | E]];
        rewrite E; discriminate.
  - destruct Hseg as [-> Hb]. constructor; [|constructor].
    split; [lia|]. rewrite Hb. exact Hd.
Qed.

(** A voice of a measure before the rewriter ran, in the state [s], and
    after it, in the state [s']. *)
Definition voice_converted (s s' : state) (voice voice' : Voice.t) : Prop :=
  Voice.beats_id voice' = Voice.beats_id voice /\
  well_formed_beats s' (Voice.beats voice') /\
  without_tremolo (heap s') (Voice.beats voice') /\
  (Qsum (fractions (heap s') (Voice.beats voice'))
   <= Qsum (fractions (heap s) (Voice.beats voice)))%Q.

Lemma without_tremolo_evolves (s s' : state) (beats : list loc) :
  evolves s s' -> well_formed_beats s beats ->
  without_tremolo (heap s) beats -> without_tremolo (heap s') beats.
Proof.
  intros Hev Hwf Hno. unfold without_tremolo, well_formed_beats in *.
  pose proof (conj Hwf Hno) as H. apply Forall_and in H.
  eapply Forall_impl; [exact H|]. intros l [[Hl _] Hnol]. simpl.
  eapply evolves_no_tremolo; eassumption.
Qed.

Lemma well_formed_below (s : state) (beats : list loc) :
  well_formed_beats s beats -> Forall (fun l => l < next_id s) beats.
Proof. intros H. eapply Forall_impl; [exact H|]. intros l [Hl _]. exact Hl. Qed.

Lemma segments_well_formed (s s1 : state) (beats : list loc) (segments : list (list loc)) :
  well_formed_beats s beats ->
  next_id s <= next_id s1 ->
  Forall2 (segment_ok s s1) beats segments ->
  well_formed_beats s1 (concat segments) /\ without_tremolo (heap s1) (concat segments).
Proof.
  intros Hv Hn Hall. unfold well_formed_beats, without_tremolo in *.
  induction Hall as [|l segment ls segs Hseg _ IHsegs]; simpl.
  - split; constructor.
  - apply Forall_cons in Hv as [[Hl Hd] Hls].
    destruct (segment_ok_well_formed s s1 l segment Hseg Hl Hn Hd) as [Hw Hno].
    destruct (IHsegs Hls) as [Hws Hns].
    split; apply Forall_app; split; assumption.
Qed.

Lemma convert_tremolo_in_voices_full (voices : list Voice.t) :
  forall (converted_count : nat) (s : state),
    Forall (fun voice => well_formed_beats s (Voice.beats voice)) voices ->
    exists voices' converted_count' s',
      convert_tremolo_in_voices voices converted_count s
      = (Ok (voices', converted_count'), s') /\
      evolves s s' /\
      Forall2 (voice_converted s s') voices voices'.
Proof.
  induction voices as [|voice rest IH]; intros converted_count s Hwf; simpl.
  - exists [], converted_count, s. split; [reflexivity|].
    split; [apply evolves_refl | constructor].
  - apply Forall_cons in Hwf as [Hv Hrest].
    destruct (convert_tremolo_in_voice_full voice converted_count s Hv)
      as (segments & s1 & Hrun1 & Hev1 & Hall1 & _).
    destruct (IH (converted_count + tremolo_count (heap s) (Voice.beats voice)) s1)
      as (rest' & count' & s' & Hrun' & Hev' & Hall').
    { eapply Forall_impl; [exact Hrest|]. intros v. apply well_formed_evolves. exact Hev1. }
    erewrite bind_ok by exact Hrun1. simpl.
    erewrite bind_ok by exact Hrun'. simpl.
    eexists _, _, s'. split; [reflexivity|].
    split; [eapply evolves_trans; eassumption|].
    constructor.
    + (* the voice that was rewritten first *)
      destruct (segments_well_formed s s1 _ _ Hv (proj1 Hev1) Hall1) as [Hw1 Hn1].
      split; [reflexivity|]. simpl.
      split; [eapply well_formed_evolves; eassumption|].
      split; [eapply without_tremolo_evolves; eassumption|].
      rewrite (fractions_evolves s1 s' _ Hev' (well_formed_below _ _ Hw1)).
      apply segments_duration; [apply well_formed_nonzero; exact Hv | exact Hall1].
    + (* the voices that follow *)
      eapply Forall2_impl_Forall; [exact Hrest | exact Hall' |].
      intros v v' Hwv (Hid & Hw & Hn & Hq).
      split; [exact Hid|]. split; [exact Hw|]. split; [exact Hn|].
      rewrite (fractions_evolves s s1 _ Hev1 (well_formed_below _ _ Hwv)) in Hq.
      exact Hq.
Qed.

Lemma tremolo_count_app (h : gmap loc Beat.t) (xs ys : list loc) :
  tremolo_count h (xs ++ ys) = tremolo_count h xs + tremolo_count h ys.
Proof. unfold tremolo_count. rewrite filter_app, length_app. reflexivity. Qed.

Lemma tremolo_count_ext (h h' : gmap loc Beat.t) (beats : list loc) :
  Forall (fun l => h' !! l = h !! l) beats ->
  tremolo_count h' beats = tremolo_count h beats.
Proof.
  unfold tremolo_count. induction 1 as [|l rest Hl _ IH]; [reflexivity|].
  rewrite !filter_cons, (lookup_total_eq _ _ _ Hl).
  destruct (decide (has_tremolo_picking (h !!! l) = true)); simpl; rewrite IH; reflexivity.
Qed.

Definition measure_beats (voices : list Voice.t) : list loc :=
  concat (map Voice.beats voices).

Lemma tremolo_count_le (h h' : gmap loc Beat.t) (beats : list loc) :
  Forall (fun l => has_tremolo_picking (h' !!! l) = true ->
                   has_tremolo_picking (h !!! l) = true) beats ->
  tremolo_count h' beats <= tremolo_count h beats.
Proof.
  unfold tremolo_count. induction 1 as [|l rest Hl _ IH]; [reflexivity|].
  rewrite !filter_cons.
  destruct (decide (has_tremolo_picking (h' !!! l) = true)) as [H'|H'];
    destruct (decide (has_tremolo_picking (h !!! l) = true)) as [H|H]; simpl; try lia.
  exfalso. apply H, Hl, H'.
Qed.

Lemma tremolo_count_none (h : gmap loc Beat.t) (beats : list loc) :
  without_tremolo h beats -> tremolo_count h beats = 0.
Proof.
  unfold tremolo_count, without_tremolo. induction 1 as [|l rest Hl _ IH]; [reflexivity|].
  rewrite filter_cons.
  destruct (decide (has_tremolo_picking (h !!! l) = true)); [congruence | exact IH].
Qed.

Lemma tremolo_count_zero (h : gmap loc Beat.t) (beats : list loc) :
  tremolo_count h beats = 0 -> without_tremolo h beats.
Proof.
  unfold tremolo_count, without_tremolo.
  induction beats as [|l rest IH]; intros Hcount; constructor.
  - rewrite filter_cons in Hcount.
    destruct (has_tremolo_picking (h !!! l)) eqn:Hl; [|reflexivity].
    destruct (decide (true = true)); [simpl in Hcount; lia | congruence].
  - apply IH. rewrite filter_cons in Hcount.
    destruct (decide (has_tremolo_picking (h !!! l) = true)); [simpl in Hcount; lia|].
    exact Hcount.
Qed.

Lemma evolves_marked (sa s : state) (beats : list loc) :
  evolves sa s -> Forall (fun l => l < next_id sa) beats ->
  Forall (fun l => has_tremolo_picking (heap s !!! l) = true ->
                   has_tremolo_picking (heap sa !!! l) = true) beats.
Proof.
  intros [_ Hev] Hlt. eapply Forall_impl; [exact Hlt|]. intros l Hl. simpl.
  destruct (Hev l Hl) as [E|E]; rewrite E; [tauto|].
  rewrite tremolo_removed_no_tremolo. discriminate.
Qed.

Lemma measure_beats_below (s : state) (voices : list Voice.t) :
  Forall (fun voice => well_formed_beats s (Voice.beats voice)) voices ->
  Forall (fun l => l < next_id s) (measure_beats voices).
Proof.
  intros Hwf. unfold measure_beats. apply Forall_concat, Forall_map.
  eapply Forall_impl; [exact Hwf|]. intros v. apply well_formed_below.
Qed.

(** The count grows by at most the number of beats of the voices that had a
    marker when the measure was entered, in the state [sa], and it grows
    when a beat has one now. *)
Lemma convert_tremolo_in_voices_bound (voices : list Voice.t) :
  forall (converted_count : nat) (sa s : state),
    evolves sa s ->
    Forall (fun voice => well_formed_beats sa (Voice.beats voice)) voices ->
    exists voices' converted_count' s',
      convert_tremolo_in_voices voices converted_count s
      = (Ok (voices', converted_count'), s') /\
      converted_count <= converted_count' /\
      converted_count' <= converted_count + tremolo_count (heap sa) (measure_beats voices) /\
      (0 < tremolo_count (heap s) (measure_beats voices) ->
       converted_count < converted_count').
Proof.
  induction voices as [|voice rest IH]; intros converted_count sa s Hev Hwf; simpl.
  - exists [], converted_count, s. split; [reflexivity|].
    unfold tremolo_count. simpl. repeat split; lia.
  - apply Forall_cons in Hwf as [Hv Hrest].
    assert (Hvs : well_formed_beats s (Voice.beats voice))
      by (eapply well_formed_evolves; eassumption).
    destruct (convert_tremolo_in_voice_full voice converted_count s Hvs)
      as (segments & s1 & Hrun1 & Hev1 & _ & _).
    destruct (IH (converted_count + tremolo_count (heap s) (Voice.beats voice)) sa s1)
      as (rest' & count' & s' & Hrun' & Hmono & Hupper & Hlower).
    { eapply evolves_trans; eassumption. }
    { exact Hrest. }
    erewrite bind_ok by exact Hrun1. simpl.
    erewrite bind_ok by exact Hrun'. simpl.
    eexists _, count', s'. split; [reflexivity|].
    change (measure_beats (voice :: rest)) with (Voice.beats voice ++ measure_beats rest).
    rewrite !tremolo_count_app.
    pose proof (tremolo_count_le (heap sa) (heap s) (Voice.beats voice)
                  (evolves_marked sa s _ Hev (well_formed_below _ _ Hv))) as Hle.
    split; [lia|]. split; [lia|]. intros Hpos.
    destruct (decide (tremolo_count (heap s) (Voice.beats voice) = 0)) as [Hzero|Hsome];
      [|lia].
    pose proof (convert_tremolo_in_voice_none voice converted_count s
                  (well_formed_nonzero _ _ Hvs) (tremolo_count_zero _ _ Hzero)) as Hnone.
    rewrite Hnone in Hrun1. injection Hrun1 as Hvoice Hcount Hs1. subst s1. lia.
Qed.

Lemma convert_tremolo_in_measure_full (measure : Measure.t) (track_name : String.string)
    (s : state) :
  Forall (fun voice => well_formed_beats s (Voice.beats voice)) (Measure.voices measure) ->
  exists voices' converted_count s',
    convert_tremolo_in_measure measure track_name s
    = (Ok (converted_count, Measure.mk (Measure.header measure) voices'), s') /\
    evolves s s' /\
    Forall2 (voice_converted s s') (Measure.voices measure) voices'.
Proof.
  intros Hwf.
  destruct (convert_tremolo_in_voices_full (Measure.voices measure) 0 s Hwf)
    as (voices' & count' & s' & Hrun & Hev & Hall).
  exists voices', count', s'. split; [|split; assumption].
  unfold convert_tremolo_in_measure. erewrite bind_ok by exact Hrun. reflexivity.
Qed.

(** X15: on a measure whose beats exist and have duration values other
    than zero, the count that [convert_tremolo_in_measure] returns is 0
    when no beat of the measure has a tremolo marker before the call;
    otherwise it is at least 1 and at most the number of places of the
    measure that hold such a beat. *)
Theorem convert_tremolo_in_measure_counts (measure : Measure.t)
    (track_name : String.string) (s : state) :
  Forall (fun voice => well_formed_beats s (Voice.beats voice)) (Measure.voices measure) ->
  exists converted_count measure' s',
    convert_tremolo_in_measure measure track_name s
    = (Ok (converted_count, measure'), s') /\
    ((tremolo_count (heap s) (measure_beats (Measure.voices measure)) = 0 /\
      converted_count = 0) \/
     0 < converted_count
     <= tremolo_count (heap s) (measure_beats (Measure.voices measure))).
Proof.
  intros Hwf.
  destruct (convert_tremolo_in_voices_bound (Measure.voices measure) 0 s s
              (evolves_refl s) Hwf)
    as (voices' & count' & s' & Hrun & _ & Hupper & Hlower).
  unfold convert_tremolo_in_measure. erewrite bind_ok by exact Hrun.
  eexists _, _, s'. split; [reflexivity|]. simpl. lia.
Qed.

Lemma tremolo_measure_well_formed :
  Forall (fun voice => well_formed_beats tremolo_state (Voice.beats voice))
         (Measure.voices tremolo_measure).
Proof. constructor; [exact tremolo_voice_well_formed | constructor]. Defined.

Lemma convert_tremolo_in_measure_counts_witness :
  exists converted_count measure' s',
    convert_tremolo_in_measure tremolo_measure String.EmptyString tremolo_state
    = (Ok (converted_count, measure'), s') /\
    0 < converted_count <= 3.
Proof.
  destruct (convert_tremolo_in_measure_counts tremolo_measure String.EmptyString
              tremolo_state tremolo_measure_well_formed)
    as (converted_count & measure' & s' & Hrun & [[Hnone _]|Hsome]).
  - vm_compute in Hnone. discriminate.
  - exists converted_count, measure', s'. split; [exact Hrun | exact Hsome].
Defined.

(** X16: running [convert_tremolo_in_measure] a second time, on the measure
    and the state that the first run left, converts nothing: it returns 0
    and leaves them as they are. *)
Theorem convert_tremolo_in_measure_twice (measure : Measure.t)
    (track_name : String.string) (s : state) :
  Forall (fun voice => well_formed_beats s (Voice.beats voice)) (Measure.voices measure) ->
  exists converted_count measure' s',
    convert_tremolo_in_measure measure track_name s = (Ok (converted_count, measure'), s') /\
    convert_tremolo_in_measure measure' track_name s' = (Ok (0, measure'), s').
Proof.
  intros Hwf.
  destruct (convert_tremolo_in_measure_full measure track_name s Hwf)
    as (voices' & count' & s' & Hrun & _ & Hall).
  eexists _, _, s'. split; [exact Hrun|].
  assert (Hnz : Forall (fun voice => nonzero_durations (heap s') (Voice.beats voice)) voices').
  { clear Hrun. induction Hall as [|v v' vs vs' (_ & Hw & _) _ IH]; constructor.
    + apply well_formed_nonzero. exact Hw.
    + apply IH. apply Forall_cons in Hwf as [_ Hvs]. exact Hvs. }
  assert (Hno : Forall (fun voice => without_tremolo (heap s') (Voice.beats voice)) voices').
  { clear Hrun Hnz. induction Hall as [|v v' vs vs' (_ & _ & Hn & _) _ IH]; constructor.
    + exact Hn.
    + apply IH. apply Forall_cons in Hwf as [_ Hvs]. exact Hvs. }
  unfold convert_tremolo_in_measure. cbn [Measure.voices Measure.header].
  erewrite bind_ok by (apply convert_tremolo_in_voices_none; assumption).
  reflexivity.
Qed.

Lemma convert_tremolo_in_measure_twice_witness :
  exists converted_count measure' s',
    convert_tremolo_in_measure tremolo_measure String.EmptyString tremolo_state
    = (Ok (converted_count, measure'), s') /\
    convert_tremolo_in_measure measure' String.EmptyString s' = (Ok (0, measure'), s').
Proof.
  apply (convert_tremolo_in_measure_twice tremolo_measure String.EmptyString tremolo_state).
  exact tremolo_measure_well_formed.
Defined.

Lemma voice_duration_Qsum (h : gmap loc Beat.t) (beats : list loc) :
  nonzero_durations h beats ->
  exists q, voice_duration h beats = Ok q /\ (q == Qsum (fractions h beats))%Q.
Proof.
  intros Hnz. eexists. split; [apply voice_duration_run; exact Hnz|].
  rewrite foldl_Fraction_add_Qsum. apply Qplus_0_l.
Qed.

(** X17: the rewriter never lengthens a voice: after
    [convert_tremolo_in_measure], the exact sum of the durations of each
    voice is at most what it was before, and the voice is still the same
    list object. *)
Theorem convert_tremolo_in_measure_never_longer (measure : Measure.t)
    (track_name : String.string) (s : state) :
  Forall (fun voice => well_formed_beats s (Voice.beats voice)) (Measure.voices measure) ->
  exists converted_count measure' s',
    convert_tremolo_in_measure measure track_name s = (Ok (converted_count, measure'), s') /\
    Measure.header measure' = Measure.header measure /\
    Forall2 (fun voice voice' =>
               Voice.beats_id voice' = Voice.beats_id voice /\
               exists before after,
                 voice_duration (heap s) (Voice.beats voice) = Ok before /\
                 voice_duration (heap s') (Voice.beats voice') = Ok after /\
                 (after <= before)%Q)
            (Measure.voices measure) (Measure.voices measure').
Proof.
  intros Hwf.
  destruct (convert_tremolo_in_measure_full measure track_name s Hwf)
    as (voices' & count' & s' & Hrun & _ & Hall).
  eexists _, _, s'. split; [exact Hrun|]. split; [reflexivity|]. simpl.
  eapply Forall2_impl_Forall; [exact Hwf | exact Hall |].
  intros voice voice' Hwv (Hid & Hw & _ & Hq).
  split; [exact Hid|].
  destruct (voice_duration_Qsum (heap s) _ (well_formed_nonzero _ _ Hwv))
    as (before & Hbefore & Hbq).
  destruct (voice_duration_Qsum (heap s') _ (well_formed_nonzero _ _ Hw))
    as (after & Hafter & Haq).
  exists before, after. split; [exact Hbefore|]. split; [exact Hafter|].
  rewrite Hbq, Haq. exact Hq.
Qed.

Lemma convert_tremolo_in_measure_never_longer_witness :
  exists converted_count measure' s',
    convert_tremolo_in_measure tremolo_measure String.EmptyString tremolo_state
    = (Ok (converted_count, measure'), s') /\
    Measure.header measure' = Measure.header tremolo_measure /\
    Forall2 (fun voice voice' =>
               Voice.beats_id voice' = Voice.beats_id voice /\
               exists before after,
                 voice_duration (heap tremolo_state) (Voice.beats voice) = Ok before /\
                 voice_duration (heap s') (Voice.beats voice') = Ok after /\
                 (after <= before)%Q)
            (Measure.voices tremolo_measure) (Measure.voices measure').
Proof.
  apply (convert_tremolo_in_measure_never_longer tremolo_measure String.EmptyString
           tremolo_state).
  exact tremolo_measure_well_formed.
Defined.

(** ** More on the validator (lines 211-231) *)

Lemma get_time_signature_duration_header (measure measure' : Measure.t)
    (s s1 s2 : state) (capacity : Q) :
  Measure.header measure' = Measure.header measure ->
  get_time_signature_duration measure s = (Ok capacity, s1) ->
  exists s3, get_time_signature_duration measure' s2 = (Ok capacity, s3).
Proof.
  intros Hheader. unfold get_time_signature_duration. rewrite Hheader.
  destruct (Measure.header measure) as [h|].
  2:{ intros H. inversion H. eexists. reflexivity. }
  destruct (Header.timeSignature h) as [ts|].
  2:{ intros H. inversion H. eexists. reflexivity. }
  unfold try_except, lift.
  destruct (read_time_signature ts) as [q|e|].
  - intros H. inversion H. eexists. reflexivity.
  - destruct e; simpl; intros H; inversion H; eexists; reflexivity.
  - intros H. inversion H.
Qed.

Lemma Forall2_same {A} (l l' : list A) : Forall2 (fun x y => y = x) l l' -> l' = l.
Proof. induction 1 as [|x y l l' Hxy _ IH]; [reflexivity|]. rewrite Hxy, IH. reflexivity. Qed.

(** A voice after validation: a prefix of what it was, within the
    capacity. *)
Definition fits (capacity : Q) (h : gmap loc Beat.t) (voice voice' : Voice.t) : Prop :=
  (exists k, Voice.beats voice' = take k (Voice.beats voice)) /\
  exists q, voice_duration h (Voice.beats voice') = Ok q /\ (q <= capacity)%Q.

Lemma validated_fits (capacity : Q) (h : gmap loc Beat.t) (voice voice' : Voice.t) :
  (0 <= capacity)%Q ->
  nonzero_durations h (Voice.beats voice) ->
  validated capacity h voice voice' ->
  fits capacity h voice voice'.
Proof.
  intros Hcap Hnz [Hin Hover]. unfold fits.
  set (qs := fractions h (Voice.beats voice)) in *.
  destruct (Qlt_le_dec capacity (foldl Fraction_add 0%Q qs)) as [Hlt|Hle].
  - specialize (Hover Hlt). rewrite Hover.
    split; [eexists; reflexivity|].
    eexists. split; [apply voice_duration_run, Forall_take; exact Hnz|].
    rewrite fractions_take. fold qs.
    destruct (decide (fitting capacity 0%Q qs = 0)) as [Hk|Hk].
    + rewrite Hk, take_0. exact Hcap.
    + apply fitting_within. lia.
  - specialize (Hin Hle). subst voice'.
    split; [exists (length (Voice.beats voice)); symmetry; apply firstn_all|].
    eexists. split; [apply voice_duration_run; exact Hnz|]. exact Hle.
Qed.

(** One voice of a measure after validation: its beats are a prefix of
    what they were, and the sum of their durations, written out from the
    duration values and the dots, is within the capacity. *)
Definition within_capacity (capacity : Q) (h : gmap loc Beat.t) (voice voice' : Voice.t)
  : Prop :=
  (exists k, Voice.beats voice' = take k (Voice.beats voice)) /\
  (written_total h (Voice.beats voice') <= capacity)%Q.

Lemma fits_within_capacity (capacity : Q) (h : gmap loc Beat.t) (voice voice' : Voice.t) :
  nonzero_durations h (Voice.beats voice) ->
  fits capacity h voice voice' -> within_capacity capacity h voice voice'.
Proof.
  intros Hnz [[k Hk] (q & Hq & Hle)]. split; [exists k; exact Hk|].
  rewrite <- (voice_duration_written h (Voice.beats voice') q); [exact Hle | | exact Hq].
  rewrite Hk. apply Forall_take. exact Hnz.
Qed.

(** X18: after [validate_measure_timing], in a measure with a capacity that
    is not negative and no duration value 0, every voice fits: its beats
    are a prefix of what they were and the exact sum of their durations
    (one over the duration value, times 7/4 or 3/2 for the dots) is within
    the capacity; the header, the number of voices and the beat objects are
    untouched. *)
Theorem validate_measure_timing_fits (measure : Measure.t) (s s1 : state) (capacity : Q) :
  get_time_signature_duration measure s = (Ok capacity, s1) ->
  (0 <= capacity)%Q ->
  Forall (fun voice => nonzero_durations (heap s) (Voice.beats voice))
         (Measure.voices measure) ->
  exists measure' s',
    validate_measure_timing measure s = (Ok measure', s') /\
    heap s' = heap s /\
    Measure.header measure' = Measure.header measure /\
    Forall2 (within_capacity capacity (heap s'))
            (Measure.voices measure) (Measure.voices measure').
Proof.
  intros Hcap Hnonneg Hnz.
  destruct (validate_measure_timing_run measure s s1 capacity Hcap Hnz)
    as (voices' & s' & Hrun & Hheap & Hall).
  eexists _, s'. split; [exact Hrun|]. split; [exact Hheap|]. split; [reflexivity|].
  simpl. rewrite Hheap.
  eapply Forall2_impl_Forall; [exact Hnz | exact Hall |].
  intros voice voice' Hnzv Hv.
  apply fits_within_capacity; [exact Hnzv|]. apply validated_fits; assumption.
Qed.

Lemma validate_measure_timing_fits_witness :
  exists measure' s',
    validate_measure_timing crowded_measure quarters_state = (Ok measure', s') /\
    heap s' = heap quarters_state /\
    Measure.header measure' = Measure.header crowded_measure /\
    Forall2 (within_capacity 1 (heap s'))
            (Measure.voices crowded_measure) (Measure.voices measure').
Proof.
  apply (validate_measure_timing_fits crowded_measure quarters_state quarters_state 1%Q).
  - reflexivity.
  - discriminate.
  - repeat constructor; vm_compute; discriminate.
Defined.

Lemma fits_unchanged (capacity : Q) (h : gmap loc Beat.t) (voice voice' voice'' : Voice.t) :
  nonzero_durations h (Voice.beats voice') ->
  fits capacity h voice voice' ->
  validated capacity h voice' voice'' ->
  voice'' = voice'.
Proof.
  intros Hnz [_ (q & Hq & Hle)] [Hin _]. apply Hin.
  rewrite voice_duration_run in Hq by exact Hnz. inversion Hq; subst q. exact Hle.
Qed.

(** X19: validating a second time changes nothing: on the measure and the
    state that [validate_measure_timing] left, it returns the same
    measure, voices and lists included. *)
Theorem validate_measure_timing_twice (measure : Measure.t) (s s1 : state) (capacity : Q) :
  get_time_signature_duration measure s = (Ok capacity, s1) ->
  (0 <= capacity)%Q ->
  Forall (fun voice => nonzero_durations (heap s) (Voice.beats voice))
         (Measure.voices measure) ->
  exists measure' s' s'',
    validate_measure_timing measure s = (Ok measure', s') /\
    validate_measure_timing measure' s' = (Ok measure', s'') /\
    heap s'' = heap s.
Proof.
  intros Hcap Hnonneg Hnz.
  destruct (validate_measure_timing_run measure s s1 capacity Hcap Hnz)
    as (voices' & s' & Hrun & Hheap & Hall).
  set (measure' := Measure.mk (Measure.header measure) voices').
  destruct (get_time_signature_duration_header measure measure' s s1 s' capacity
              eq_refl Hcap) as (s3 & Hcap').
  assert (Hfits : Forall2 (fits capacity (heap s)) (Measure.voices measure) voices').
  { eapply Forall2_impl_Forall; [exact Hnz | exact Hall |].
    intros voice voice' Hnzv Hv. apply validated_fits; assumption. }
  assert (Hnz' : Forall (fun voice => nonzero_durations (heap s') (Voice.beats voice))
                        voices').
  { rewrite Hheap. clear Hrun Hall Hcap'.
    induction Hfits as [|v v' vs vs' [[k Hk] _] _ IH]; constructor.
    - apply Forall_cons in Hnz as [Hv _]. rewrite Hk. apply Forall_take. exact Hv.
    - apply IH. apply Forall_cons in Hnz as [_ Hvs]. exact Hvs. }
  destruct (validate_measure_timing_run measure' s' s3 capacity Hcap' Hnz')
    as (voices'' & s'' & Hrun' & Hheap' & Hall').
  exists measure', s', s''. split; [exact Hrun|]. split; [|congruence].
  rewrite Hrun'. simpl. do 3 f_equal.
  apply Forall2_same. simpl in Hall'. rewrite Hheap in Hall', Hnz'.
  clear Hrun Hrun' Hall Hcap' Hnz.
  revert voices'' Hall'.
  induction Hfits as [|v v' vs vs' Hvv _ IH]; intros voices'' Hall'.
  - inversion Hall'. constructor.
  - inversion Hall' as [|? v'' ? vs'' Hv'' Hvs'']; subst.
    apply Forall_cons in Hnz' as [Hnzv Hnzvs].
    constructor; [eapply fits_unchanged; eassumption | apply IH; assumption].
Qed.

Lemma validate_measure_timing_twice_witness :
  exists measure' s' s'',
    validate_measure_timing crowded_measure quarters_state = (Ok measure', s') /\
    validate_measure_timing measure' s' = (Ok measure', s'') /\
    heap s'' = heap quarters_state.
Proof.
  apply (validate_measure_timing_twice crowded_measure quarters_state quarters_state 1%Q).
  - reflexivity.
  - discriminate.
  - repeat constructor; vm_compute; discriminate.
Defined.

(** X20: a measure whose voices are within the capacity before the
    rewriter runs is never trimmed after it: [validate_measure_timing],
    called on what [convert_tremolo_in_measure] left, returns that measure
    as it is and touches no beat. *)
Theorem convert_then_validate_keeps (measure : Measure.t) (track_name : String.string)
    (s s1 : state) (capacity : Q) :
  get_time_signature_duration measure s = (Ok capacity, s1) ->
  Forall (fun voice => well_formed_beats s (Voice.beats voice)) (Measure.voices measure) ->
  Forall (fun voice =>
            forall total, voice_duration (heap s) (Voice.beats voice) = Ok total ->
                          (total <= capacity)%Q)
         (Measure.voices measure) ->
  exists converted_count measure' s' s'',
    convert_tremolo_in_measure measure track_name s = (Ok (converted_count, measure'), s') /\
    validate_measure_timing measure' s' = (Ok measure', s'') /\
    heap s'' = heap s'.
Proof.
  intros Hcap Hwf Hwithin.
  destruct (convert_tremolo_in_measure_full measure track_name s Hwf)
    as (voices' & count' & s' & Hrun & _ & Hall).
  set (measure' := Measure.mk (Measure.header measure) voices') in *.
  destruct (get_time_signature_duration_header measure measure' s s1 s' capacity
              eq_refl Hcap) as (s3 & Hcap').
  assert (Hnz' : Forall (fun voice => nonzero_durations (heap s') (Voice.beats voice))
                        voices').
  { clear Hrun Hcap'. revert Hwf Hwithin.
    induction Hall as [|v v' vs vs' (_ & Hw & _) _ IH]; intros Hwf Hwithin; constructor.
    - apply well_formed_nonzero. exact Hw.
    - apply Forall_cons in Hwf as [_ Hwf']. apply Forall_cons in Hwithin as [_ Hwithin'].
      apply IH; assumption. }
  destruct (validate_measure_timing_run measure' s' s3 capacity Hcap' Hnz')
    as (voices'' & s'' & Hrun' & Hheap' & Hall').
  exists count', measure', s', s''. split; [exact Hrun|]. split; [|exact Hheap'].
  rewrite Hrun'. simpl. do 3 f_equal.
  apply Forall2_same. simpl in Hall'.
  clear Hrun Hrun' Hcap' Hnz'.
  revert voices'' Hall' Hwf Hwithin.
  induction Hall as [|v v' vs vs' Hvv _ IH]; intros voices'' Hall' Hwf Hwithin.
  - inversion Hall'. constructor.
  - inversion Hall' as [|? v'' ? vs'' Hv'' Hvs'']; subst.
    apply Forall_cons in Hwf as [Hwv Hwf']. apply Forall_cons in Hwithin as [Hv Hwithin'].
    constructor; [|apply IH; assumption].
    destruct Hvv as (_ & Hw & _ & Hq). destruct Hv'' as [Hin _]. apply Hin.
    rewrite foldl_Fraction_add_Qsum, Qplus_0_l.
    eapply Qle_trans; [exact Hq|].
    destruct (voice_duration_Qsum (heap s) _ (well_formed_nonzero _ _ Hwv))
      as (before & Hbefore & Hbq).
    rewrite <- Hbq. apply Hv. exact Hbefore.
Qed.

Definition roomy_measure : Measure.t :=
  Measure.mk four_four [Voice.mk 100 [0; 1; 2]].

Lemma convert_then_validate_keeps_witness :
  exists converted_count measure' s' s'',
    convert_tremolo_in_measure roomy_measure String.EmptyString tremolo_state
    = (Ok (converted_count, measure'), s') /\
    validate_measure_timing measure' s' = (Ok measure', s'') /\
    heap s'' = heap s'.
Proof.
  apply (convert_then_validate_keeps roomy_measure String.EmptyString tremolo_state
           tremolo_state 1%Q).
  - reflexivity.
  - repeat constructor; try (vm_compute; discriminate); simpl; lia.
  - constructor; [|constructor].
    intros total Htotal. vm_compute in Htotal. inversion Htotal. vm_compute. discriminate.
Defined.

(** ** The song (lines 234-245) *)

Module Track.
Record t := mk { name : String.string; measures : list Measure.t }.
End Track.

Module Song.
Record t := mk { tracks : list Track.t }.
End Song.

(** The two lines that [convert_tremolo_in_song] prints itself. *)
Inductive song_line : Type :=
| ProcessingTrack (number : nat) (name : String.string)
| MeasureLine (number : nat).

(** The state of a run over a song: the state of the functions above, and
    the lines printed at the level of the song, each with the number of
    lines of [stdout] that were printed before it. *)
Record song_state := mkSongState {
  core : state;
  console : list (nat * song_line) }.

Definition SM (A : Type) : Type := song_state -> outcome A * song_state.

Definition sret {A} (a : A) : SM A := fun ss => (Ok a, ss).

Definition sbind {A B} (m : SM A) (f : A -> SM B) : SM B :=
  fun ss =>
    match m ss with
    | (Ok a, ss') => f a ss'
    | (Raise e, ss') => (Raise e, ss')
    | (Diverges, ss') => (Diverges, ss')
    end.

Definition run_core {A} (m : M A) : SM A :=
  fun ss =>
    match m (core ss) with
    | (r, s') => (r, mkSongState s' (console ss))
    end.

Definition print_line (line : song_line) : SM unit :=
  fun ss =>
    (Ok tt, mkSongState (core ss) (console ss ++ [(length (stdout (core ss)), line)])).

(** The body of the loop over the measures of a track (lines 240-244). *)
Definition convert_tremolo_in_song_measure (track_name : String.string) (measure_idx : nat)
    (measure : Measure.t) (converted_count : nat) : SM (Measure.t * nat) :=
  sbind (print_line (MeasureLine (measure_idx + 1))) (fun _ =>
  sbind (run_core (convert_tremolo_in_measure measure track_name)) (fun r =>
  let measure_conversions := fst r in
  if 0 <? measure_conversions then
    sbind (run_core (validate_measure_timing (snd r))) (fun validated =>
    sret (validated, converted_count + measure_conversions))
  else sret (snd r, converted_count))).

Fixpoint convert_tremolo_in_song_measures (track_name : String.string) (measure_idx : nat)
    (measures : list Measure.t) (converted_count : nat) : SM (list Measure.t * nat) :=
  match measures with
  | [] => sret ([], converted_count)
  | measure :: rest =>
      sbind (convert_tremolo_in_song_measure track_name measure_idx measure converted_count)
        (fun r =>
      sbind (convert_tremolo_in_song_measures track_name (S measure_idx) rest (snd r))
        (fun r' =>
      sret (fst r :: fst r', snd r')))
  end.

Fixpoint convert_tremolo_in_song_tracks (track_idx : nat) (tracks : list Track.t)
    (converted_count : nat) : SM (list Track.t * nat) :=
  match tracks with
  | [] => sret ([], converted_count)
  | track :: rest =>
      sbind (print_line (ProcessingTrack (track_idx + 1) (Track.name track))) (fun _ =>
      sbind (convert_tremolo_in_song_measures (Track.name track) 0 (Track.measures track)
               converted_count) (fun r =>
      sbind (convert_tremolo_in_song_tracks (S track_idx) rest (snd r)) (fun r' =>
      sret (Track.mk (Track.name track) (fst r) :: fst r', snd r'))))
  end.

(** The song is rewritten in place: the call yields the count together
    with the song as it stands afterwards.  Tracks, measures and voices
    are values here: no two places of a song hold the same voice object;
    beats are objects of the store and may be shared. *)
Definition convert_tremolo_in_song (song : Song.t) : SM (nat * Song.t) :=
  sbind (convert_tremolo_in_song_tracks 0 (Song.tracks song) 0) (fun r =>
  sret (snd r, Song.mk (fst r))).

(** Lines 262-269 of [main]: the loops of the simple mode, which remove the
    markers and count the beats that had one. *)
Fixpoint simple_mode_beats (beats : list loc) (converted_count : nat) : M nat :=
  match beats with
  | [] => ret converted_count
  | beat :: rest =>
      b <- load beat ;;
      if has_tremolo_picking b then
        remove_tremolo_effect beat ;;;
        simple_mode_beats rest (converted_count + 1)
      else simple_mode_beats rest converted_count
  end.

Fixpoint simple_mode_voices (voices : list Voice.t) (converted_count : nat) : M nat :=
  match voices with
  | [] => ret converted_count
  | voice :: rest =>
      n <- simple_mode_beats (Voice.beats voice) converted_count ;;
      simple_mode_voices rest n
  end.

Fixpoint simple_mode_measures (measures : list Measure.t) (converted_count : nat) : M nat :=
  match measures with
  | [] => ret converted_count
  | measure :: rest =>
      n <- simple_mode_voices (Measure.voices measure) converted_count ;;
      simple_mode_measures rest n
  end.

Fixpoint simple_mode_tracks (tracks : list Track.t) (converted_count : nat) : M nat :=
  match tracks with
  | [] => ret converted_count
  | track :: rest =>
      n <- simple_mode_measures (Track.measures track) converted_count ;;
      simple_mode_tracks rest n
  end.

Definition main_simple_mode (song : Song.t) : M nat :=
  simple_mode_tracks (Song.tracks song) 0.

(** ** Running a song *)

Lemma sbind_ok {A B} (m : SM A) (f : A -> SM B) (ss ss' : song_state) (a : A) :
  m ss = (Ok a, ss') -> sbind m f ss = f a ss'.
Proof. intros H. unfold sbind. rewrite H. reflexivity. Qed.

Lemma run_core_run {A} (m : M A) (ss : song_state) (r : outcome A) (s' : state) :
  m (core ss) = (r, s') -> run_core m ss = (r, mkSongState s' (console ss)).
Proof. intros H. unfold run_core. rewrite H. reflexivity. Qed.

Lemma get_time_signature_duration_store (measure : Measure.t) (s s1 : state)
    (r : outcome Q) :
  get_time_signature_duration measure s = (r, s1) ->
  heap s1 = heap s /\ next_id s1 = next_id s.
Proof.
  unfold get_time_signature_duration.
  destruct (Measure.header measure) as [h|]; [|intros H; inversion H; split; reflexivity].
  destruct (Header.timeSignature h) as [ts|]; [|intros H; inversion H; split; reflexivity].
  unfold try_except, lift.
  destruct (read_time_signature ts) as [q|e|].
  - intros H; inversion H; split; reflexivity.
  - destruct e; simpl; intros H; inversion H; split; reflexivity.
  - intros H; inversion H; split; reflexivity.
Qed.

Lemma validate_voice_timing_next (capacity : Q) (voice_idx : nat) (voice : Voice.t)
    (s : state) :
  nonzero_durations (heap s) (Voice.beats voice) ->
  next_id s <= next_id (snd (validate_voice_timing capacity voice_idx voice s)).
Proof.
  intros Hnz. unfold validate_voice_timing.
  erewrite bind_ok by (apply sum_beat_durations_run; exact Hnz).
  destruct (Qle_bool _ capacity); simpl; [lia|].
  erewrite bind_ok by reflexivity.
  erewrite bind_ok by reflexivity.
  erewrite bind_ok by (apply keep_fitting_beats_run; exact Hnz).
  simpl. destruct (_ <? _); simpl; lia.
Qed.

Lemma validate_voices_timing_next (capacity : Q) (voices : list Voice.t) :
  forall (voice_idx : nat) (s : state),
    Forall (fun voice => nonzero_durations (heap s) (Voice.beats voice)) voices ->
    next_id s <= next_id (snd (validate_voices_timing capacity voice_idx voices s)).
Proof.
  induction voices as [|voice rest IH]; intros voice_idx s Hnz; simpl; [lia|].
  apply Forall_cons in Hnz as [Hv Hrest].
  pose proof (validate_voice_timing_next capacity voice_idx voice s Hv) as Hnext.
  destruct (validate_voice_timing_run capacity voice_idx voice s Hv)
    as (voice' & s1 & Hrun & Hheap & _).
  rewrite Hrun in Hnext. simpl in Hnext.
  erewrite bind_ok by exact Hrun.
  assert (Hrest1 : Forall (fun voice => nonzero_durations (heap s1) (Voice.beats voice)) rest).
  { rewrite Hheap. exact Hrest. }
  specialize (IH (S voice_idx) s1 Hrest1).
  destruct (validate_voices_timing_run capacity rest (S voice_idx) s1 Hrest1)
    as (rest' & s' & Hrun' & _).
  rewrite Hrun' in IH. simpl in IH.
  erewrite bind_ok by exact Hrun'. simpl. lia.
Qed.

(** The validator on a measure whose time signature can be read. *)
Lemma validate_measure_timing_done (measure : Measure.t) (s s1 : state) (capacity : Q) :
  get_time_signature_duration measure s = (Ok capacity, s1) ->
  (0 <= capacity)%Q ->
  Forall (fun voice => nonzero_durations (heap s) (Voice.beats voice))
         (Measure.voices measure) ->
  exists voices' s',
    validate_measure_timing measure s
    = (Ok (Measure.mk (Measure.header measure) voices'), s') /\
    heap s' = heap s /\ next_id s <= next_id s' /\
    Forall2 (fits capacity (heap s)) (Measure.voices measure) voices'.
Proof.
  intros Hcap Hnonneg Hnz.
  destruct (validate_measure_timing_run measure s s1 capacity Hcap Hnz)
    as (voices' & s' & Hrun & Hheap & Hall).
  exists voices', s'. split; [exact Hrun|]. split; [exact Hheap|]. split.
  - destruct (get_time_signature_duration_store _ _ _ _ Hcap) as [Hh1 Hn1].
    assert (Hnz1 : Forall (fun voice => nonzero_durations (heap s1) (Voice.beats voice))
                     (Measure.voices measure)) by (rewrite Hh1; exact Hnz).
    pose proof (validate_voices_timing_next capacity (Measure.voices measure) 0 s1 Hnz1)
      as Hnext.
    unfold validate_measure_timing, bind in Hrun. rewrite Hcap in Hrun.
    destruct (validate_voices_timing capacity 0 (Measure.voices measure) s1)
      as [[vs|e|] s2]; simpl in Hnext; inversion Hrun; subst. lia.
  - eapply Forall2_impl_Forall; [exact Hnz | exact Hall |].
    intros voice voice' Hnzv Hv. apply validated_fits; assumption.
Qed.

(** The count only grows, and when it has not grown nothing has changed. *)
Lemma convert_tremolo_in_voices_idle (voices : list Voice.t) :
  forall (converted_count : nat) (s : state),
    Forall (fun voice => well_formed_beats s (Voice.beats voice)) voices ->
    forall voices' converted_count' s',
      convert_tremolo_in_voices voices converted_count s
      = (Ok (voices', converted_count'), s') ->
      converted_count <= converted_count' /\
      (converted_count' = converted_count -> voices' = voices /\ s' = s).
Proof.
  induction voices as [|voice rest IH]; intros count s Hwf voices' count' s' Hrun.
  - simpl in Hrun. inversion Hrun; subst. split; [lia|]. intros _. split; reflexivity.
  - apply Forall_cons in Hwf as [Hv Hrest].
    cbn [convert_tremolo_in_voices] in Hrun.
    destruct (convert_tremolo_in_voice_full voice count s Hv)
      as (segments & s1 & Hvoice & Hev & _).
    erewrite bind_ok in Hrun by exact Hvoice. cbn [fst snd] in Hrun.
    unfold bind in Hrun.
    destruct (convert_tremolo_in_voices rest
                (count + tremolo_count (heap s) (Voice.beats voice)) s1)
      as [[[rest' n]|e|] s2] eqn:Hrest'; try discriminate.
    cbv [ret] in Hrun. cbn [fst snd] in Hrun. inversion Hrun; subst.
    assert (Hrest1 : Forall (fun voice => well_formed_beats s1 (Voice.beats voice)) rest).
    { eapply Forall_impl; [exact Hrest|]. intros v Hw.
      eapply well_formed_evolves; eassumption. }
    destruct (IH _ s1 Hrest1 _ _ _ Hrest') as [Hle Hsame].
    split; [lia|]. intros Heq.
    assert (Hzero : tremolo_count (heap s) (Voice.beats voice) = 0) by lia.
    pose proof (convert_tremolo_in_voice_none voice count s (well_formed_nonzero _ _ Hv)
                  (tremolo_count_zero _ _ Hzero)) as Hnone.
    rewrite Hnone in Hvoice. inversion Hvoice as [[Hvoice' Hcount' Hs1]].
    destruct Hsame as [Hrest'' Hs']; [lia|].
    split; [|congruence]. rewrite Hrest''. congruence.
Qed.

Lemma Forall2_right {A B} (R : A -> B -> Prop) (Q : B -> Prop) (l : list A) (k : list B) :
  Forall2 R l k -> (forall x y, R x y -> Q y) -> Forall Q k.
Proof.
  intros Hall Himpl. induction Hall as [|x y l k Hxy _ IH]; constructor.
  - eapply Himpl. exact Hxy.
  - exact IH.
Qed.

(** A measure that the pass over the song can process: its beats exist and
    have a duration value other than 0, and its time signature gives a
    capacity that is not negative. *)
Definition measure_ready (s : state) (measure : Measure.t) : Prop :=
  Forall (fun voice => well_formed_beats s (Voice.beats voice)) (Measure.voices measure) /\
  exists capacity s1,
    get_time_signature_duration measure s = (Ok capacity, s1) /\ (0 <= capacity)%Q.

(** A measure after the pass: no beat of it has a tremolo marker, and it is
    either what it was or within the capacity of its time signature. *)
Definition measure_done (s' : state) (measure measure' : Measure.t) : Prop :=
  Measure.header measure' = Measure.header measure /\
  Forall (fun voice => well_formed_beats s' (Voice.beats voice) /\
                       without_tremolo (heap s') (Voice.beats voice))
         (Measure.voices measure') /\
  (measure' = measure \/
   exists capacity s1,
     get_time_signature_duration measure s' = (Ok capacity, s1) /\
     Forall (fun voice => exists q, voice_duration (heap s') (Voice.beats voice) = Ok q /\
                                    (q <= capacity)%Q)
            (Measure.voices measure')).

Definition track_done (s' : state) (track track' : Track.t) : Prop :=
  Track.name track' = Track.name track /\
  Forall2 (measure_done s') (Track.measures track) (Track.measures track').

Definition song_ready (s : state) (song : Song.t) : Prop :=
  Forall (fun track => Forall (measure_ready s) (Track.measures track)) (Song.tracks song).

Lemma measure_ready_evolves (s s' : state) (measure : Measure.t) :
  evolves s s' -> measure_ready s measure -> measure_ready s' measure.
Proof.
  intros Hev [Hwf (capacity & s1 & Hcap & Hnonneg)]. split.
  - eapply Forall_impl; [exact Hwf|]. intros v Hw.
    eapply well_formed_evolves; eassumption.
  - destruct (get_time_signature_duration_header measure measure s s1 s' capacity
                eq_refl Hcap) as (s3 & Hcap').
    exists capacity, s3. split; assumption.
Qed.

Lemma measure_done_evolves (s s' : state) (measure measure' : Measure.t) :
  evolves s s' -> measure_done s measure measure' -> measure_done s' measure measure'.
Proof.
  intros Hev (Hheader & Hall & Hcase). split; [exact Hheader|]. split.
  - eapply Forall_impl; [exact Hall|]. intros v [Hw Hn]. split.
    + eapply well_formed_evolves; eassumption.
    + eapply without_tremolo_evolves; eassumption.
  - destruct Hcase as [Heq|(capacity & s1 & Hcap & Hfit)]; [left; exact Heq|].
    right.
    destruct (get_time_signature_duration_header measure measure s s1 s' capacity
                eq_refl Hcap) as (s3 & Hcap').
    exists capacity, s3. split; [exact Hcap'|].
    apply Forall_forall. intros v Hv.
    rewrite Forall_forall in Hall. rewrite Forall_forall in Hfit.
    destruct (Hall v Hv) as [Hw _]. destruct (Hfit v Hv) as (q & Hq & Hle).
    exists q. split; [|exact Hle].
    rewrite (voice_duration_run _ _
               (well_formed_nonzero _ _ (well_formed_evolves _ _ _ Hev Hw))).
    rewrite (voice_duration_run _ _ (well_formed_nonzero _ _ Hw)) in Hq.
    rewrite (fractions_evolves s s' _ Hev (well_formed_below _ _ Hw)). exact Hq.
Qed.

Lemma track_done_evolves (s s' : state) (track track' : Track.t) :
  evolves s s' -> track_done s track track' -> track_done s' track track'.
Proof.
  intros Hev [Hname Hall]. split; [exact Hname|].
  eapply Forall2_impl; [exact Hall|].
  intros m m'. apply measure_done_evolves. exact Hev.
Qed.

(** One measure of the pass (lines 240-244). *)
Lemma convert_tremolo_in_song_measure_spec (track_name : String.string)
    (measure_idx : nat) (measure : Measure.t) (converted_count : nat) (ss : song_state) :
  measure_ready (core ss) measure ->
  exists measure' converted_count' ss',
    convert_tremolo_in_song_measure track_name measure_idx measure converted_count ss
    = (Ok (measure', converted_count'), ss') /\
    evolves (core ss) (core ss') /\
    measure_done (core ss') measure measure'.
Proof.
  intros [Hwf (capacity & sc & Hcap & Hnonneg)].
  destruct (convert_tremolo_in_measure_full measure track_name (core ss) Hwf)
    as (voices' & mc & s1 & Hrun & Hev & Hall).
  assert (Hdone : Forall (fun voice => well_formed_beats s1 (Voice.beats voice) /\
                                       without_tremolo (heap s1) (Voice.beats voice))
                    voices').
  { eapply Forall2_right; [exact Hall|]. intros v v' (_ & Hw & Hn & _). split; assumption. }
  unfold convert_tremolo_in_song_measure.
  erewrite sbind_ok by reflexivity.
  erewrite sbind_ok by (apply run_core_run; exact Hrun).
  cbn [fst snd].
  destruct (0 <? mc) eqn:Hmc.
  - destruct (get_time_signature_duration_header measure
                (Measure.mk (Measure.header measure) voices') (core ss) sc s1 capacity
                eq_refl Hcap) as (s1c & Hcap1).
    destruct (validate_measure_timing_done _ s1 s1c capacity Hcap1 Hnonneg)
      as (voices'' & s2 & Hval & Hheap & Hnext & Hfits).
    { eapply Forall_impl; [exact Hdone|]. intros v [Hw _].
      apply well_formed_nonzero. exact Hw. }
    erewrite sbind_ok by (apply run_core_run; exact Hval).
    assert (Hev2 : evolves s1 s2).
    { split; [exact Hnext|]. intros l _. left. rewrite Hheap. reflexivity. }
    eexists _, _, _. split; [reflexivity|]. cbn [core Measure.header Measure.voices].
    split; [eapply evolves_trans; eassumption|].
    split; [reflexivity|]. split.
    + eapply Forall2_right.
      * eapply Forall2_impl_Forall; [exact Hdone | exact Hfits |].
        intros v v' Hd Hf. exact (conj Hd Hf).
      * intros v v' [[Hw Hn] [[k Hk] _]]. rewrite Hk. split.
        -- apply (well_formed_evolves s1 s2); [exact Hev2|]. apply Forall_take. exact Hw.
        -- unfold without_tremolo. rewrite Hheap. apply Forall_take. exact Hn.
    + right.
      destruct (get_time_signature_duration_header measure measure (core ss) sc s2 capacity
                  eq_refl Hcap) as (s2c & Hcap2).
      exists capacity, s2c. split; [exact Hcap2|].
      eapply Forall2_right; [exact Hfits|].
      intros v v' [_ Hq]. rewrite Hheap. exact Hq.
  - apply Nat.ltb_ge in Hmc. assert (Hzero : mc = 0) by lia. subst mc.
    unfold convert_tremolo_in_measure, bind in Hrun.
    destruct (convert_tremolo_in_voices (Measure.voices measure) 0 (core ss))
      as [[[vs n]|e|] sx] eqn:Hvs; try discriminate.
    cbv [ret] in Hrun. cbn [fst snd] in Hrun. inversion Hrun; subst.
    destruct (convert_tremolo_in_voices_idle _ 0 (core ss) Hwf _ _ _ Hvs) as [_ Hsame].
    destruct (Hsame eq_refl) as [Hvoices Hstate]. subst.
    eexists _, _, _. split; [reflexivity|]. cbn [core].
    split; [apply evolves_refl|].
    split; [reflexivity|]. split; [exact Hdone|]. left. destruct measure; reflexivity.
Qed.

Lemma convert_tremolo_in_song_measures_spec (track_name : String.string)
    (measures : list Measure.t) :
  forall (measure_idx converted_count : nat) (ss : song_state),
    Forall (measure_ready (core ss)) measures ->
    exists measures' converted_count' ss',
      convert_tremolo_in_song_measures track_name measure_idx measures converted_count ss
      = (Ok (measures', converted_count'), ss') /\
      evolves (core ss) (core ss') /\
      Forall2 (measure_done (core ss')) measures measures'.
Proof.
  induction measures as [|measure rest IH]; intros idx count ss Hready.
  - eexists _, _, _. split; [reflexivity|]. split; [apply evolves_refl | constructor].
  - apply Forall_cons in Hready as [Hm Hrest].
    destruct (convert_tremolo_in_song_measure_spec track_name idx measure count ss Hm)
      as (m' & c1 & ss1 & Hstep & Hev1 & Hdone1).
    destruct (IH (S idx) c1 ss1) as (rest' & c' & ss' & Hloop & Hev2 & Hdone2).
    { eapply Forall_impl; [exact Hrest|]. intros m. apply measure_ready_evolves. exact Hev1. }
    cbn [convert_tremolo_in_song_measures].
    erewrite sbind_ok by exact Hstep. cbn [fst snd].
    erewrite sbind_ok by exact Hloop.
    eexists _, _, _. split; [reflexivity|]. cbn [fst snd].
    split; [eapply evolves_trans; eassumption|].
    constructor; [|exact Hdone2]. eapply measure_done_evolves; eassumption.
Qed.

Lemma convert_tremolo_in_song_tracks_spec (tracks : list Track.t) :
  forall (track_idx converted_count : nat) (ss : song_state),
    Forall (fun track => Forall (measure_ready (core ss)) (Track.measures track)) tracks ->
    exists tracks' converted_count' ss',
      convert_tremolo_in_song_tracks track_idx tracks converted_count ss
      = (Ok (tracks', converted_count'), ss') /\
      evolves (core ss) (core ss') /\
      Forall2 (track_done (core ss')) tracks tracks'.
Proof.
  induction tracks as [|track rest IH]; intros idx count ss Hready.
  - eexists _, _, _. split; [reflexivity|]. split; [apply evolves_refl | constructor].
  - apply Forall_cons in Hready as [Ht Hrest].
    cbn [convert_tremolo_in_song_tracks].
    erewrite sbind_ok by reflexivity.
    destruct (convert_tremolo_in_song_measures_spec (Track.name track)
                (Track.measures track) 0 count
                (mkSongState (core ss)
                   (console ss ++ [(length (stdout (core ss)),
                                    ProcessingTrack (idx + 1) (Track.name track))])) Ht)
      as (measures' & c1 & ss1 & Hstep & Hev1 & Hdone1).
    cbn [core] in Hev1.
    destruct (IH (S idx) c1 ss1) as (rest' & c' & ss' & Hloop & Hev2 & Hdone2).
    { eapply Forall_impl; [exact Hrest|]. intros t Hms.
      eapply Forall_impl; [exact Hms|]. intros m. apply measure_ready_evolves. exact Hev1. }
    erewrite sbind_ok by exact Hstep. cbn [fst snd].
    erewrite sbind_ok by exact Hloop.
    eexists _, _, _. split; [reflexivity|]. cbn [fst snd].
    split; [eapply evolves_trans; eassumption|].
    constructor; [|exact Hdone2].
    apply (track_done_evolves (core ss1)); [exact Hev2|]. split; [reflexivity | exact Hdone1].
Qed.

(** X21: on a song in which every beat exists and has a duration value
    other than 0 and every time signature gives a capacity that is not
    negative, [convert_tremolo_in_song] returns; afterwards no beat of the
    song has a tremolo marker, names and headers are what they were, and
    every measure is either exactly what it was or has all its voices
    within the capacity of its time signature. *)
Theorem convert_tremolo_in_song_converts (song : Song.t) (ss : song_state) :
  song_ready (core ss) song ->
  exists converted_count song' ss',
    convert_tremolo_in_song song ss = (Ok (converted_count, song'), ss') /\
    Forall2 (track_done (core ss')) (Song.tracks song) (Song.tracks song').
Proof.
  intros Hready.
  destruct (convert_tremolo_in_song_tracks_spec (Song.tracks song) 0 0 ss Hready)
    as (tracks' & count' & ss' & Hrun & _ & Hdone).
  unfold convert_tremolo_in_song.
  erewrite sbind_ok by exact Hrun.
  eexists _, _, _. split; [reflexivity|]. exact Hdone.
Qed.

Definition tremolo_song : Song.t :=
  Song.mk [Track.mk String.EmptyString [tremolo_measure]].

Lemma convert_tremolo_in_song_converts_witness :
  exists converted_count song' ss',
    convert_tremolo_in_song tremolo_song (mkSongState tremolo_state [])
    = (Ok (converted_count, song'), ss') /\
    Forall2 (track_done (core ss')) (Song.tracks tremolo_song) (Song.tracks song').
Proof.
  apply (convert_tremolo_in_song_converts tremolo_song (mkSongState tremolo_state [])).
  constructor; [|constructor]. constructor; [|constructor]. split.
  - exact tremolo_measure_well_formed.
  - exists 1%Q, tremolo_state. split; [reflexivity|]. unfold Qle. simpl. lia.
Defined.

(** *** A song without tremolo *)

Definition measure_idle (s : state) (measure : Measure.t) : Prop :=
  Forall (fun voice => nonzero_durations (heap s) (Voice.beats voice) /\
                       without_tremolo (heap s) (Voice.beats voice))
         (Measure.voices measure).

Definition song_idle (s : state) (song : Song.t) : Prop :=
  Forall (fun track => Forall (measure_idle s) (Track.measures track)) (Song.tracks song).

Lemma convert_tremolo_in_measure_idle (measure : Measure.t) (track_name : String.string)
    (s : state) :
  measure_idle s measure ->
  convert_tremolo_in_measure measure track_name s = (Ok (0, measure), s).
Proof.
  intros Hidle. unfold convert_tremolo_in_measure.
  erewrite bind_ok.
  2:{ apply convert_tremolo_in_voices_none.
      - eapply Forall_impl; [exact Hidle|]. intros v [H _]. exact H.
      - eapply Forall_impl; [exact Hidle|]. intros v [_ H]. exact H. }
  destruct measure. reflexivity.
Qed.

Lemma convert_tremolo_in_song_measures_idle (track_name : String.string)
    (measures : list Measure.t) :
  forall (measure_idx converted_count : nat) (ss : song_state),
    Forall (measure_idle (core ss)) measures ->
    exists ss',
      convert_tremolo_in_song_measures track_name measure_idx measures converted_count ss
      = (Ok (measures, converted_count), ss') /\
      core ss' = core ss.
Proof.
  induction measures as [|measure rest IH]; intros idx count ss Hidle.
  - eexists. split; reflexivity.
  - apply Forall_cons in Hidle as [Hm Hrest].
    cbn [convert_tremolo_in_song_measures].
    unfold convert_tremolo_in_song_measure.
    erewrite sbind_ok.
    2:{ erewrite sbind_ok by reflexivity.
        erewrite sbind_ok
          by (apply run_core_run; apply convert_tremolo_in_measure_idle; exact Hm).
        reflexivity. }
    cbn [fst snd].
    edestruct (IH (S idx) count) as (ss' & Hloop & Hcore); [|erewrite sbind_ok by exact Hloop].
    + exact Hrest.
    + eexists. split; [reflexivity|]. exact Hcore.
Qed.

Lemma convert_tremolo_in_song_tracks_idle (tracks : list Track.t) :
  forall (track_idx converted_count : nat) (ss : song_state),
    Forall (fun track => Forall (measure_idle (core ss)) (Track.measures track)) tracks ->
    exists ss',
      convert_tremolo_in_song_tracks track_idx tracks converted_count ss
      = (Ok (tracks, converted_count), ss') /\
      core ss' = core ss.
Proof.
  induction tracks as [|track rest IH]; intros idx count ss Hidle.
  - eexists. split; reflexivity.
  - apply Forall_cons in Hidle as [Ht Hrest].
    cbn [convert_tremolo_in_song_tracks].
    erewrite sbind_ok by reflexivity.
    destruct (convert_tremolo_in_song_measures_idle (Track.name track)
                (Track.measures track) 0 count
                (mkSongState (core ss)
                   (console ss ++ [(length (stdout (core ss)),
                                    ProcessingTrack (idx + 1) (Track.name track))])) Ht)
      as (ss1 & Hstep & Hcore1).
    cbn [core] in Hcore1.
    destruct (IH (S idx) count ss1) as (ss' & Hloop & Hcore).
    { rewrite Hcore1. exact Hrest. }
    erewrite sbind_ok by exact Hstep. cbn [fst snd].
    erewrite sbind_ok by exact Hloop. cbn [fst snd].
    exists ss'. split; [destruct track; reflexivity | congruence].
Qed.

(** X22: on a song in which no beat has a tremolo marker (and no beat has
    the duration value 0), [convert_tremolo_in_song] returns 0 and leaves
    the song, the beats and the output of the functions it calls as they
    were: the timing validator is not run, whatever the time signatures
    are, so a measure that is too long stays too long. *)
Theorem convert_tremolo_in_song_without_tremolo (song : Song.t) (ss : song_state) :
  song_idle (core ss) song ->
  exists ss',
    convert_tremolo_in_song song ss = (Ok (0, song), ss') /\
    core ss' = core ss.
Proof.
  intros Hidle.
  destruct (convert_tremolo_in_song_tracks_idle (Song.tracks song) 0 0 ss Hidle)
    as (ss' & Hrun & Hcore).
  unfold convert_tremolo_in_song.
  erewrite sbind_ok by exact Hrun.
  exists ss'. split; [|exact Hcore]. destruct song. reflexivity.
Qed.

Definition crowded_song : Song.t :=
  Song.mk [Track.mk String.EmptyString [crowded_measure]].

Lemma convert_tremolo_in_song_without_tremolo_witness :
  exists ss',
    convert_tremolo_in_song crowded_song (mkSongState quarters_state [])
    = (Ok (0, crowded_song), ss') /\
    core ss' = core (mkSongState quarters_state []).
Proof.
  apply (convert_tremolo_in_song_without_tremolo crowded_song
           (mkSongState quarters_state [])).
  repeat constructor; vm_compute; discriminate.
Defined.

(** ** The simple mode (lines 262-269) *)

Lemma tremolo_count_marked (h : gmap loc Beat.t) (beats : list loc) :
  0 < tremolo_count h beats ->
  exists l, In l beats /\ has_tremolo_picking (h !!! l) = true.
Proof.
  unfold tremolo_count. induction beats as [|l rest IH]; [simpl; lia|].
  rewrite filter_cons.
  destruct (decide (has_tremolo_picking (h !!! l) = true)) as [Hl|Hl].
  - intros _. exists l. split; [left; reflexivity | exact Hl].
  - intros Hpos. destruct (IH Hpos) as (l' & Hin & Hl').
    exists l'. split; [right; exact Hin | exact Hl'].
Qed.

Lemma tremolo_count_positive (h : gmap loc Beat.t) (beats : list loc) (l : loc) :
  In l beats -> has_tremolo_picking (h !!! l) = true -> 0 < tremolo_count h beats.
Proof.
  intros Hin Hl.
  destruct (decide (tremolo_count h beats = 0)) as [Hzero|Hne]; [|lia].
  apply tremolo_count_zero in Hzero.
  pose proof (proj1 (Forall_forall _ _) Hzero l (proj2 (list_elem_of_In _ _) Hin)) as Hno.
  simpl in Hno. congruence.
Qed.

(** What a pass of the simple mode over [beats] does to the count and to
    the state. *)
Definition cleared (beats : list loc) (count : nat) (s : state) (count' : nat)
    (s' : state) : Prop :=
  next_id s' = next_id s /\ stdout s' = stdout s /\
  (forall l, heap s' !!! l = heap s !!! l \/
             heap s' !!! l = tremolo_removed (heap s !!! l)) /\
  (forall l, ~ In l beats -> heap s' !!! l = heap s !!! l) /\
  (forall l, In l beats -> has_tremolo_picking (heap s' !!! l) = false) /\
  count <= count' /\
  count' <= count + tremolo_count (heap s) beats /\
  (0 < tremolo_count (heap s) beats -> count < count').

Lemma cleared_nil (count : nat) (s : state) : cleared [] count s count s.
Proof.
  unfold cleared, tremolo_count. simpl.
  repeat split; try reflexivity; try lia; try (intros l []).
  intros l. left. reflexivity.
Qed.

Lemma cleared_app (xs ys : list loc) (c c1 c2 : nat) (s s1 s2 : state) :
  cleared xs c s c1 s1 -> cleared ys c1 s1 c2 s2 -> cleared (xs ++ ys) c s c2 s2.
Proof.
  intros (Hn1 & Ho1 & He1 & Hout1 & Hin1 & Hm1 & Hu1 & Hl1)
         (Hn2 & Ho2 & He2 & Hout2 & Hin2 & Hm2 & Hu2 & Hl2).
  assert (Hle : tremolo_count (heap s1) ys <= tremolo_count (heap s) ys).
  { apply tremolo_count_le. apply Forall_forall. intros l _.
    destruct (He1 l) as [E|E]; rewrite E; [tauto|].
    rewrite tremolo_removed_no_tremolo. discriminate. }
  split; [congruence|]. split; [congruence|].
  split; [|split; [|split; [|split; [|split]]]].
  - intros l. destruct (He1 l) as [H1|H1], (He2 l) as [H2|H2]; rewrite H2, H1; auto.
    rewrite tremolo_removed_idempotent. auto.
  - intros l Hl. rewrite Hout2, Hout1; [reflexivity| |]; intros H; apply Hl, in_or_app; auto.
  - intros l Hl. apply in_app_or in Hl as [Hl|Hl]; [|apply Hin2; exact Hl].
    destruct (He2 l) as [H2|H2]; rewrite H2;
      [apply Hin1; exact Hl | apply tremolo_removed_no_tremolo].
  - lia.
  - rewrite tremolo_count_app. lia.
  - rewrite tremolo_count_app. intros Hpos.
    destruct (decide (tremolo_count (heap s) xs = 0)) as [Hzero|Hsome];
      [|specialize (Hl1 ltac:(lia)); lia].
    assert (Hys : 0 < tremolo_count (heap s) ys) by lia.
    destruct (tremolo_count_marked _ _ Hys) as (l & Hin & Hl).
    assert (Hnotin : ~ In l xs).
    { intros Hx. apply tremolo_count_zero in Hzero.
      pose proof (proj1 (Forall_forall _ _) Hzero l (proj2 (list_elem_of_In _ _) Hx))
        as Hno.
      simpl in Hno. congruence. }
    assert (Hys1 : 0 < tremolo_count (heap s1) ys).
    { apply (tremolo_count_positive _ _ l Hin). rewrite (Hout1 l Hnotin). exact Hl. }
    specialize (Hl2 Hys1). lia.
Qed.

Lemma simple_mode_beats_run (beats : list loc) :
  forall (converted_count : nat) (s : state),
    exists converted_count' s',
      simple_mode_beats beats converted_count s = (Ok converted_count', s') /\
      cleared beats converted_count s converted_count' s'.
Proof.
  induction beats as [|l rest IH]; intros count s.
  - exists count, s. split; [reflexivity | apply cleared_nil].
  - cbn [simple_mode_beats]. erewrite bind_ok by reflexivity.
    destruct (has_tremolo_picking (heap s !!! l)) eqn:Hl.
    + erewrite bind_ok by apply remove_tremolo_effect_run.
      set (s1 := mkState (<[l := tremolo_removed (heap s !!! l)]> (heap s)) (next_id s)
                   (stdout s)).
      destruct (IH (count + 1) s1) as (count' & s' & Hrun & Hrest).
      exists count', s'. split; [exact Hrun|].
      apply (cleared_app [l] rest count (count + 1) count' s s1 s'); [|exact Hrest].
      assert (Hone : tremolo_count (heap s) [l] = 1).
      { unfold tremolo_count. rewrite filter_cons.
        destruct (decide (has_tremolo_picking (heap s !!! l) = true)); [|congruence].
        reflexivity. }
      split; [reflexivity|]. split; [reflexivity|].
      split; [|split; [|split; [|split; [|split]]]]; try lia.
      * intros l'. simpl. destruct (decide (l' = l)) as [->|Hne].
        -- right. apply lookup_total_insert_eq.
        -- left. apply lookup_total_insert_ne. congruence.
      * intros l' Hl'. simpl. apply lookup_total_insert_ne. intros ->. apply Hl'.
        left. reflexivity.
      * intros l' [<-|[]]. simpl. rewrite lookup_total_insert_eq.
        apply tremolo_removed_no_tremolo.
    + destruct (IH count s) as (count' & s' & Hrun & Hrest).
      exists count', s'. split; [exact Hrun|].
      apply (cleared_app [l] rest count count count' s s s'); [|exact Hrest].
      assert (Hnone : tremolo_count (heap s) [l] = 0).
      { unfold tremolo_count. rewrite filter_cons.
        destruct (decide (has_tremolo_picking (heap s !!! l) = true)); [congruence|].
        reflexivity. }
      split; [reflexivity|]. split; [reflexivity|].
      split; [|split; [|split; [|split; [|split]]]]; try lia.
      * intros l'. left. reflexivity.
      * reflexivity.
      * intros l' [<-|[]]. exact Hl.
Qed.

Definition track_beats (track : Track.t) : list loc :=
  concat (map (fun measure => measure_beats (Measure.voices measure))
              (Track.measures track)).

Definition song_beats (song : Song.t) : list loc :=
  concat (map track_beats (Song.tracks song)).

Lemma simple_mode_voices_run (voices : list Voice.t) :
  forall (converted_count : nat) (s : state),
    exists converted_count' s',
      simple_mode_voices voices converted_count s = (Ok converted_count', s') /\
      cleared (measure_beats voices) converted_count s converted_count' s'.
Proof.
  induction voices as [|voice rest IH]; intros count s.
  - exists count, s. split; [reflexivity | apply cleared_nil].
  - destruct (simple_mode_beats_run (Voice.beats voice) count s) as (c1 & s1 & Hrun1 & H1).
    destruct (IH c1 s1) as (count' & s' & Hrun & Hrest).
    cbn [simple_mode_voices]. erewrite bind_ok by exact Hrun1.
    exists count', s'. split; [exact Hrun|].
    exact (cleared_app _ _ _ _ _ _ _ _ H1 Hrest).
Qed.

Lemma simple_mode_measures_run (measures : list Measure.t) :
  forall (converted_count : nat) (s : state),
    exists converted_count' s',
      simple_mode_measures measures converted_count s = (Ok converted_count', s') /\
      cleared (track_beats (Track.mk String.EmptyString measures))
        converted_count s converted_count' s'.
Proof.
  induction measures as [|measure rest IH]; intros count s.
  - exists count, s. split; [reflexivity | apply cleared_nil].
  - destruct (simple_mode_voices_run (Measure.voices measure) count s)
      as (c1 & s1 & Hrun1 & H1).
    destruct (IH c1 s1) as (count' & s' & Hrun & Hrest).
    cbn [simple_mode_measures]. erewrite bind_ok by exact Hrun1.
    exists count', s'. split; [exact Hrun|].
    exact (cleared_app _ _ _ _ _ _ _ _ H1 Hrest).
Qed.

Lemma simple_mode_tracks_run (tracks : list Track.t) :
  forall (converted_count : nat) (s : state),
    exists converted_count' s',
      simple_mode_tracks tracks converted_count s = (Ok converted_count', s') /\
      cleared (song_beats (Song.mk tracks)) converted_count s converted_count' s'.
Proof.
  induction tracks as [|track rest IH]; intros count s.
  - exists count, s. split; [reflexivity | apply cleared_nil].
  - destruct (simple_mode_measures_run (Track.measures track) count s)
      as (c1 & s1 & Hrun1 & H1).
    destruct (IH c1 s1) as (count' & s' & Hrun & Hrest).
    cbn [simple_mode_tracks]. erewrite bind_ok by exact Hrun1.
    exists count', s'. split; [exact Hrun|].
    exact (cleared_app _ _ _ _ _ _ _ _ H1 Hrest).
Qed.

(** X23: the simple mode always returns, whatever the durations are.
    Afterwards no beat of the song has a tremolo marker, and each has the
    duration and the notes (by pitch, string, type and velocity) that it
    had; every beat of the store keeps its duration and its notes, and none
    gains a marker; nothing is created and nothing is printed by the loops.
    The count is 0 when no beat of the song had a marker; otherwise it is
    at least 1 and at most the number of places of the song that held a
    beat with one. *)
Theorem main_simple_mode_clears (song : Song.t) (s : state) :
  exists converted_count s',
    main_simple_mode song s = (Ok converted_count, s') /\
    next_id s' = next_id s /\ stdout s' = stdout s /\
    (forall l, In l (song_beats song) -> stripped (heap s !!! l) (heap s' !!! l)) /\
    (forall l, kept (heap s !!! l) (heap s' !!! l)) /\
    ((tremolo_count (heap s) (song_beats song) = 0 /\ converted_count = 0) \/
     0 < converted_count <= tremolo_count (heap s) (song_beats song)).
Proof.
  destruct (simple_mode_tracks_run (Song.tracks song) 0 s)
    as (count' & s' & Hrun & Hn & Ho & He & Hout & Hin & _ & Hupper & Hlower).
  destruct song as [tracks]. cbn [Song.tracks] in *.
  exists count', s'. split; [exact Hrun|]. split; [exact Hn|]. split; [exact Ho|].
  split; [|split; [|lia]].
  - intros l Hl. pose proof (Hin l Hl) as Hno.
    destruct (He l) as [E|E]; rewrite E; [|apply tremolo_removed_stripped].
    rewrite E in Hno. apply no_tremolo_stripped. exact Hno.
  - intros l. destruct (He l) as [E|E]; rewrite E;
      [apply kept_refl | apply stripped_kept, tremolo_removed_stripped].
Qed.
